(** * Kokkos task DAG: the completion and scheduling core

    A shallow embedding of [core/src/impl/Kokkos_TaskQueueCommon.hpp]
    (class [TaskQueueCommonMixin]) and a verification of the statements
    its specification makes about it.

    The memory pool of task nodes is a list indexed by node address, the
    queue object is a record, and every member function is a computation
    in a state monad that also logs the effects it performs, in program
    order, so that statements about the order of operations inside one
    call can be made about the log. *)

From stdpp Require Import base list numbers.

Local Open Scope Z_scope.

(** ** Task nodes *)

(** A task pointer is the index of the node in the pool. *)
Abbreviation task_id := nat (only parsing).

(** Modelled from the spec: the intrusive wait queue of a task node
    ([Kokkos_TaskNode.hpp] and [Kokkos_LIFO.hpp] are not part of the
    sources at hand).  It is either open, holding the tasks blocked on
    its owner with the most recently appended first, or closed once the
    owner has been completed. *)
Inductive WaitQueue : Type :=
| Open (waiters : list task_id)
| Closed.

(** The two kinds of task narrowed from a common node: a runnable task
    has at most one predecessor and a respawn flag, an aggregate has an
    array of nullable predecessor pointers. *)
Inductive TaskKind : Type :=
| RunnableTask (m_predecessor : option task_id) (m_respawn : bool)
| AggregateTask (m_dependences : list (option task_id)).

Record TaskNode : Type := mkTaskNode {
  m_ref_count : Z;
  m_wait_queue : WaitQueue;
  m_kind : TaskKind
}.

(** ** The queue *)

(** [TaskQueueCommonMixin<Derived>] together with the parts of [Derived]
    it calls into: the pool the task pointers point into and the ready
    queue that [push] fills, written as the sequence of pushed tasks. *)
Record TaskQueue : Type := mkTaskQueue {
  tasks : list TaskNode;
  m_ready_count : Z;
  ready_queue : list task_id
}.

(** [int32_t] arithmetic: the value an atomic add leaves in a 32-bit
    signed cell. *)
Definition wrap32 (z : Z) : Z := (z + 2 ^ 31) `mod` 2 ^ 32 - 2 ^ 31.

(** ** Effects *)

Inductive event : Type :=
| EvClearPredecessor (t : task_id)
| EvMemoryFence
| EvTryAddWaiting (p t : task_id) (added : bool)
| EvDecrementRefCount (t : task_id) (zero : bool)
| EvDeallocate (t : task_id)
| EvSetRespawnFlag (t : task_id) (flag : bool)
| EvIncrementReadyCount
| EvDecrementReadyCount
| EvPush (t : task_id)
| EvConsumeWaitQueue (t : task_id) (waiters : list task_id)
| EvClearSlot (t : task_id) (i : nat).

Definition trace := list event.

(** A call returns normally, or runs out of the fuel that bounds the
    depth of the wake-up recursion, or faults: it dereferences a pointer
    that designates no node of the pool or no node of the kind the
    static type promises, or it violates a contract. *)
Inductive result (A : Type) : Type :=
| Ok (a : A)
| OutOfFuel
| Fault
| ContractViolation.
Arguments Ok {A} a.
Arguments OutOfFuel {A}.
Arguments Fault {A}.
Arguments ContractViolation {A}.

Definition M (A : Type) : Type := TaskQueue → result (A * TaskQueue * trace).

#[global] Instance M_ret : MRet M := λ A a q, Ok (a, q, []).

#[global] Instance M_bind : MBind M := λ A B f m q,
  match m q with
  | Ok (a, q1, tr1) =>
      match f a q1 with
      | Ok (b, q2, tr2) => Ok (b, q2, tr1 ++ tr2)
      | OutOfFuel => OutOfFuel
      | Fault => Fault
      | ContractViolation => ContractViolation
      end
  | OutOfFuel => OutOfFuel
  | Fault => Fault
  | ContractViolation => ContractViolation
  end.

Definition emit (e : event) : M unit := λ q, Ok (tt, q, [e]).
Definition fault {A} : M A := λ _, Fault.
Definition out_of_fuel {A} : M A := λ _, OutOfFuel.

Definition get_node (t : task_id) : M TaskNode := λ q,
  match tasks q !! t with
  | Some n => Ok (n, q, [])
  | None => Fault
  end.

Definition set_node (t : task_id) (n : TaskNode) : M unit := λ q,
  Ok (tt, mkTaskQueue (<[t := n]> (tasks q)) (m_ready_count q) (ready_queue q), []).

(** ** Operations of the task node

    The member functions of [TaskNode], [RunnableTaskBase] and
    [AggregateTask] that the mixin consumes (section 6 of the
    specification).  Their definitions are in [Kokkos_TaskNode.hpp],
    which is not part of the sources at hand. *)

(** Modelled from the spec: [TaskNode::is_runnable], the kind tag of
    the node. *)
Definition is_runnable (t : task_id) : M bool :=
  n ← get_node t;
  mret (match m_kind n with RunnableTask _ _ => true | AggregateTask _ => false end).

(** Modelled from the spec: [RunnableTaskBase::has_predecessor],
    predecessor presence. *)
Definition has_predecessor (t : task_id) : M bool :=
  n ← get_node t;
  match m_kind n with
  | RunnableTask p _ => mret (match p with Some _ => true | None => false end)
  | AggregateTask _ => fault
  end.

(** Modelled from the spec: [RunnableTaskBase::get_predecessor]; there
    must be one. *)
Definition get_predecessor (t : task_id) : M task_id :=
  n ← get_node t;
  match m_kind n with
  | RunnableTask (Some p) _ => mret p
  | _ => fault
  end.

(** Modelled from the spec: [RunnableTaskBase::clear_predecessor]. *)
Definition clear_predecessor (t : task_id) : M unit :=
  n ← get_node t;
  match m_kind n with
  | RunnableTask _ r =>
      set_node t (mkTaskNode (m_ref_count n) (m_wait_queue n) (RunnableTask None r));;
      emit (EvClearPredecessor t)
  | AggregateTask _ => fault
  end.

(** Modelled from the spec: [RunnableTaskBase::get_respawn_flag]. *)
Definition get_respawn_flag (t : task_id) : M bool :=
  n ← get_node t;
  match m_kind n with
  | RunnableTask _ r => mret r
  | AggregateTask _ => fault
  end.

(** Modelled from the spec: [RunnableTaskBase::set_respawn_flag]. *)
Definition set_respawn_flag (t : task_id) (flag : bool) : M unit :=
  n ← get_node t;
  match m_kind n with
  | RunnableTask p _ =>
      set_node t (mkTaskNode (m_ref_count n) (m_wait_queue n) (RunnableTask p flag));;
      emit (EvSetRespawnFlag t flag)
  | AggregateTask _ => fault
  end.

(** Modelled from the spec: [TaskNode::try_add_waiting], the atomic
    "append to wait queue, fail if already complete".  Appends [t] to
    the wait queue of [p]; fails, returning [false], once [p] has been
    completed. *)
Definition try_add_waiting (p t : task_id) : M bool :=
  n ← get_node p;
  match m_wait_queue n with
  | Open ws =>
      set_node p (mkTaskNode (m_ref_count n) (Open (t :: ws)) (m_kind n));;
      emit (EvTryAddWaiting p t true);;
      mret true
  | Closed =>
      emit (EvTryAddWaiting p t false);;
      mret false
  end.

(** Modelled from the spec: [TaskNode::consume_wait_queue], the "drain
    wait queue" operation.  Closes the wait queue of [t] and hands out
    the tasks it held; the visitor of the source is applied to them by
    the caller, see [_complete_finished_task]. *)
Definition consume_wait_queue (t : task_id) : M (list task_id) :=
  n ← get_node t;
  let ws := match m_wait_queue n with Open ws => ws | Closed => [] end in
  set_node t (mkTaskNode (m_ref_count n) Closed (m_kind n));;
  emit (EvConsumeWaitQueue t ws);;
  mret ws.

(** Modelled from the spec:
    [TaskNode::decrement_and_check_reference_count], the atomic
    reference-count decrement-and-test-zero; [true] when the count
    reaches zero. *)
Definition decrement_and_check_reference_count (t : task_id) : M bool :=
  n ← get_node t;
  let c := m_ref_count n - 1 in
  set_node t (mkTaskNode c (m_wait_queue n) (m_kind n));;
  emit (EvDecrementRefCount t (c =? 0));;
  mret (c =? 0).

(** Modelled from the spec: [AggregateTask::dependence_count], the
    number of predecessor slots. *)
Definition dependence_count (t : task_id) : M nat :=
  n ← get_node t;
  match m_kind n with
  | AggregateTask ds => mret (length ds)
  | RunnableTask _ _ => fault
  end.

(** Modelled from the spec: [AggregateTask::aggregate_dependences], the
    ordered predecessor slots; this is the read [predecessor_ptrs[i]]. *)
Definition get_dependence (t : task_id) (i : nat) : M (option task_id) :=
  n ← get_node t;
  match m_kind n with
  | AggregateTask ds =>
      match ds !! i with
      | Some d => mret d
      | None => fault
      end
  | RunnableTask _ _ => fault
  end.

(** Modelled from the spec: [AggregateTask::aggregate_dependences]
    again; this is the write [predecessor_ptrs[i] = nullptr]. *)
Definition clear_dependence (t : task_id) (i : nat) : M unit :=
  n ← get_node t;
  match m_kind n with
  | AggregateTask ds =>
      set_node t (mkTaskNode (m_ref_count n) (m_wait_queue n)
                    (AggregateTask (<[i := None]> ds)));;
      emit (EvClearSlot t i)
  | RunnableTask _ _ => fault
  end.

(** ** Operations of the concrete queue

    [Derived::deallocate], the [push] of the ready queue and
    [Kokkos::memory_fence] are supplied from outside the file; what is
    kept of them is that they happened, and for [push] the task
    pushed. *)

(** Modelled from the spec: [Derived::deallocate], which returns the
    storage of a task to its pool. *)
Definition deallocate (t : task_id) : M unit := emit (EvDeallocate t).

(** Modelled from the spec: [ReadyQueueType::push], the ready-queue
    insertion; the ordering policy of the queue is not part of the
    core. *)
Definition push (t : task_id) : M unit := λ q,
  Ok (tt, mkTaskQueue (tasks q) (m_ready_count q) (ready_queue q ++ [t]), [EvPush t]).

(** Modelled from the spec: [Kokkos::memory_fence]
    ([Kokkos_Memory_Fence.hpp] is not part of the sources at hand). *)
Definition memory_fence : M unit := emit EvMemoryFence.

(** ** TaskQueueCommonMixin *)

(** The constructor: [m_ready_count(0)]. *)
Definition TaskQueueCommonMixin (pool : list TaskNode) : TaskQueue :=
  mkTaskQueue pool 0 [].

(** Modelled from the spec: [KOKKOS_EXPECTS], a macro defined outside
    the sources at hand; a condition that does not hold is fatal, the
    program does not go on. *)
Definition KOKKOS_EXPECTS (cond : bool) : M unit :=
  if cond then mret tt else (λ _, ContractViolation).

(** The destructor. *)
Definition destroy_TaskQueueCommonMixin : M unit :=
  λ q, KOKKOS_EXPECTS (m_ready_count q =? 0) q.

(** [Kokkos::atomic_increment(&m_ready_count)] on an [int32_t]. *)
Definition _increment_ready_count : M unit := λ q,
  Ok (tt, mkTaskQueue (tasks q) (wrap32 (m_ready_count q + 1)) (ready_queue q),
      [EvIncrementReadyCount]).

(** [Kokkos::atomic_decrement(&m_ready_count)]. *)
Definition _decrement_ready_count : M unit := λ q,
  Ok (tt, mkTaskQueue (tasks q) (wrap32 (m_ready_count q - 1)) (ready_queue q),
      [EvDecrementReadyCount]).

(** The volatile read of the count, compared with zero. *)
Definition is_done (q : TaskQueue) : bool := m_ready_count q =? 0.

Definition _schedule_runnable_to_queue (task : task_id) : M unit :=
  hp ← has_predecessor task;
  task_is_ready ←
    (if hp : bool then
       predecessor ← get_predecessor task;
       clear_predecessor task;;
       memory_fence;;
       predecessor_not_ready ← try_add_waiting predecessor task;
       respawn ← get_respawn_flag task;
       (if respawn : bool then
          should_delete ← decrement_and_check_reference_count predecessor;
          if should_delete : bool then deallocate predecessor else mret tt
        else mret tt);;
       mret (negb predecessor_not_ready)
     else mret true);
  set_respawn_flag task false;;
  if task_is_ready : bool then
    _increment_ready_count;;
    push task
  else mret tt.

(** Modelled from the spec: [Derived::schedule_runnable] is the
    "Schedule runnable" algorithm applied to the ready queue of the
    concrete queue. *)
Definition schedule_runnable (task : task_id) : M unit :=
  _schedule_runnable_to_queue task.

Section Scheduling.

(** [_self().complete(AggregateTask&&)], the knot of the recursion. *)
Variable complete : task_id → M unit.

(** The body of the [for] loop of [schedule_aggregate] at index [i];
    returns [incomplete_dependence_found]. *)
Definition scan_slot (task : task_id) (i : nat) : M bool :=
  pred_ptr ← get_dependence task i;
  clear_dependence task i;;
  match pred_ptr with
  | Some p =>
      pred_not_ready ← try_add_waiting p task;
      should_delete ← decrement_and_check_reference_count p;
      (if should_delete : bool then deallocate p else mret tt);;
      mret pred_not_ready
  | None => mret false
  end.

(** The loop
    [for (i = k - 1; i >= 0 && !incomplete_dependence_found; --i)]. *)
Fixpoint scan_dependences (task : task_id) (k : nat) : M bool :=
  match k with
  | O => mret false
  | S i =>
      found ← scan_slot task i;
      if found : bool then mret true else scan_dependences task i
  end.

(** The body of [schedule_aggregate]. *)
Definition schedule_aggregate_with (task : task_id) : M unit :=
  n ← dependence_count task;
  incomplete_dependence_found ← scan_dependences task n;
  if negb incomplete_dependence_found then complete task else mret tt.

(** [_schedule_waiting_tasks_operation::operator()]. *)
Definition _schedule_waiting_tasks_operation (task : task_id) : M unit :=
  r ← is_runnable task;
  if r : bool then schedule_runnable task else schedule_aggregate_with task.

(** The traversal [consume_wait_queue] makes with the visitor. *)
Fixpoint visit_waiters (ws : list task_id) : M unit :=
  match ws with
  | [] => mret tt
  | w :: ws' => _schedule_waiting_tasks_operation w;; visit_waiters ws'
  end.

End Scheduling.

(** [fuel] bounds the nesting of completions inside completions. *)
Fixpoint _complete_finished_task (fuel : nat) (task : task_id) : M unit :=
  match fuel with
  | O => out_of_fuel
  | S fuel' =>
      ws ← consume_wait_queue task;
      visit_waiters (_complete_finished_task fuel') ws;;
      should_delete ← decrement_and_check_reference_count task;
      if should_delete : bool then deallocate task else mret tt
  end.

(** [complete(AggregateTask&&)]. *)
Definition complete_aggregate (fuel : nat) (task : task_id) : M unit :=
  _complete_finished_task fuel task.

(** [schedule_aggregate], with [_self().complete] bound. *)
Definition schedule_aggregate (fuel : nat) (task : task_id) : M unit :=
  schedule_aggregate_with (complete_aggregate fuel) task.

(** [complete(RunnableTaskBase&&)]. *)
Definition complete_runnable (fuel : nat) (task : task_id) : M unit :=
  respawn ← get_respawn_flag task;
  (if respawn : bool then schedule_runnable task
   else _complete_finished_task fuel task);;
  _decrement_ready_count.

(** ** The calls made on the ready count *)

Inductive ready_op : Type := Increment | Decrement.

Definition run_ready_op (op : ready_op) : M unit :=
  match op with
  | Increment => _increment_ready_count
  | Decrement => _decrement_ready_count
  end.

(** The calls made on the tracker over its lifetime, in order. *)
Fixpoint run_ready_ops (ops : list ready_op) : M unit :=
  match ops with
  | [] => mret tt
  | op :: ops' => run_ready_op op;; run_ready_ops ops'
  end.

(** How many of the calls are increments, and how many decrements. *)
Fixpoint increments (ops : list ready_op) : Z :=
  match ops with
  | [] => 0
  | Increment :: ops' => 1 + increments ops'
  | Decrement :: ops' => increments ops'
  end.

Fixpoint decrements (ops : list ready_op) : Z :=
  match ops with
  | [] => 0
  | Increment :: ops' => decrements ops'
  | Decrement :: ops' => 1 + decrements ops'
  end.

(** * Vocabulary of the proofs *)

(** ** Results of computations *)

(** [wp m q Q]: run from [q], [m] returns normally with a value, a queue
    and a log that satisfy [Q]. *)
Definition wp {A} (m : M A) (q : TaskQueue)
    (Q : A → TaskQueue → trace → Prop) : Prop :=
  ∃ a q' tr, m q = Ok (a, q', tr) ∧ Q a q' tr.

(** ** The pool: updates, shape, well-formedness and open queues *)

(** The queue with node [t] replaced. *)
Definition upd (q : TaskQueue) (t : task_id) (n : TaskNode) : TaskQueue :=
  mkTaskQueue (<[t := n]> (tasks q)) (m_ready_count q) (ready_queue q).

Definition enqueue (q : TaskQueue) (t : task_id) : TaskQueue :=
  mkTaskQueue (tasks q) (wrap32 (m_ready_count q + 1)) (ready_queue q ++ [t]).

(** The queue once [_decrement_ready_count] has run. *)
Definition count_down (q : TaskQueue) : TaskQueue :=
  mkTaskQueue (tasks q) (wrap32 (m_ready_count q - 1)) (ready_queue q).

Definition node_is_runnable (n : TaskNode) : bool :=
  match m_kind n with RunnableTask _ _ => true | AggregateTask _ => false end.

Definition queue_is_open (w : WaitQueue) : bool :=
  match w with Open _ => true | Closed => false end.

Definition queue_waiters (w : WaitQueue) : list task_id :=
  match w with Open ws => ws | Closed => [] end.

(** What no operation changes in a node: its kind and, for an
    aggregate, the length of its predecessor array. *)
Definition node_shape (n : TaskNode) : option nat :=
  match m_kind n with
  | RunnableTask _ _ => None
  | AggregateTask ds => Some (length ds)
  end.

Definition shape (q : TaskQueue) : list (option nat) := node_shape <$> tasks q.

(** A pointer is valid in a pool of [n] nodes. *)
Definition valid_id (n : nat) (t : task_id) : Prop := (t < n)%nat.

Definition valid_slot (n : nat) (d : option task_id) : Prop :=
  match d with Some p => valid_id n p | None => True end.

Definition wf_node (n : nat) (nd : TaskNode) : Prop :=
  Forall (valid_id n) (queue_waiters (m_wait_queue nd)) ∧
  match m_kind nd with
  | RunnableTask p _ => valid_slot n p
  | AggregateTask ds => Forall (valid_slot n) ds
  end.

(** Every pointer stored in the pool points into the pool. *)
Definition wf (q : TaskQueue) : Prop :=
  Forall (wf_node (length (tasks q))) (tasks q).

#[global] Instance valid_slot_dec n d : Decision (valid_slot n d).
Proof. destruct d; unfold valid_slot, valid_id; apply _. Defined.

#[global] Instance wf_node_dec n nd : Decision (wf_node n nd).
Proof.
  unfold wf_node, valid_id. destruct (m_kind nd); apply _.
Defined.

#[global] Instance wf_dec q : Decision (wf q).
Proof. unfold wf. apply _. Defined.

(** The number of nodes whose wait queue is still open: the measure
    that bounds the depth of the recursion. *)
Definition open_weight (nd : TaskNode) : nat :=
  if queue_is_open (m_wait_queue nd) then 1%nat else 0%nat.

Fixpoint open_count_pool (pool : list TaskNode) : nat :=
  match pool with
  | [] => 0%nat
  | nd :: pool' => (open_weight nd + open_count_pool pool')%nat
  end.

Definition open_count (q : TaskQueue) : nat := open_count_pool (tasks q).

(** Which wait queues are open; appends and releases leave it alone. *)
Definition opens (q : TaskQueue) : list nat := open_weight <$> tasks q.

(** The slot holds a predecessor that still accepts waiters. *)
Definition pending (q : TaskQueue) (d : option task_id) : bool :=
  match d with
  | Some p =>
      match tasks q !! p with
      | Some np => queue_is_open (m_wait_queue np)
      | None => false
      end
  | None => false
  end.

(** [q'] is a later state of the pool of [q]: the same kinds of node at
    the same addresses, all pointers valid, no wait queue reopened. *)
Definition descends (q q' : TaskQueue) : Prop :=
  shape q' = shape q ∧ wf q' ∧ (open_count q' ≤ open_count q)%nat.

(** ** What the node operations do to a node *)

Definition node_clear_predecessor (nd : TaskNode) : TaskNode :=
  match m_kind nd with
  | RunnableTask _ r => mkTaskNode (m_ref_count nd) (m_wait_queue nd) (RunnableTask None r)
  | AggregateTask _ => nd
  end.

Definition node_set_respawn (flag : bool) (nd : TaskNode) : TaskNode :=
  match m_kind nd with
  | RunnableTask p _ => mkTaskNode (m_ref_count nd) (m_wait_queue nd) (RunnableTask p flag)
  | AggregateTask _ => nd
  end.

Definition node_add_waiter (t : task_id) (nd : TaskNode) : TaskNode :=
  match m_wait_queue nd with
  | Open ws => mkTaskNode (m_ref_count nd) (Open (t :: ws)) (m_kind nd)
  | Closed => nd
  end.

Definition node_close (nd : TaskNode) : TaskNode :=
  mkTaskNode (m_ref_count nd) Closed (m_kind nd).

Definition node_release (nd : TaskNode) : TaskNode :=
  mkTaskNode (m_ref_count nd - 1) (m_wait_queue nd) (m_kind nd).

Definition node_clear_slot (i : nat) (nd : TaskNode) : TaskNode :=
  match m_kind nd with
  | AggregateTask ds =>
      mkTaskNode (m_ref_count nd) (m_wait_queue nd) (AggregateTask (<[i := None]> ds))
  | RunnableTask _ _ => nd
  end.

(** ** The log *)

(** The ready count after the increments and decrements of a log. *)
Fixpoint replay_ready (c : Z) (tr : trace) : Z :=
  match tr with
  | [] => c
  | EvIncrementReadyCount :: tr' => replay_ready (wrap32 (c + 1)) tr'
  | EvDecrementReadyCount :: tr' => replay_ready (wrap32 (c - 1)) tr'
  | _ :: tr' => replay_ready c tr'
  end.

Definition is_increment (e : event) : bool :=
  match e with EvIncrementReadyCount => true | _ => false end.
Definition is_decrement (e : event) : bool :=
  match e with EvDecrementReadyCount => true | _ => false end.
Definition is_push (e : event) : bool :=
  match e with EvPush _ => true | _ => false end.

(** An event that neither changes the ready count nor pushes. *)
Definition silent (e : event) : bool :=
  negb (is_increment e || is_decrement e || is_push e).

Fixpoint count_events (f : event → bool) (tr : trace) : nat :=
  match tr with
  | [] => 0%nat
  | e :: tr' => ((if f e then 1 else 0) + count_events f tr')%nat
  end.

(** The tasks pushed, in order. *)
Fixpoint pushed (tr : trace) : list task_id :=
  match tr with
  | [] => []
  | EvPush t :: tr' => t :: pushed tr'
  | _ :: tr' => pushed tr'
  end.

(** The slots of [t] that a log clears, in order. *)
Fixpoint cleared_slots (t : task_id) (tr : trace) : list nat :=
  match tr with
  | [] => []
  | EvClearSlot t' i :: tr' =>
      if bool_decide (t' = t) then i :: cleared_slots t tr' else cleared_slots t tr'
  | _ :: tr' => cleared_slots t tr'
  end.

(** The successful appends of a log: the wait queue's owner and the
    task appended, in order. *)
Fixpoint appended (tr : trace) : list (task_id * task_id) :=
  match tr with
  | [] => []
  | EvTryAddWaiting p w true :: tr' => (p, w) :: appended tr'
  | _ :: tr' => appended tr'
  end.

(** A log in which the ready count is never decremented and is
    incremented only right before the push of a runnable task. *)
Inductive wakes_only (sh : list (option nat)) : trace → Prop :=
| wakes_nil : wakes_only sh []
| wakes_push w tr :
    sh !! w = Some None → wakes_only sh tr →
    wakes_only sh (EvIncrementReadyCount :: EvPush w :: tr)
| wakes_silent e tr :
    silent e = true → wakes_only sh tr → wakes_only sh (e :: tr).

(** The log of a release of one reference count on [p], held at [rc]
    before. *)
Definition release_log (p : task_id) (rc : Z) : trace :=
  EvDecrementRefCount p (rc - 1 =? 0) ::
  (if rc - 1 =? 0 then [EvDeallocate p] else []).

(** The log of [_schedule_runnable_to_queue] on a task with predecessor
    [p], whose wait queue is open or not and whose reference count is
    [rc], and with respawn flag [r]. *)
Definition schedule_log (t p : task_id) (open : bool) (rc : Z) (r : bool) : trace :=
  [EvClearPredecessor t; EvMemoryFence; EvTryAddWaiting p t open] ++
  (if r then release_log p rc else []) ++
  [EvSetRespawnFlag t false] ++
  (if open then [] else [EvIncrementReadyCount; EvPush t]).

(** What all operations of the engine other than the decrement in
    [complete] guarantee: the pool stays well formed and keeps its
    shape, no wait queue is reopened, the ready count moves only with
    the pushes of woken runnable tasks, and the log accounts for the
    ready count and the ready queue. *)
Definition sound (q q' : TaskQueue) (tr : trace) : Prop :=
  descends q q' ∧
  wakes_only (shape q) tr ∧
  m_ready_count q' = replay_ready (m_ready_count q) tr ∧
  ready_queue q' = ready_queue q ++ pushed tr.

(** What one turn of the loop leaves behind, whatever the slot held. *)
Definition slot_scanned (q : TaskQueue) (t : task_id) (ds : list (option task_id))
    (i : nat) (d : option task_id) (q' : TaskQueue) (tr : trace) : Prop :=
  appended tr =
    match d with
    | Some p => if pending q d then [(p, t)] else []
    | None => []
    end ∧
  descends q q' ∧ opens q' = opens q ∧
  m_ready_count q' = m_ready_count q ∧ ready_queue q' = ready_queue q ∧
  Forall (λ e, silent e = true) tr ∧
  cleared_slots t tr = [i] ∧
  (∀ x ws, EvConsumeWaitQueue x ws ∉ tr) ∧
  ∃ nd', tasks q' !! t = Some nd' ∧ m_kind nd' = AggregateTask (<[i := None]> ds).

(** What the loop started at slot [k - 1] leaves behind when it has
    scanned the slots [k - 1] down to [j]. *)
Definition scanned (q : TaskQueue) (t : task_id) (ds : list (option task_id))
    (j k : nat) (found : bool) (q' : TaskQueue) (tr : trace) : Prop :=
  descends q q' ∧ opens q' = opens q ∧
  m_ready_count q' = m_ready_count q ∧ ready_queue q' = ready_queue q ∧
  Forall (λ e, silent e = true) tr ∧
  (∀ x ws, EvConsumeWaitQueue x ws ∉ tr) ∧
  cleared_slots t tr = rev (seq j (k - j)) ∧
  (∀ i d, (j < i < k)%nat → ds !! i = Some d → pending q d = false) ∧
  (if found
   then (j < k)%nat ∧
        ∃ p, ds !! j = Some (Some p) ∧ pending q (Some p) = true ∧ appended tr = [(p, t)]
   else j = 0%nat ∧ appended tr = [] ∧
        ∀ d, (0 < k)%nat → ds !! 0%nat = Some d → pending q d = false) ∧
  ∃ nd' ds', tasks q' !! t = Some nd' ∧ m_kind nd' = AggregateTask ds' ∧
    length ds' = length ds ∧
    (∀ i, (i < j ∨ k ≤ i)%nat → ds' !! i = ds !! i) ∧
    (∀ i, (j ≤ i < k)%nat → ds' !! i = Some None).

(** ** Two statements as the specification words them *)

(** The order the specification gives for a respawn: in the log the
    decrement of the ready count comes before the increment. *)
Definition decrement_precedes_increment (tr : trace) : Prop :=
  ∃ tr1 tr2 tr3,
    tr = tr1 ++ EvDecrementReadyCount :: tr2 ++ EvIncrementReadyCount :: tr3.

(** The release rule the specification gives for the scan of an
    aggregate: when the append of the aggregate to the wait queue of a
    predecessor succeeds, the reference count held on that predecessor
    is not released. *)
Definition release_only_on_failed_append : Prop :=
  ∀ fuel q t q' tr p,
    schedule_aggregate fuel t q = Ok (tt, q', tr) →
    EvTryAddWaiting p t true ∈ tr →
    ∀ z, EvDecrementRefCount p z ∉ tr.

(** ** Example pools *)

Definition runnable_node (p : option task_id) (r : bool) (rc : Z) (w : WaitQueue)
  : TaskNode := mkTaskNode rc w (RunnableTask p r).

Definition aggregate_node (ds : list (option task_id)) (rc : Z) (w : WaitQueue)
  : TaskNode := mkTaskNode rc w (AggregateTask ds).

(** Task 1 has respawned with a dependence on task 0, which is still
    running. *)
Definition respawned_on_running : TaskQueue :=
  mkTaskQueue [runnable_node None false 2 (Open []);
               runnable_node (Some 0%nat) true 1 (Open [])] 2 [].

(** Task 1 has respawned with a dependence on task 0, which is done. *)
Definition respawned_on_done : TaskQueue :=
  mkTaskQueue [runnable_node None false 1 Closed;
               runnable_node (Some 0%nat) true 1 (Open [])] 1 [].

(** A single running task that has respawned without a dependence. *)
Definition respawned_alone : TaskQueue :=
  mkTaskQueue [runnable_node None true 1 (Open [])] 1 [].

(** Task 0 has finished while task 1 waits on it. *)
Definition finished_with_waiter : TaskQueue :=
  mkTaskQueue [runnable_node None false 1 (Open [1%nat]);
               runnable_node None false 1 (Open [])] 1 [].

(** An aggregate, task 0, all of whose predecessors are done, with a
    runnable task waiting on it. *)
Definition aggregate_with_waiter : TaskQueue :=
  mkTaskQueue [aggregate_node [None; None] 1 (Open [1%nat]);
               runnable_node None false 1 (Open [])] 0 [].

(** An aggregate, task 3, over tasks 0, 1 and 2, of which 0 and 2 are
    done and 1 is still running. *)
Definition aggregate_of_three : TaskQueue :=
  mkTaskQueue [runnable_node None false 2 Closed;
               runnable_node None false 2 (Open []);
               runnable_node None false 2 Closed;
               aggregate_node [Some 0%nat; Some 1%nat; Some 2%nat] 1 (Open [])] 1 [].

(** An aggregate, task 1, over task 0, which is still running. *)
Definition aggregate_on_running : TaskQueue :=
  mkTaskQueue [runnable_node None false 2 (Open []);
               aggregate_node [Some 0%nat] 1 (Open [])] 1 [].

(** A fresh queue over one task without a predecessor. *)
Definition one_task : TaskQueue :=
  TaskQueueCommonMixin [runnable_node None false 1 (Open [])].

(** A fresh queue over task 0 and task 1, which depends on task 0. *)
Definition two_tasks : TaskQueue :=
  TaskQueueCommonMixin [runnable_node None false 1 (Open []);
                        runnable_node (Some 0%nat) false 1 (Open [])].

(** Three running tasks and an aggregate over them, task 3, not yet
    scheduled. *)
Definition three_and_aggregate : TaskQueue :=
  mkTaskQueue [runnable_node None false 2 (Open []);
               runnable_node None false 2 (Open []);
               runnable_node None false 2 (Open []);
               aggregate_node [Some 0%nat; Some 1%nat; Some 2%nat] 1 (Open [])] 3 [].

(** A tracker torn down while a task is still counted. *)
Definition leaked_task : TaskQueue :=
  mkTaskQueue [runnable_node None false 1 (Open [])] 1 [0%nat].

(** ** The calls a driver makes on the engine *)

(** The operations the mixin offers to the concrete queue and to the
    driver that pops and runs tasks. *)
Inductive call : Type :=
| CompleteRunnable (t : task_id)
| CompleteAggregate (t : task_id)
| ScheduleRunnable (t : task_id)
| ScheduleAggregate (t : task_id).

Definition run_call (fuel : nat) (c : call) : M unit :=
  match c with
  | CompleteRunnable t => complete_runnable fuel t
  | CompleteAggregate t => complete_aggregate fuel t
  | ScheduleRunnable t => schedule_runnable t
  | ScheduleAggregate t => schedule_aggregate fuel t
  end.

(** A sequence of calls, one after the other. *)
Fixpoint run_calls (fuel : nat) (cs : list call) : M unit :=
  match cs with
  | [] => mret tt
  | c :: cs' => run_call fuel c;; run_calls fuel cs'
  end.

(** The call names a task of the kind its static type asks for. *)
Definition call_ok (sh : list (option nat)) (c : call) : Prop :=
  match c with
  | CompleteRunnable t | ScheduleRunnable t => sh !! t = Some None
  | CompleteAggregate t | ScheduleAggregate t => ∃ n, sh !! t = Some (Some n)
  end.

(** How many of the calls complete a runnable task. *)
Fixpoint completions (cs : list call) : nat :=
  match cs with
  | [] => 0%nat
  | CompleteRunnable _ :: cs' => S (completions cs')
  | _ :: cs' => completions cs'
  end.

(** The ready count is a value of [int32_t]. *)
Definition int32_range (z : Z) : Prop := - 2 ^ 31 ≤ z < 2 ^ 31.

(** What a log says of the ready side of the queue: the ready count and
    the ready queue are those of the start, moved as the log tells;
    every increment comes with a push; [n] decrements; only runnable
    tasks are pushed. *)
Definition accounted (sh : list (option nat)) (q q' : TaskQueue) (tr : trace)
    (n : nat) : Prop :=
  m_ready_count q' = replay_ready (m_ready_count q) tr ∧
  ready_queue q' = ready_queue q ++ pushed tr ∧
  count_events is_increment tr = length (pushed tr) ∧
  count_events is_decrement tr = n ∧
  Forall (λ w, sh !! w = Some None) (pushed tr).

(** ** The steps of the engine *)

(** One step of the engine on the shared state, with what it logs: an
    operation of a task node, of the ready count or of the ready queue.
    The release of a reference is one step with the deallocation that
    follows it when the count reaches zero. *)
Inductive atomic_step : TaskQueue → TaskQueue → trace → Prop :=
| step_clear_predecessor q t nd p r :
    tasks q !! t = Some nd → m_kind nd = RunnableTask p r →
    atomic_step q (upd q t (node_clear_predecessor nd)) [EvClearPredecessor t]
| step_memory_fence q :
    atomic_step q q [EvMemoryFence]
| step_add_waiter q p nd ws w :
    tasks q !! p = Some nd → m_wait_queue nd = Open ws →
    atomic_step q (upd q p (node_add_waiter w nd)) [EvTryAddWaiting p w true]
| step_add_refused q p nd w :
    tasks q !! p = Some nd → m_wait_queue nd = Closed →
    atomic_step q q [EvTryAddWaiting p w false]
| step_release q t nd :
    tasks q !! t = Some nd →
    atomic_step q (upd q t (node_release nd)) (release_log t (m_ref_count nd))
| step_clear_respawn q t nd p r :
    tasks q !! t = Some nd → m_kind nd = RunnableTask p r →
    atomic_step q (upd q t (node_set_respawn false nd)) [EvSetRespawnFlag t false]
| step_increment q :
    atomic_step q
      (mkTaskQueue (tasks q) (wrap32 (m_ready_count q + 1)) (ready_queue q))
      [EvIncrementReadyCount]
| step_decrement q :
    atomic_step q (count_down q) [EvDecrementReadyCount]
| step_push q t :
    atomic_step q
      (mkTaskQueue (tasks q) (m_ready_count q) (ready_queue q ++ [t]))
      [EvPush t]
| step_consume q t nd :
    tasks q !! t = Some nd →
    atomic_step q (upd q t (node_close nd))
      [EvConsumeWaitQueue t (queue_waiters (m_wait_queue nd))]
| step_clear_slot q t nd ds i :
    tasks q !! t = Some nd → m_kind nd = AggregateTask ds →
    atomic_step q (upd q t (node_clear_slot i nd)) [EvClearSlot t i].

(** A run of steps, with the log of the whole. *)
Inductive atomic_steps : TaskQueue → TaskQueue → trace → Prop :=
| steps_nil q : atomic_steps q q []
| steps_cons q q1 q2 tr1 tr2 :
    atomic_step q q1 tr1 → atomic_steps q1 q2 tr2 →
    atomic_steps q q2 (tr1 ++ tr2).

(** Whenever [m] returns, the queue it leaves and its log are related by
    [R] to the queue it started from. *)
Definition tracks (R : TaskQueue → TaskQueue → trace → Prop) {A} (m : M A)
  : Prop :=
  ∀ q a q' tr, m q = Ok (a, q', tr) → R q q' tr.

(** A run of steps that pushes nothing. *)
Definition quiet_steps (q q' : TaskQueue) (tr : trace) : Prop :=
  atomic_steps q q' tr ∧ pushed tr = [].

(** ** What the steps may do to a node *)

(** The updates of a node that the engine makes. *)
Definition node_step (nd nd' : TaskNode) : Prop :=
  nd' = node_clear_predecessor nd ∨
  nd' = node_set_respawn false nd ∨
  (∃ w, nd' = node_add_waiter w nd) ∨
  nd' = node_close nd ∨
  nd' = node_release nd ∨
  (∃ i, nd' = node_clear_slot i nd).

(** Every node of [q] is still there in [q'], related by [N] to what it
    was. *)
Definition nodewise (N : TaskNode → TaskNode → Prop) (q q' : TaskQueue) : Prop :=
  ∀ x nd, tasks q !! x = Some nd → ∃ nd', tasks q' !! x = Some nd' ∧ N nd nd'.

(** Dependences and respawn flags have only been cleared: the node is of
    the same kind; a runnable task has the predecessor it had or none,
    and the respawn flag it had or none; a slot of an aggregate holds
    what it held or null. *)
Definition links_le (nd nd' : TaskNode) : Prop :=
  match m_kind nd, m_kind nd' with
  | RunnableTask p r, RunnableTask p' r' =>
      (p' = None ∨ p' = p) ∧ (r' = false ∨ r' = r)
  | AggregateTask ds, AggregateTask ds' =>
      length ds' = length ds ∧ ∀ i, ds' !! i = Some None ∨ ds' !! i = ds !! i
  | _, _ => False
  end.

(** ** Reference counts in the log *)

(** How many references on [x] a log releases, and how many times it
    returns the storage of [x]. *)
Fixpoint releases (x : task_id) (tr : trace) : nat :=
  match tr with
  | [] => 0
  | EvDecrementRefCount t _ :: tr' =>
      ((if bool_decide (t = x) then 1 else 0) + releases x tr')%nat
  | _ :: tr' => releases x tr'
  end.

Fixpoint deallocations (x : task_id) (tr : trace) : nat :=
  match tr with
  | [] => 0
  | EvDeallocate t :: tr' =>
      ((if bool_decide (t = x) then 1 else 0) + deallocations x tr')%nat
  | _ :: tr' => deallocations x tr'
  end.

(** An event that ends the life of no task: neither a deallocation nor
    a release that brings a count to zero. *)
Definition keeps_alive (e : event) : bool :=
  match e with
  | EvDeallocate _ | EvDecrementRefCount _ true => false
  | _ => true
  end.

(** A log in which the storage of a task is returned when a release
    has just brought its count to zero, and only then. *)
Inductive frees_at_zero : trace → Prop :=
| faz_nil : frees_at_zero []
| faz_keep e tr :
    keeps_alive e = true → frees_at_zero tr → frees_at_zero (e :: tr)
| faz_free t tr :
    frees_at_zero tr →
    frees_at_zero (EvDecrementRefCount t true :: EvDeallocate t :: tr).

(** ** Wait queues in the log *)

(** The tasks a log appends to the wait queue of [p], in order, and the
    tasks it hands out of that queue when it consumes it. *)
Fixpoint appended_to (p : task_id) (tr : trace) : list task_id :=
  match tr with
  | [] => []
  | EvTryAddWaiting p' w true :: tr' =>
      if bool_decide (p' = p) then w :: appended_to p tr' else appended_to p tr'
  | _ :: tr' => appended_to p tr'
  end.

Fixpoint handed_out (p : task_id) (tr : trace) : list task_id :=
  match tr with
  | [] => []
  | EvConsumeWaitQueue p' ws :: tr' =>
      if bool_decide (p' = p) then ws ++ handed_out p tr' else handed_out p tr'
  | _ :: tr' => handed_out p tr'
  end.

(** ** Tasks that are ready *)

(** A runnable task that names no predecessor. *)
Definition free_runnable (q : TaskQueue) (w : task_id) : Prop :=
  ∃ nd r, tasks q !! w = Some nd ∧ m_kind nd = RunnableTask None r.

(** A runnable task that names no predecessor and whose respawn flag is
    cleared: it can be run. *)
Definition ready_to_run (q : TaskQueue) (w : task_id) : Prop :=
  ∃ nd, tasks q !! w = Some nd ∧ m_kind nd = RunnableTask None false.

(** A run of steps after which every task pushed is ready to run. *)
Definition pushes_ready (q q' : TaskQueue) (tr : trace) : Prop :=
  atomic_steps q q' tr ∧ ∀ w, w ∈ pushed tr → ready_to_run q' w.

(** The log of the wake-up of a runnable task without a predecessor. *)
Definition wake_log (w : task_id) : trace :=
  [EvSetRespawnFlag w false; EvIncrementReadyCount; EvPush w].

(** Task 1 depends on task 0, which is running with task 2 already
    waiting on it. *)
Definition waiter_and_newcomer : TaskQueue :=
  mkTaskQueue [runnable_node None false 1 (Open [2%nat]);
               runnable_node (Some 0%nat) false 1 (Open []);
               runnable_node None false 1 (Open [])] 1 [0%nat].

(** ** An aggregate and its predecessors *)

(** Of the tasks [ps], those in [done] have completed; [live] is one
    more than the index of the last task of [ps] that has not, or zero
    when all have. *)
Definition join_live (ps done : list task_id) (live : nat) : Prop :=
  (∀ i p, ps !! i = Some p → (live ≤ i)%nat → p ∈ done) ∧
  (live = 0%nat ∨ ∃ p, ps !! pred live = Some p ∧ p ∉ done).

(** The aggregate [t] over [ps]: the slots below [m] hold their task,
    the others are null, and the wait queue holds [wt] or is closed. *)
Definition join_aggregate (t : task_id) (ps wt : list task_id) (m : nat)
    (open : bool) (q : TaskQueue) : Prop :=
  ∃ nt ds, tasks q !! t = Some nt ∧ m_kind nt = AggregateTask ds ∧
    length ds = length ps ∧
    m_wait_queue nt = (if open then Open wt else Closed) ∧
    ∀ i p, ps !! i = Some p →
           ds !! i = Some (if decide (i < m)%nat then Some p else None).

(** The predecessors [ps]: runnable tasks that do not respawn, whose
    wait queue is closed when they are done and holds nothing otherwise,
    but for [t] in the queue of the one it is parked on. *)
Definition join_predecessors (t : task_id) (ps done : list task_id)
    (parked : option nat) (q : TaskQueue) : Prop :=
  ∀ i p, ps !! i = Some p →
    ∃ np pp, tasks q !! p = Some np ∧ m_kind np = RunnableTask pp false ∧
      m_wait_queue np =
        if decide (p ∈ done) then Closed
        else Open (if decide (parked = Some i) then [t] else []).

(** The aggregate [t] has been scheduled and the tasks of [done] have
    completed: [t] is parked on the last of its predecessors that is
    not done, or it is finalised when all are. *)
Definition join_state (t : task_id) (ps wt done : list task_id) (live : nat)
    (q : TaskQueue) : Prop :=
  join_live ps done live ∧
  join_aggregate t ps wt (pred live) (bool_decide (live ≠ 0%nat)) q ∧
  join_predecessors t ps done (match live with O => None | S j => Some j end) q.

(** Two running tasks, an aggregate over them, task 2, not yet
    scheduled, and a runnable task, task 3, that waits on the
    aggregate. *)
Definition two_and_join : TaskQueue :=
  mkTaskQueue [runnable_node None false 2 (Open []);
               runnable_node None false 2 (Open []);
               aggregate_node [Some 0%nat; Some 1%nat] 1 (Open [3%nat]);
               runnable_node None false 1 (Open [])] 2 [].

(** * Lemmas *)

(** ** Reasoning about computations *)

Lemma wp_ret {A} (a : A) q (Q : A → TaskQueue → trace → Prop) :
  Q a q [] → wp (mret a) q Q.
Proof. intros HQ. exists a, q, []. split; [reflexivity | exact HQ]. Qed.

Lemma wp_bind {A B} (m : M A) (f : A → M B) q (Q : B → TaskQueue → trace → Prop) :
  wp m q (λ a q1 tr1, wp (f a) q1 (λ b q2 tr2, Q b q2 (tr1 ++ tr2))) →
  wp (m ≫= f) q Q.
Proof.
  intros (a & q1 & tr1 & Hm & b & q2 & tr2 & Hf & HQ).
  exists b, q2, (tr1 ++ tr2). split; [|exact HQ].
  unfold mbind, M_bind. rewrite Hm, Hf. reflexivity.
Qed.

Lemma wp_mono {A} (m : M A) q (Q Q' : A → TaskQueue → trace → Prop) :
  wp m q Q → (∀ a q' tr, Q a q' tr → Q' a q' tr) → wp m q Q'.
Proof. intros (a & q' & tr & Hm & HQ) Himp. exists a, q', tr. auto. Qed.

Lemma bind_Ok {A B} (m : M A) (f : A → M B) q a q1 tr1 :
  m q = Ok (a, q1, tr1) →
  (m ≫= f) q =
    match f a q1 with
    | Ok (b, q2, tr2) => Ok (b, q2, tr1 ++ tr2)
    | OutOfFuel => OutOfFuel
    | Fault => Fault
    | ContractViolation => ContractViolation
    end.
Proof. intros Hm. unfold mbind, M_bind. rewrite Hm. reflexivity. Qed.

(** ** What the node operations compute *)

Lemma upd_same q t nd : tasks q !! t = Some nd → upd q t nd = q.
Proof.
  intros H. destruct q as [pool c rq]. unfold upd. simpl in *.
  rewrite list_insert_id; [reflexivity | exact H].
Qed.

Ltac run_node H :=
  unfold mbind, M_bind, get_node; rewrite H; simpl;
  repeat match goal with
         | |- context [match m_kind ?n with _ => _ end] => destruct (m_kind n) eqn:?
         | |- context [match m_wait_queue ?n with _ => _ end] => destruct (m_wait_queue n) eqn:?
         | H' : RunnableTask _ _ = RunnableTask _ _ |- _ => injection H' as ? ?; subst
         | H' : AggregateTask _ = AggregateTask _ |- _ => injection H' as ?; subst
         | H' : RunnableTask _ _ = AggregateTask _ |- _ => discriminate H'
         | H' : AggregateTask _ = RunnableTask _ _ |- _ => discriminate H'
         end; simpl; try reflexivity.

Section NodeOperations.
Context (q : TaskQueue) (t : task_id) (nd : TaskNode).
Hypothesis Hnd : tasks q !! t = Some nd.

Lemma run_is_runnable :
  is_runnable t q = Ok (node_is_runnable nd, q, []).
Proof. unfold is_runnable, node_is_runnable. run_node Hnd. Qed.

Lemma run_has_predecessor p r :
  m_kind nd = RunnableTask p r →
  has_predecessor t q = Ok (match p with Some _ => true | None => false end, q, []).
Proof. intros Hk. unfold has_predecessor. run_node Hnd. Qed.

Lemma run_get_predecessor p r :
  m_kind nd = RunnableTask (Some p) r →
  get_predecessor t q = Ok (p, q, []).
Proof. intros Hk. unfold get_predecessor. run_node Hnd. Qed.

Lemma run_get_respawn_flag p r :
  m_kind nd = RunnableTask p r →
  get_respawn_flag t q = Ok (r, q, []).
Proof. intros Hk. unfold get_respawn_flag. run_node Hnd. Qed.

Lemma run_clear_predecessor p r :
  m_kind nd = RunnableTask p r →
  clear_predecessor t q =
    Ok (tt, upd q t (node_clear_predecessor nd), [EvClearPredecessor t]).
Proof.
  intros Hk. unfold clear_predecessor, node_clear_predecessor. run_node Hnd.
Qed.

Lemma run_set_respawn_flag p r flag :
  m_kind nd = RunnableTask p r →
  set_respawn_flag t flag q =
    Ok (tt, upd q t (node_set_respawn flag nd), [EvSetRespawnFlag t flag]).
Proof.
  intros Hk. unfold set_respawn_flag, node_set_respawn. run_node Hnd.
Qed.

Lemma run_try_add_waiting w :
  try_add_waiting t w q =
    Ok (queue_is_open (m_wait_queue nd), upd q t (node_add_waiter w nd),
        [EvTryAddWaiting t w (queue_is_open (m_wait_queue nd))]).
Proof.
  unfold try_add_waiting, node_add_waiter. run_node Hnd.
  rewrite upd_same; [reflexivity | exact Hnd].
Qed.

Lemma run_consume_wait_queue :
  consume_wait_queue t q =
    Ok (queue_waiters (m_wait_queue nd), upd q t (node_close nd),
        [EvConsumeWaitQueue t (queue_waiters (m_wait_queue nd))]).
Proof. unfold consume_wait_queue. run_node Hnd. Qed.

Lemma run_decrement_and_check_reference_count :
  decrement_and_check_reference_count t q =
    Ok (m_ref_count nd - 1 =? 0, upd q t (node_release nd),
        [EvDecrementRefCount t (m_ref_count nd - 1 =? 0)]).
Proof. unfold decrement_and_check_reference_count. run_node Hnd. Qed.

Lemma run_dependence_count ds :
  m_kind nd = AggregateTask ds →
  dependence_count t q = Ok (length ds, q, []).
Proof. intros Hk. unfold dependence_count. run_node Hnd. Qed.

Lemma run_get_dependence ds i d :
  m_kind nd = AggregateTask ds → ds !! i = Some d →
  get_dependence t i q = Ok (d, q, []).
Proof.
  intros Hk Hd. unfold get_dependence. run_node Hnd. rewrite Hd. reflexivity.
Qed.

Lemma run_clear_dependence ds i :
  m_kind nd = AggregateTask ds →
  clear_dependence t i q =
    Ok (tt, upd q t (node_clear_slot i nd), [EvClearSlot t i]).
Proof.
  intros Hk. unfold clear_dependence, node_clear_slot. run_node Hnd.
Qed.

End NodeOperations.

(** ** Invariants of the pool *)

Lemma tasks_upd_eq q t nd :
  (t < length (tasks q))%nat → tasks (upd q t nd) !! t = Some nd.
Proof. intros H. simpl. apply list_lookup_insert_eq, H. Qed.

Lemma tasks_upd_ne q t p nd :
  t ≠ p → tasks (upd q t nd) !! p = tasks q !! p.
Proof. intros H. simpl. apply list_lookup_insert_ne, H. Qed.

Lemma length_tasks_upd q t nd : length (tasks (upd q t nd)) = length (tasks q).
Proof. simpl. apply length_insert. Qed.

Lemma shape_upd q t nd nd' :
  tasks q !! t = Some nd → node_shape nd' = node_shape nd →
  shape (upd q t nd') = shape q.
Proof.
  intros Hnd Hk. unfold shape. simpl. rewrite list_fmap_insert, Hk.
  apply list_insert_id. rewrite list_lookup_fmap, Hnd. reflexivity.
Qed.

Lemma shape_lookup q t b :
  shape q !! t = Some b ↔ ∃ nd, tasks q !! t = Some nd ∧ node_shape nd = b.
Proof.
  unfold shape. rewrite list_lookup_fmap. destruct (tasks q !! t) as [nd|]; simpl.
  - split.
    + intros [= <-]. eauto.
    + intros (nd' & [= <-] & <-). reflexivity.
  - split; [discriminate | intros (? & ? & _); discriminate].
Qed.

Lemma length_shape q : length (shape q) = length (tasks q).
Proof. unfold shape. apply length_fmap. Qed.

Lemma open_count_pool_insert pool t nd nd' :
  pool !! t = Some nd →
  (open_count_pool (<[t := nd']> pool) + open_weight nd =
   open_count_pool pool + open_weight nd')%nat.
Proof.
  revert t. induction pool as [|x pool IH]; intros [|t] H; simpl in *; try discriminate.
  - injection H as ->. lia.
  - specialize (IH t H). lia.
Qed.

Lemma open_count_upd q t nd nd' :
  tasks q !! t = Some nd →
  (open_count (upd q t nd') + open_weight nd = open_count q + open_weight nd')%nat.
Proof. apply open_count_pool_insert. Qed.

Lemma wf_upd q t nd' :
  wf q → wf_node (length (tasks q)) nd' → wf (upd q t nd').
Proof.
  intros Hwf Hnd. unfold wf. rewrite length_tasks_upd. simpl.
  destruct (decide (t < length (tasks q))%nat) as [Hlt|Hge].
  - apply Forall_insert; assumption.
  - rewrite list_insert_ge by lia. exact Hwf.
Qed.

Lemma wf_lookup q t nd :
  wf q → tasks q !! t = Some nd → wf_node (length (tasks q)) nd.
Proof. intros Hwf H. eapply Forall_lookup_1; eassumption. Qed.

Lemma descends_refl q : wf q → descends q q.
Proof. intros H. repeat split; [exact H | lia]. Qed.

Lemma descends_trans q1 q2 q3 : descends q1 q2 → descends q2 q3 → descends q1 q3.
Proof.
  intros (Hs1 & _ & Ho1) (Hs2 & Hw2 & Ho2).
  repeat split; [congruence | exact Hw2 | lia].
Qed.

Lemma descends_length q q' : descends q q' → length (tasks q') = length (tasks q).
Proof. intros (Hs & _). rewrite <- !length_shape. congruence. Qed.

Lemma descends_upd q t nd nd' :
  wf q → tasks q !! t = Some nd →
  node_shape nd' = node_shape nd →
  wf_node (length (tasks q)) nd' →
  (open_weight nd' ≤ open_weight nd)%nat →
  descends q (upd q t nd').
Proof.
  intros Hwf Hnd Hk Hn Hw. repeat split.
  - eapply shape_upd; eassumption.
  - apply wf_upd; assumption.
  - pose proof (open_count_upd q t nd nd' Hnd). lia.
Qed.

(** The node functions keep a node well formed and of its kind. *)

Lemma wf_node_clear_predecessor n nd :
  wf_node n nd → wf_node n (node_clear_predecessor nd).
Proof.
  unfold wf_node, node_clear_predecessor. intros [Hq Hk].
  destruct (m_kind nd) eqn:E; simpl; rewrite ?E; auto.
Qed.

Lemma wf_node_set_respawn n flag nd :
  wf_node n nd → wf_node n (node_set_respawn flag nd).
Proof.
  unfold wf_node, node_set_respawn. intros [Hq Hk].
  destruct (m_kind nd) eqn:E; simpl; rewrite ?E; auto.
Qed.

Lemma wf_node_add_waiter n w nd :
  valid_id n w → wf_node n nd → wf_node n (node_add_waiter w nd).
Proof.
  unfold wf_node, node_add_waiter. intros Hw [Hq Hk].
  destruct (m_wait_queue nd) eqn:E; simpl; rewrite ?E; simpl in *; auto.
Qed.

Lemma wf_node_close n nd : wf_node n nd → wf_node n (node_close nd).
Proof. unfold wf_node, node_close. intros [Hq Hk]. simpl. auto. Qed.

Lemma wf_node_release n nd : wf_node n nd → wf_node n (node_release nd).
Proof. unfold wf_node, node_release. intros [Hq Hk]. simpl. auto. Qed.

Lemma wf_node_clear_slot n i nd : wf_node n nd → wf_node n (node_clear_slot i nd).
Proof.
  unfold wf_node, node_clear_slot. intros [Hq Hk].
  destruct (m_kind nd) eqn:E; simpl; rewrite ?E; auto.
  split; [exact Hq|].
  destruct (decide (i < length m_dependences)%nat).
  - apply Forall_insert; [exact Hk | exact I].
  - rewrite list_insert_ge by lia. exact Hk.
Qed.

Lemma shape_clear_predecessor nd :
  node_shape (node_clear_predecessor nd) = node_shape nd.
Proof. unfold node_shape, node_clear_predecessor. destruct (m_kind nd) eqn:E; simpl; rewrite ?E; reflexivity. Qed.

Lemma shape_set_respawn flag nd :
  node_shape (node_set_respawn flag nd) = node_shape nd.
Proof. unfold node_shape, node_set_respawn. destruct (m_kind nd) eqn:E; simpl; rewrite ?E; reflexivity. Qed.

Lemma shape_add_waiter w nd :
  node_shape (node_add_waiter w nd) = node_shape nd.
Proof. unfold node_shape, node_add_waiter. destruct (m_wait_queue nd); reflexivity. Qed.

Lemma shape_clear_slot i nd :
  node_shape (node_clear_slot i nd) = node_shape nd.
Proof.
  unfold node_shape, node_clear_slot.
  destruct (m_kind nd) eqn:E; simpl; rewrite ?E, ?length_insert; reflexivity.
Qed.

Lemma open_weight_clear_predecessor nd :
  open_weight (node_clear_predecessor nd) = open_weight nd.
Proof. unfold node_clear_predecessor. destruct (m_kind nd); reflexivity. Qed.

Lemma open_weight_set_respawn flag nd :
  open_weight (node_set_respawn flag nd) = open_weight nd.
Proof. unfold node_set_respawn. destruct (m_kind nd); reflexivity. Qed.

Lemma open_weight_add_waiter w nd :
  open_weight (node_add_waiter w nd) = open_weight nd.
Proof.
  unfold node_add_waiter, open_weight. destruct (m_wait_queue nd) eqn:E; simpl; rewrite ?E; reflexivity.
Qed.

Lemma open_weight_clear_slot i nd :
  open_weight (node_clear_slot i nd) = open_weight nd.
Proof. unfold node_clear_slot. destruct (m_kind nd); reflexivity. Qed.

Lemma open_weight_close nd :
  (open_weight (node_close nd) + (if queue_is_open (m_wait_queue nd) then 1 else 0) =
   open_weight nd)%nat.
Proof. unfold open_weight, node_close. simpl. destruct (queue_is_open _); reflexivity. Qed.

(** ** Properties of logs *)

Lemma replay_ready_app c tr1 tr2 :
  replay_ready c (tr1 ++ tr2) = replay_ready (replay_ready c tr1) tr2.
Proof.
  revert c. induction tr1 as [|e tr1 IH]; intros c; simpl; [reflexivity|].
  destruct e; apply IH.
Qed.

Lemma pushed_app tr1 tr2 : pushed (tr1 ++ tr2) = pushed tr1 ++ pushed tr2.
Proof.
  induction tr1 as [|e tr1 IH]; simpl; [reflexivity|].
  destruct e; simpl; rewrite ?IH; reflexivity.
Qed.

Lemma count_events_app f tr1 tr2 :
  count_events f (tr1 ++ tr2) = (count_events f tr1 + count_events f tr2)%nat.
Proof. induction tr1 as [|e tr1 IH]; simpl; [reflexivity | rewrite IH; lia]. Qed.

Lemma cleared_slots_app t tr1 tr2 :
  cleared_slots t (tr1 ++ tr2) = cleared_slots t tr1 ++ cleared_slots t tr2.
Proof.
  induction tr1 as [|e tr1 IH]; simpl; [reflexivity|].
  destruct e; simpl; rewrite ?IH; try reflexivity.
  destruct (bool_decide _); reflexivity.
Qed.

Lemma appended_app tr1 tr2 : appended (tr1 ++ tr2) = appended tr1 ++ appended tr2.
Proof.
  induction tr1 as [|e tr1 IH]; simpl; [reflexivity|].
  destruct e as [| |p w [|]| | | | | | | |]; simpl; rewrite ?IH; reflexivity.
Qed.

Lemma wakes_only_app sh tr1 tr2 :
  wakes_only sh tr1 → wakes_only sh tr2 → wakes_only sh (tr1 ++ tr2).
Proof.
  intros H1 H2. induction H1; simpl.
  - exact H2.
  - apply wakes_push; assumption.
  - apply wakes_silent; assumption.
Qed.

Lemma wakes_only_silent sh tr :
  Forall (λ e, silent e = true) tr → wakes_only sh tr.
Proof. induction 1; [apply wakes_nil | apply wakes_silent; assumption]. Qed.

(** Such a log holds no decrement, as many increments as pushes, and
    pushes runnable tasks only. *)
Lemma wakes_only_count sh tr :
  wakes_only sh tr →
  count_events is_decrement tr = 0%nat ∧
  count_events is_increment tr = count_events is_push tr ∧
  Forall (λ w, sh !! w = Some None) (pushed tr).
Proof.
  induction 1 as [|w tr Hw _ (IHd & IHi & IHp)|e tr He _ (IHd & IHi & IHp)]; simpl.
  - repeat split; constructor.
  - repeat split; [exact IHd | lia | constructor; assumption].
  - unfold silent in He.
    destruct e; simpl in *; try discriminate; repeat split; assumption.
Qed.

Lemma replay_ready_no_push sh tr c :
  wakes_only sh tr → pushed tr = [] → replay_ready c tr = c.
Proof.
  intros H. revert c. induction H as [|w tr Hw _ IH|e tr He _ IH]; intros c Hp.
  - reflexivity.
  - discriminate Hp.
  - destruct e; simpl in *; try discriminate; apply IH; exact Hp.
Qed.

(** ** The effect every scheduling operation has *)

Lemma sound_refl q : wf q → sound q q [].
Proof.
  intros H. split; [apply descends_refl, H|].
  split; [apply wakes_nil|]. simpl. rewrite app_nil_r. auto.
Qed.

Lemma sound_trans q q1 q2 tr1 tr2 :
  sound q q1 tr1 → sound q1 q2 tr2 → sound q q2 (tr1 ++ tr2).
Proof.
  intros (Hd1 & Hw1 & Hc1 & Hr1) (Hd2 & Hw2 & Hc2 & Hr2).
  split; [eapply descends_trans; eassumption|].
  split.
  { apply wakes_only_app; [exact Hw1|].
    destruct Hd1 as (Hs & _). rewrite <- Hs. exact Hw2. }
  split.
  - rewrite replay_ready_app, <- Hc1. exact Hc2.
  - rewrite pushed_app, app_assoc, <- Hr1. exact Hr2.
Qed.

Lemma pushed_silent tr : Forall (λ e, silent e = true) tr → pushed tr = [].
Proof.
  induction 1 as [|e tr He _ IH]; [reflexivity|].
  destruct e; simpl; try exact IH; discriminate He.
Qed.

Lemma replay_ready_silent c tr :
  Forall (λ e, silent e = true) tr → replay_ready c tr = c.
Proof.
  induction 1 as [|e tr He _ IH]; [reflexivity|].
  destruct e; simpl; try exact IH; discriminate He.
Qed.

Lemma sound_upd q t nd nd' tr :
  wf q → tasks q !! t = Some nd →
  node_shape nd' = node_shape nd →
  wf_node (length (tasks q)) nd' →
  (open_weight nd' ≤ open_weight nd)%nat →
  Forall (λ e, silent e = true) tr →
  sound q (upd q t nd') tr.
Proof.
  intros Hwf Hnd Hk Hn Hw Htr. split.
  { eapply descends_upd; eassumption. }
  split; [apply wakes_only_silent, Htr|].
  simpl. rewrite replay_ready_silent, pushed_silent, app_nil_r by exact Htr. auto.
Qed.

Lemma run_increment_push q t :
  (_increment_ready_count;; push t) q =
    Ok (tt, enqueue q t, [EvIncrementReadyCount; EvPush t]).
Proof. reflexivity. Qed.

Lemma sound_enqueue q t :
  wf q → shape q !! t = Some None →
  sound q (enqueue q t) [EvIncrementReadyCount; EvPush t].
Proof.
  intros Hwf Ht. split.
  { repeat split; [exact Hwf | reflexivity]. }
  split; [apply wakes_push; [exact Ht | apply wakes_nil]|].
  split; reflexivity.
Qed.

(** ** Stepping through a computation *)

Lemma wp_exact {A} (m : M A) q a q' tr (Q : A → TaskQueue → trace → Prop) :
  m q = Ok (a, q', tr) → Q a q' tr → wp m q Q.
Proof. intros Hm HQ. exists a, q', tr. auto. Qed.

Lemma descends_step q q' t nd nd' :
  descends q q' → tasks q' !! t = Some nd →
  node_shape nd' = node_shape nd →
  wf_node (length (tasks q)) nd' →
  (open_weight nd' ≤ open_weight nd)%nat →
  descends q (upd q' t nd').
Proof.
  intros Hd Hnd Hs Hn Hw. eapply descends_trans; [exact Hd|].
  apply descends_upd with nd; try assumption.
  - apply Hd.
  - rewrite (descends_length _ _ Hd). exact Hn.
Qed.

Lemma descends_enqueue q q' t : descends q q' → descends q (enqueue q' t).
Proof. intros (Hs & Hw & Ho). repeat split; assumption. Qed.

Lemma valid_id_lookup q t nd :
  tasks q !! t = Some nd → valid_id (length (tasks q)) t.
Proof. apply lookup_lt_Some. Qed.

Lemma shape_release nd : node_shape (node_release nd) = node_shape nd.
Proof. reflexivity. Qed.

Lemma shape_close nd : node_shape (node_close nd) = node_shape nd.
Proof. reflexivity. Qed.

Lemma open_weight_release nd : open_weight (node_release nd) = open_weight nd.
Proof. reflexivity. Qed.

Lemma open_weight_close_le nd : (open_weight (node_close nd) ≤ open_weight nd)%nat.
Proof. pose proof (open_weight_close nd). lia. Qed.

Ltac solve_len :=
  rewrite ?length_tasks_upd; eapply lookup_lt_Some; eassumption.

Ltac solve_lookup :=
  repeat first
    [ rewrite tasks_upd_eq by solve_len
    | rewrite tasks_upd_ne by congruence ];
  first [reflexivity | eassumption].

Create HintDb node_db.
#[global] Hint Resolve wf_node_clear_predecessor wf_node_set_respawn
  wf_node_add_waiter wf_node_close wf_node_release wf_node_clear_slot
  wf_lookup valid_id_lookup : node_db.

Create Rewrite HintDb node_rw.
#[global] Hint Rewrite shape_clear_predecessor shape_set_respawn
  shape_add_waiter shape_clear_slot shape_release shape_close
  open_weight_clear_predecessor open_weight_set_respawn
  open_weight_add_waiter open_weight_clear_slot open_weight_release : node_rw.

Ltac solve_node :=
  first
    [ solve [eauto 10 with node_db]
    | solve [autorewrite with node_rw;
             first [reflexivity | apply open_weight_close_le]] ].

Lemma release_log_silent p rc : Forall (λ e, silent e = true) (release_log p rc).
Proof. unfold release_log. destruct (rc - 1 =? 0); repeat constructor. Qed.

Lemma m_ref_count_add_waiter w nd :
  m_ref_count (node_add_waiter w nd) = m_ref_count nd.
Proof. unfold node_add_waiter. destruct (m_wait_queue nd); reflexivity. Qed.

Lemma m_kind_add_waiter w nd : m_kind (node_add_waiter w nd) = m_kind nd.
Proof. unfold node_add_waiter. destruct (m_wait_queue nd); reflexivity. Qed.

Ltac wp_last :=
  first [eapply wp_exact; [apply run_increment_push|] | apply wp_ret].

Ltac wp_pure := eapply wp_exact; [reflexivity|]; cbv beta iota.

Lemma m_ref_count_set_respawn flag nd :
  m_ref_count (node_set_respawn flag nd) = m_ref_count nd.
Proof. unfold node_set_respawn. destruct (m_kind nd); reflexivity. Qed.

Lemma m_wait_queue_set_respawn flag nd :
  m_wait_queue (node_set_respawn flag nd) = m_wait_queue nd.
Proof. unfold node_set_respawn. destruct (m_kind nd); reflexivity. Qed.

Lemma m_ref_count_clear_predecessor nd :
  m_ref_count (node_clear_predecessor nd) = m_ref_count nd.
Proof. unfold node_clear_predecessor. destruct (m_kind nd); reflexivity. Qed.

Lemma m_wait_queue_clear_predecessor nd :
  m_wait_queue (node_clear_predecessor nd) = m_wait_queue nd.
Proof. unfold node_clear_predecessor. destruct (m_kind nd); reflexivity. Qed.

(** Closes the goal left once [_schedule_runnable_to_queue] has been run
    to its end on an explicit pool. *)
Ltac finish_schedule Hd Hk :=
  split; [reflexivity|];
  split; [try apply descends_enqueue;
          repeat (eapply descends_step; [|solve_lookup|solve_node..]);
          exact Hd|];
  split; [reflexivity|];
  split; [simpl; rewrite ?app_nil_r; reflexivity|];
  eexists; split; [change (tasks (enqueue ?x _)) with (tasks x); solve_lookup|];
  split; [unfold node_set_respawn; simpl; rewrite Hk; reflexivity|];
  intros Hpt;
  first [congruence
        | rewrite m_ref_count_set_respawn, m_wait_queue_set_respawn,
            m_ref_count_clear_predecessor, m_wait_queue_clear_predecessor;
          split; reflexivity].

Section ScheduleRunnable.
Context (q : TaskQueue) (t : task_id) (nd : TaskNode).
Hypothesis Hwf : wf q.
Hypothesis Hnd : tasks q !! t = Some nd.

(** No predecessor: the task is ready at once. *)
Lemma schedule_runnable_no_predecessor r :
  m_kind nd = RunnableTask None r →
  _schedule_runnable_to_queue t q =
    Ok (tt, enqueue (upd q t (node_set_respawn false nd)) t,
        [EvSetRespawnFlag t false; EvIncrementReadyCount; EvPush t]).
Proof.
  intros Hk. unfold _schedule_runnable_to_queue.
  rewrite (bind_Ok _ _ _ _ _ _ (run_has_predecessor q t nd Hnd _ _ Hk)).
  cbv beta iota.
  rewrite (bind_Ok _ _ q _ _ [] eq_refl).
  rewrite (bind_Ok _ _ _ _ _ _ (run_set_respawn_flag q t nd Hnd _ _ false Hk)).
  reflexivity.
Qed.

(** With a predecessor [p]. *)
Lemma schedule_runnable_predecessor p r np :
  m_kind nd = RunnableTask (Some p) r →
  tasks q !! p = Some np →
  wp (_schedule_runnable_to_queue t) q (λ _ q' tr,
    tr = schedule_log t p (queue_is_open (m_wait_queue np)) (m_ref_count np) r ∧
    descends q q' ∧
    m_ready_count q' =
      (if queue_is_open (m_wait_queue np) then m_ready_count q
       else wrap32 (m_ready_count q + 1)) ∧
    ready_queue q' =
      ready_queue q ++ (if queue_is_open (m_wait_queue np) then [] else [t]) ∧
    ∃ nd', tasks q' !! t = Some nd' ∧
      m_kind nd' = RunnableTask None false ∧
      (p ≠ t → m_ref_count nd' = m_ref_count nd ∧ m_wait_queue nd' = m_wait_queue nd)).
Proof.
  intros Hk Hnp.
  assert (Hk1 : m_kind (node_clear_predecessor nd) = RunnableTask None r).
  { unfold node_clear_predecessor. rewrite Hk. reflexivity. }
  pose proof (descends_refl q Hwf) as Hd0.
  unfold _schedule_runnable_to_queue.
  apply wp_bind. eapply wp_exact; [eapply run_has_predecessor; eassumption|].
  cbv beta iota.
  apply wp_bind. apply wp_bind.
  eapply wp_exact; [eapply run_get_predecessor; eassumption|]. cbv beta.
  apply wp_bind. eapply wp_exact; [eapply run_clear_predecessor; eassumption|].
  cbv beta. apply wp_bind. wp_pure.
  destruct (decide (p = t)) as [->|Hne].
  - (* the task is its own predecessor *)
    assert (np = nd) as -> by congruence.
    apply wp_bind. eapply wp_exact; [eapply run_try_add_waiting; solve_lookup|].
    cbv beta.
    assert (Hk2 : m_kind (node_add_waiter t (node_clear_predecessor nd))
                  = RunnableTask None r).
    { rewrite m_kind_add_waiter. exact Hk1. }
    assert (Ho : queue_is_open (m_wait_queue (node_clear_predecessor nd))
                 = queue_is_open (m_wait_queue nd)).
    { unfold node_clear_predecessor. rewrite Hk. reflexivity. }
    assert (Hrc : m_ref_count (node_add_waiter t (node_clear_predecessor nd))
                  = m_ref_count nd).
    { rewrite m_ref_count_add_waiter. unfold node_clear_predecessor.
      rewrite Hk. reflexivity. }
    rewrite Ho.
    apply wp_bind.
    eapply wp_exact; [eapply run_get_respawn_flag; [solve_lookup|exact Hk2]|].
    cbv beta. unfold schedule_log, release_log.
    destruct r; cbv beta iota.
    + apply wp_bind. apply wp_bind.
      eapply wp_exact;
        [eapply run_decrement_and_check_reference_count; solve_lookup|].
      rewrite Hrc.
      destruct (m_ref_count nd - 1 =? 0); cbv beta iota;
        wp_pure; apply wp_ret;
        (apply wp_bind; eapply wp_exact;
           [eapply run_set_respawn_flag; [solve_lookup|exact Hk2]|]);
        destruct (queue_is_open (m_wait_queue nd)); cbv beta iota;
        wp_last; finish_schedule Hd0 Hk2.
    + apply wp_bind. apply wp_ret. apply wp_ret.
      apply wp_bind; eapply wp_exact;
        [eapply run_set_respawn_flag; [solve_lookup|exact Hk2]|].
      destruct (queue_is_open (m_wait_queue nd)); cbv beta iota;
        wp_last; finish_schedule Hd0 Hk2.
  - (* a predecessor other than the task *)
    apply wp_bind. eapply wp_exact; [eapply run_try_add_waiting; solve_lookup|].
    cbv beta. apply wp_bind.
    eapply wp_exact; [eapply run_get_respawn_flag; [solve_lookup|exact Hk1]|].
    cbv beta. unfold schedule_log, release_log.
    destruct r; cbv beta iota.
    + apply wp_bind. apply wp_bind.
      eapply wp_exact;
        [eapply run_decrement_and_check_reference_count; solve_lookup|].
      rewrite m_ref_count_add_waiter.
      destruct (m_ref_count np - 1 =? 0); cbv beta iota;
        wp_pure; apply wp_ret;
        (apply wp_bind; eapply wp_exact;
           [eapply run_set_respawn_flag; [solve_lookup|exact Hk1]|]);
        destruct (queue_is_open (m_wait_queue np)); cbv beta iota;
        wp_last; finish_schedule Hd0 Hk1.
    + apply wp_bind. apply wp_ret. apply wp_ret.
      apply wp_bind; eapply wp_exact;
        [eapply run_set_respawn_flag; [solve_lookup|exact Hk1]|].
      destruct (queue_is_open (m_wait_queue np)); cbv beta iota;
        wp_last; finish_schedule Hd0 Hk1.
Qed.

End ScheduleRunnable.

(** ** The scan of an aggregate's predecessor array *)

Lemma opens_upd q t nd nd' :
  tasks q !! t = Some nd → open_weight nd' = open_weight nd →
  opens (upd q t nd') = opens q.
Proof.
  intros Hnd Hk. unfold opens. simpl. rewrite list_fmap_insert, Hk.
  apply list_insert_id. rewrite list_lookup_fmap, Hnd. reflexivity.
Qed.

Lemma pending_opens q q' d : opens q' = opens q → pending q' d = pending q d.
Proof.
  intros H. destruct d as [p|]; [|reflexivity]. simpl.
  assert (Hp : opens q' !! p = opens q !! p) by (rewrite H; reflexivity).
  unfold opens in Hp. rewrite !list_lookup_fmap in Hp.
  destruct (tasks q' !! p) as [n'|], (tasks q !! p) as [n|];
    simpl in Hp; try discriminate Hp; [|reflexivity].
  injection Hp as Hp. unfold open_weight in Hp.
  destruct (queue_is_open (m_wait_queue n')), (queue_is_open (m_wait_queue n));
    first [reflexivity | discriminate Hp].
Qed.

Lemma pending_lookup q p np :
  tasks q !! p = Some np → pending q (Some p) = queue_is_open (m_wait_queue np).
Proof. intros H. simpl. rewrite H. reflexivity. Qed.

Lemma sound_of_silent q q' tr :
  descends q q' → Forall (λ e, silent e = true) tr →
  m_ready_count q' = m_ready_count q → ready_queue q' = ready_queue q →
  sound q q' tr.
Proof.
  intros Hd Htr Hc Hr. split; [exact Hd|].
  split; [apply wakes_only_silent, Htr|].
  rewrite replay_ready_silent, pushed_silent, app_nil_r by exact Htr. auto.
Qed.

Lemma m_kind_clear_slot i nd ds :
  m_kind nd = AggregateTask ds →
  m_kind (node_clear_slot i nd) = AggregateTask (<[i := None]> ds).
Proof. intros H. unfold node_clear_slot. rewrite H. reflexivity. Qed.

Lemma m_ref_count_clear_slot i nd :
  m_ref_count (node_clear_slot i nd) = m_ref_count nd.
Proof. unfold node_clear_slot. destruct (m_kind nd); reflexivity. Qed.

Lemma m_wait_queue_clear_slot i nd :
  m_wait_queue (node_clear_slot i nd) = m_wait_queue nd.
Proof. unfold node_clear_slot. destruct (m_kind nd); reflexivity. Qed.

Section ScanSlot.
Context (q : TaskQueue) (t : task_id) (nd : TaskNode) (ds : list (option task_id)).
Hypothesis Hwf : wf q.
Hypothesis Hnd : tasks q !! t = Some nd.
Hypothesis Hk : m_kind nd = AggregateTask ds.

(** A slot already null: it is skipped. *)
Lemma scan_slot_null i :
  ds !! i = Some None →
  wp (scan_slot t i) q (λ found q' tr,
    found = false ∧ tr = [EvClearSlot t i] ∧ slot_scanned q t ds i None q' tr).
Proof.
  intros Hi. unfold scan_slot.
  apply wp_bind. eapply wp_exact; [eapply run_get_dependence; eassumption|].
  cbv beta. apply wp_bind.
  eapply wp_exact; [eapply run_clear_dependence; eassumption|].
  cbv beta iota. apply wp_ret.
  split; [reflexivity|]. split; [reflexivity|]. split; [reflexivity|].
  split; [eapply descends_step; [apply descends_refl, Hwf|solve_lookup|solve_node..]|].
  split; [eapply opens_upd; [eassumption|apply open_weight_clear_slot]|].
  split; [reflexivity|]. split; [reflexivity|].
  split; [repeat constructor|].
  split; [simpl; rewrite bool_decide_eq_true_2 by reflexivity; reflexivity|].
  split.
  { intros x ws. simpl. rewrite !not_elem_of_cons. split; [discriminate|apply not_elem_of_nil]. }
  eexists. split; [solve_lookup|]. apply m_kind_clear_slot, Hk.
Qed.

(** A slot that holds [p]: the append is attempted and the reference
    count the slot held on [p] is released, whatever the outcome. *)
Lemma scan_slot_predecessor i p np :
  ds !! i = Some (Some p) →
  tasks q !! p = Some np →
  wp (scan_slot t i) q (λ found q' tr,
    found = queue_is_open (m_wait_queue np) ∧
    tr = [EvClearSlot t i; EvTryAddWaiting p t (queue_is_open (m_wait_queue np))]
         ++ release_log p (m_ref_count np) ∧
    slot_scanned q t ds i (Some p) q' tr ∧
    ∃ np', tasks q' !! p = Some np' ∧
      m_ref_count np' = m_ref_count np - 1 ∧
      m_wait_queue np' = m_wait_queue (node_add_waiter t np)).
Proof.
  intros Hi Hnp. unfold scan_slot.
  pose proof (descends_refl q Hwf) as Hd0.
  pose proof (pending_lookup q p np Hnp) as Hpend.
  assert (Hk1 := m_kind_clear_slot i nd ds Hk).
  apply wp_bind. eapply wp_exact; [eapply run_get_dependence; eassumption|].
  cbv beta. apply wp_bind.
  eapply wp_exact; [eapply run_clear_dependence; eassumption|].
  cbv beta iota.
  destruct (decide (p = t)) as [->|Hne].
  - assert (np = nd) as -> by congruence.
    apply wp_bind. eapply wp_exact; [eapply run_try_add_waiting; solve_lookup|].
    cbv beta. apply wp_bind.
    eapply wp_exact; [eapply run_decrement_and_check_reference_count; solve_lookup|].
    cbv beta. rewrite m_ref_count_add_waiter, m_ref_count_clear_slot,
      m_wait_queue_clear_slot.
    unfold release_log.
    destruct (m_ref_count nd - 1 =? 0) eqn:Hz; cbv beta iota;
      apply wp_bind; wp_pure; apply wp_ret;
      (split; [reflexivity|]); (split; [reflexivity|]);
      (split; [|eexists; split; [solve_lookup|];
                split; [simpl; rewrite m_ref_count_add_waiter, m_ref_count_clear_slot;
                        reflexivity|];
                unfold node_add_waiter; simpl;
                rewrite m_wait_queue_clear_slot;
                destruct (m_wait_queue nd); simpl;
                rewrite ?m_wait_queue_clear_slot; reflexivity]);
      (split; [rewrite Hpend; simpl;
               destruct (queue_is_open (m_wait_queue _)); reflexivity|]);
      (split; [repeat (eapply descends_step; [|solve_lookup|solve_node..]); exact Hd0|]);
      (split; [repeat (erewrite opens_upd; [|solve_lookup|solve_node]); reflexivity|]);
      (split; [reflexivity|]); (split; [reflexivity|]);
      (split; [repeat constructor|]);
      (split; [simpl; rewrite bool_decide_eq_true_2 by reflexivity; reflexivity|]);
      (split; [intros x ws; simpl; rewrite !not_elem_of_cons;
               repeat split; try discriminate; apply not_elem_of_nil|]);
      eexists; (split; [solve_lookup|]);
      simpl; rewrite m_kind_add_waiter; exact Hk1.
  - apply wp_bind. eapply wp_exact; [eapply run_try_add_waiting; solve_lookup|].
    cbv beta. apply wp_bind.
    eapply wp_exact; [eapply run_decrement_and_check_reference_count; solve_lookup|].
    cbv beta. rewrite m_ref_count_add_waiter.
    unfold release_log.
    destruct (m_ref_count np - 1 =? 0) eqn:Hz; cbv beta iota;
      apply wp_bind; wp_pure; apply wp_ret;
      (split; [reflexivity|]); (split; [reflexivity|]);
      (split; [|eexists; split; [solve_lookup|];
                split; [simpl; rewrite m_ref_count_add_waiter; reflexivity|];
                reflexivity]);
      (split; [rewrite Hpend; simpl;
               destruct (queue_is_open (m_wait_queue _)); reflexivity|]);
      (split; [repeat (eapply descends_step; [|solve_lookup|solve_node..]); exact Hd0|]);
      (split; [repeat (erewrite opens_upd; [|solve_lookup|solve_node]); reflexivity|]);
      (split; [reflexivity|]); (split; [reflexivity|]);
      (split; [repeat constructor|]);
      (split; [simpl; rewrite bool_decide_eq_true_2 by reflexivity; reflexivity|]);
      (split; [intros x ws; simpl; rewrite !not_elem_of_cons;
               repeat split; try discriminate; apply not_elem_of_nil|]);
      eexists; (split; [solve_lookup|]); exact Hk1.
Qed.

End ScanSlot.

Lemma wf_slot_valid q t nd ds i p :
  wf q → tasks q !! t = Some nd → m_kind nd = AggregateTask ds →
  ds !! i = Some (Some p) → ∃ np, tasks q !! p = Some np.
Proof.
  intros Hwf Hnd Hk Hi.
  destruct (wf_lookup q t nd Hwf Hnd) as [_ Hds]. rewrite Hk in Hds.
  pose proof (Forall_lookup_1 _ _ _ _ Hds Hi) as Hp. simpl in Hp.
  apply lookup_lt_is_Some_2 in Hp. destruct Hp as [np Hnp]. eauto.
Qed.

Lemma rev_seq_step j i : (j ≤ i)%nat → rev (seq j (S i - j)) = i :: rev (seq j (i - j)).
Proof.
  intros H. replace (S i - j)%nat with (S (i - j)) by lia.
  rewrite seq_S, rev_app_distr. simpl. f_equal. lia.
Qed.

Lemma scan_dependences_spec t k :
  ∀ q nd ds,
    wf q → tasks q !! t = Some nd → m_kind nd = AggregateTask ds →
    (k ≤ length ds)%nat →
    wp (scan_dependences t k) q (λ found q' tr,
      ∃ j, (j ≤ k)%nat ∧ scanned q t ds j k found q' tr).
Proof.
  induction k as [|i IH]; intros q nd ds Hwf Hnd Hk Hlen.
  - apply wp_ret. exists 0%nat. split; [lia|].
    split; [apply descends_refl, Hwf|]. split; [reflexivity|].
    split; [reflexivity|]. split; [reflexivity|]. split; [constructor|].
    split; [intros; apply not_elem_of_nil|]. split; [reflexivity|].
    split; [intros; lia|].
    split; [split; [reflexivity|split; [reflexivity|intros; lia]]|].
    exists nd, ds. repeat split; auto. intros; lia.
  - simpl. apply wp_bind.
    destruct (lookup_lt_is_Some_2 ds i ltac:(lia)) as [d Hd].
    assert (Hstep : wp (scan_slot t i) q (λ found q1 tr1,
              found = pending q d ∧ slot_scanned q t ds i d q1 tr1)).
    { destruct d as [p|].
      - destruct (wf_slot_valid q t nd ds i p Hwf Hnd Hk Hd) as [np Hnp].
        eapply wp_mono; [eapply scan_slot_predecessor; eassumption|].
        cbv beta. intros found q1 tr1 (-> & _ & Hs & _). split; [|exact Hs].
        symmetry. apply pending_lookup, Hnp.
      - eapply wp_mono; [eapply scan_slot_null; eassumption|].
        cbv beta. intros found q1 tr1 (-> & _ & Hs). split; [reflexivity|exact Hs]. }
    eapply wp_mono; [exact Hstep|]. cbv beta.
    intros found q1 tr1
      (-> & Hap1 & Hd1 & Ho1 & Hc1 & Hr1 & Hs1 & Hcl1 & Hnc1 & nd1 & Hnd1 & Hk1).
    destruct (pending q d) eqn:Hpend.
    + (* the append succeeded: the scan stops at slot [i] *)
      apply wp_ret. exists i. split; [lia|]. rewrite app_nil_r.
      split; [exact Hd1|]. split; [exact Ho1|]. split; [exact Hc1|].
      split; [exact Hr1|]. split; [exact Hs1|]. split; [exact Hnc1|].
      split. { rewrite Hcl1. replace (S i - i)%nat with 1%nat by lia. reflexivity. }
      split; [intros; lia|].
      split.
      { split; [lia|]. destruct d as [p|]; [|discriminate Hpend].
        exists p. auto. }
      exists nd1, (<[i := None]> ds). split; [exact Hnd1|]. split; [exact Hk1|].
      split; [apply length_insert|].
      split.
      * intros x Hx. apply list_lookup_insert_ne. lia.
      * intros x Hx. assert (x = i) as -> by lia.
        apply list_lookup_insert_eq. lia.
    + (* the slot was null or its predecessor done: on to slot [i - 1] *)
      assert (Hwf1 : wf q1) by apply Hd1.
      assert (Hlen1 : (i ≤ length (<[i := None]> ds))%nat).
      { rewrite length_insert. lia. }
      eapply wp_mono; [exact (IH q1 nd1 _ Hwf1 Hnd1 Hk1 Hlen1)|]. cbv beta.
      intros found q2 tr2
        (j & Hj & Hd2 & Ho2 & Hc2 & Hr2 & Hs2 & Hnc2 & Hcl2 & Hmid & Hend
           & nd2 & ds2 & Hnd2 & Hk2 & Hl2 & Hout & Hin).
      exists j. split; [lia|].
      split; [eapply descends_trans; eassumption|].
      split; [congruence|]. split; [congruence|]. split; [congruence|].
      split; [apply Forall_app; auto|].
      split. { intros x ws. rewrite not_elem_of_app. auto. }
      split. { rewrite cleared_slots_app, Hcl1, Hcl2. simpl. symmetry. apply rev_seq_step, Hj. }
      split.
      { intros x dx Hx Hdx. destruct (decide (x = i)) as [->|Hxi].
        - congruence.
        - rewrite <- (pending_opens q q1 dx Ho1). apply (Hmid x); [lia|].
          rewrite list_lookup_insert_ne by lia. exact Hdx. }
      split.
      { destruct found.
        - destruct Hend as (Hji & pj & Hdj & Hpj & Hapj). split; [lia|].
          exists pj. rewrite list_lookup_insert_ne in Hdj by lia.
          split; [exact Hdj|].
          split; [rewrite <- (pending_opens q q1 _ Ho1); exact Hpj|].
          rewrite appended_app, Hap1, Hapj. destruct d; reflexivity.
        - destruct Hend as (-> & Hap2 & Hz). split; [reflexivity|].
          split; [rewrite appended_app, Hap1, Hap2; destruct d; reflexivity|].
          intros d0 _ Hd0. destruct (decide (i = 0%nat)) as [->|Hi0].
          + congruence.
          + rewrite <- (pending_opens q q1 d0 Ho1). apply Hz; [lia|].
            rewrite list_lookup_insert_ne by lia. exact Hd0. }
      exists nd2, ds2. split; [exact Hnd2|]. split; [exact Hk2|].
      split; [rewrite Hl2; apply length_insert|].
      split.
      * intros x Hx. rewrite Hout by lia. apply list_lookup_insert_ne. lia.
      * intros x Hx. destruct (decide (x = i)) as [->|Hxi].
        -- rewrite Hout by lia. apply list_lookup_insert_eq. lia.
        -- apply Hin. lia.
Qed.

(** ** Soundness and termination of the wake-up recursion *)

Lemma schedule_log_wakes sh t p o rc r :
  sh !! t = Some None →
  wakes_only sh (schedule_log t p o rc r) ∧
  (∀ c, replay_ready c (schedule_log t p o rc r) = if o then c else wrap32 (c + 1)) ∧
  pushed (schedule_log t p o rc r) = if o then [] else [t].
Proof.
  intros Ht. unfold schedule_log, release_log.
  destruct o, r, (rc - 1 =? 0); simpl;
    (split; [repeat first [apply wakes_nil | apply wakes_push; [exact Ht|]
                          | apply wakes_silent; [reflexivity|]]|]);
    split; reflexivity.
Qed.

Lemma shape_runnable q t :
  shape q !! t = Some None ↔
  ∃ nd p r, tasks q !! t = Some nd ∧ m_kind nd = RunnableTask p r.
Proof.
  rewrite shape_lookup. unfold node_shape. split.
  - intros (nd & Hnd & Hs). destruct (m_kind nd) eqn:E; [eauto 6 | discriminate].
  - intros (nd & p & r & Hnd & Hk). exists nd. rewrite Hk. auto.
Qed.

Lemma shape_aggregate q t n :
  shape q !! t = Some (Some n) ↔
  ∃ nd ds, tasks q !! t = Some nd ∧ m_kind nd = AggregateTask ds ∧ length ds = n.
Proof.
  rewrite shape_lookup. unfold node_shape. split.
  - intros (nd & Hnd & Hs). destruct (m_kind nd) eqn:E; [discriminate|].
    injection Hs as <-. eauto 6.
  - intros (nd & ds & Hnd & Hk & <-). exists nd. rewrite Hk. auto.
Qed.

Lemma wf_predecessor_valid q t nd p r :
  wf q → tasks q !! t = Some nd → m_kind nd = RunnableTask (Some p) r →
  ∃ np, tasks q !! p = Some np.
Proof.
  intros Hwf Hnd Hk.
  destruct (wf_lookup q t nd Hwf Hnd) as [_ Hp]. rewrite Hk in Hp. simpl in Hp.
  apply lookup_lt_is_Some_2 in Hp. destruct Hp as [np Hnp]. eauto.
Qed.

Lemma schedule_runnable_sound q t :
  wf q → shape q !! t = Some None →
  wp (schedule_runnable t) q (λ _ q' tr, sound q q' tr).
Proof.
  intros Hwf Hsh. pose proof Hsh as Hsh'.
  apply shape_runnable in Hsh' as (nd & [p|] & r & Hnd & Hk).
  - destruct (wf_predecessor_valid q t nd p r Hwf Hnd Hk) as [np Hnp].
    eapply wp_mono;
      [exact (schedule_runnable_predecessor q t nd Hwf Hnd p r np Hk Hnp)|].
    cbv beta. intros _ q' tr (-> & Hd & Hc & Hr & _).
    destruct (schedule_log_wakes (shape q) t p (queue_is_open (m_wait_queue np))
                (m_ref_count np) r Hsh) as (Hw & Hrep & Hpush).
    split; [exact Hd|]. split; [exact Hw|]. rewrite Hrep, Hpush. auto.
  - eapply wp_exact;
      [exact (schedule_runnable_no_predecessor q t nd Hnd r Hk)|].
    change [EvSetRespawnFlag t false; EvIncrementReadyCount; EvPush t]
      with ([EvSetRespawnFlag t false] ++ [EvIncrementReadyCount; EvPush t]).
    apply sound_trans with (q1 := upd q t (node_set_respawn false nd)).
    + eapply sound_upd; [exact Hwf|exact Hnd|solve_node..|repeat constructor].
    + apply sound_enqueue.
      * apply wf_upd; [exact Hwf|solve_node].
      * rewrite (shape_upd q t nd (node_set_respawn false nd) Hnd) by solve_node.
        exact Hsh.
Qed.

Section Recursion.
Variable complete : task_id → M unit.
Variable bound : nat.
Hypothesis complete_sound :
  ∀ q t, wf q → (t < length (tasks q))%nat → (open_count q < bound)%nat →
         wp (complete t) q (λ _ q' tr, sound q q' tr).

Lemma schedule_aggregate_with_sound q t n :
  wf q → shape q !! t = Some (Some n) → (open_count q < bound)%nat →
  wp (schedule_aggregate_with complete t) q (λ _ q' tr, sound q q' tr).
Proof.
  intros Hwf Hsh Hb.
  apply shape_aggregate in Hsh as (nd & ds & Hnd & Hk & <-).
  unfold schedule_aggregate_with.
  apply wp_bind. eapply wp_exact; [eapply run_dependence_count; eassumption|].
  cbv beta. apply wp_bind.
  eapply wp_mono;
    [exact (scan_dependences_spec t (length ds) q nd ds Hwf Hnd Hk (le_n _))|].
  cbv beta.
  intros found q1 tr1 (j & _ & Hd & _ & Hc & Hr & Hs & _).
  assert (Hs1 : sound q q1 tr1) by (apply sound_of_silent; assumption).
  destruct found; simpl.
  - apply wp_ret. rewrite app_nil_r. exact Hs1.
  - eapply wp_mono.
    + apply complete_sound.
      * apply Hd.
      * rewrite (descends_length _ _ Hd). eapply lookup_lt_Some, Hnd.
      * destruct Hd as (_ & _ & Ho). lia.
    + cbv beta. intros _ q2 tr2 Hs2. simpl. eapply sound_trans; eassumption.
Qed.

Lemma schedule_waiting_tasks_sound q t :
  wf q → (t < length (tasks q))%nat → (open_count q < bound)%nat →
  wp (_schedule_waiting_tasks_operation complete t) q (λ _ q' tr, sound q q' tr).
Proof.
  intros Hwf Ht Hb. unfold _schedule_waiting_tasks_operation.
  destruct (lookup_lt_is_Some_2 _ _ Ht) as [nd Hnd].
  apply wp_bind. eapply wp_exact; [eapply run_is_runnable; eassumption|].
  cbv beta.
  assert (Hsh : shape q !! t = Some (node_shape nd)).
  { apply shape_lookup. eauto. }
  unfold node_is_runnable, node_shape in *.
  destruct (m_kind nd) eqn:Hk.
  - eapply wp_mono; [apply schedule_runnable_sound; assumption|]. auto.
  - eapply wp_mono; [eapply schedule_aggregate_with_sound; eassumption|]. auto.
Qed.

Lemma visit_waiters_sound ws :
  ∀ q, wf q → Forall (λ w, w < length (tasks q))%nat ws →
       (open_count q < bound)%nat →
       wp (visit_waiters complete ws) q (λ _ q' tr, sound q q' tr).
Proof.
  induction ws as [|w ws IH]; intros q Hwf Hws Hb; simpl.
  - apply wp_ret, sound_refl, Hwf.
  - inversion Hws as [|? ? Hw Hws']; subst. clear Hws. rename Hws' into Hws.
    apply wp_bind.
    eapply wp_mono; [apply schedule_waiting_tasks_sound; assumption|].
    cbv beta. intros _ q1 tr1 Hs1.
    pose proof Hs1 as (Hd1 & _).
    eapply wp_mono.
    + apply IH.
      * apply Hd1.
      * rewrite (descends_length _ _ Hd1). exact Hws.
      * destruct Hd1 as (_ & _ & Ho). lia.
    + cbv beta. intros _ q2 tr2 Hs2. eapply sound_trans; eassumption.
Qed.

End Recursion.

Lemma wf_waiters_valid q t nd :
  wf q → tasks q !! t = Some nd →
  Forall (λ w, w < length (tasks q))%nat (queue_waiters (m_wait_queue nd)).
Proof. intros Hwf Hnd. apply (wf_lookup q t nd Hwf Hnd). Qed.

(** The finalisation of [task]: its log is the drain, then the log of
    the visit of the waiters, then the release of the task's own
    reference count; and the fuel suffices as soon as it exceeds the
    number of open wait queues. *)
Lemma complete_finished_task_spec fuel :
  ∀ q t nd,
    wf q → tasks q !! t = Some nd → (open_count q < fuel)%nat →
    wp (_complete_finished_task fuel t) q (λ _ q' tr,
      sound q q' tr ∧
      ∃ q2 trw nd2,
        visit_waiters (_complete_finished_task (pred fuel))
          (queue_waiters (m_wait_queue nd)) (upd q t (node_close nd)) = Ok (tt, q2, trw) ∧
        sound (upd q t (node_close nd)) q2 trw ∧
        tasks q2 !! t = Some nd2 ∧
        q' = upd q2 t (node_release nd2) ∧
        tr = [EvConsumeWaitQueue t (queue_waiters (m_wait_queue nd))] ++ trw ++
             release_log t (m_ref_count nd2)).
Proof.
  induction fuel as [|fuel IH]; intros q t nd Hwf Hnd Hfuel; [lia|].
  simpl.
  assert (Hs0 : sound q (upd q t (node_close nd))
                  [EvConsumeWaitQueue t (queue_waiters (m_wait_queue nd))]).
  { eapply sound_upd; [exact Hwf|exact Hnd|solve_node..|repeat constructor]. }
  pose proof Hs0 as (Hd0 & _).
  assert (Hvisit : wp (visit_waiters (_complete_finished_task fuel)
                         (queue_waiters (m_wait_queue nd)))
                     (upd q t (node_close nd))
                     (λ _ q2 trw, sound (upd q t (node_close nd)) q2 trw)).
  { destruct (m_wait_queue nd) as [ws|] eqn:Hq; simpl.
    - apply visit_waiters_sound with (bound := fuel).
      + intros q1 t1 Hwf1 Ht1 Hb1.
        destruct (lookup_lt_is_Some_2 _ _ Ht1) as [nd1 Hnd1].
        eapply wp_mono; [exact (IH q1 t1 nd1 Hwf1 Hnd1 Hb1)|].
        cbv beta. intros _ q'' tr'' (Hs & _). exact Hs.
      + apply Hd0.
      + rewrite length_tasks_upd.
        pose proof (wf_waiters_valid q t nd Hwf Hnd) as Hv.
        rewrite Hq in Hv. exact Hv.
      + pose proof (open_count_upd q t nd (node_close nd) Hnd) as Ho.
        unfold open_weight in Ho. rewrite Hq in Ho. simpl in Ho. lia.
    - apply wp_ret, sound_refl, Hd0. }
  destruct Hvisit as ([] & q2 & trw & Hrun & Hs2).
  pose proof Hs2 as (Hd2 & _).
  assert (Ht2 : (t < length (tasks q2))%nat).
  { rewrite (descends_length _ _ Hd2), length_tasks_upd. eapply lookup_lt_Some, Hnd. }
  destruct (lookup_lt_is_Some_2 _ _ Ht2) as [nd2 Hnd2].
  assert (Hs3 : sound q2 (upd q2 t (node_release nd2)) (release_log t (m_ref_count nd2))).
  { assert (Hwf2 : wf q2) by apply Hd2.
    eapply sound_upd; [exact Hwf2|exact Hnd2|solve_node..|apply release_log_silent]. }
  apply wp_bind. eapply wp_exact; [eapply run_consume_wait_queue; exact Hnd|].
  cbv beta. apply wp_bind. eapply wp_exact; [exact Hrun|]. cbv beta.
  apply wp_bind.
  eapply wp_exact; [eapply run_decrement_and_check_reference_count; exact Hnd2|].
  cbv beta.
  assert (Hfin : ∀ tr3,
            [EvDecrementRefCount t (m_ref_count nd2 - 1 =? 0)] ++ tr3 =
              release_log t (m_ref_count nd2) →
            sound q (upd q2 t (node_release nd2))
              ([EvConsumeWaitQueue t (queue_waiters (m_wait_queue nd))] ++
               trw ++ [EvDecrementRefCount t (m_ref_count nd2 - 1 =? 0)] ++ tr3) ∧
            ∃ q2' trw' nd2',
              visit_waiters (_complete_finished_task fuel)
                (queue_waiters (m_wait_queue nd)) (upd q t (node_close nd)) =
                Ok (tt, q2', trw') ∧
              sound (upd q t (node_close nd)) q2' trw' ∧
              tasks q2' !! t = Some nd2' ∧
              upd q2 t (node_release nd2) = upd q2' t (node_release nd2') ∧
              [EvConsumeWaitQueue t (queue_waiters (m_wait_queue nd))] ++
                trw ++ [EvDecrementRefCount t (m_ref_count nd2 - 1 =? 0)] ++ tr3 =
              [EvConsumeWaitQueue t (queue_waiters (m_wait_queue nd))] ++ trw' ++
                release_log t (m_ref_count nd2')).
  { intros tr3 Htr3. rewrite Htr3. split.
    - eapply sound_trans; [exact Hs0|]. eapply sound_trans; eassumption.
    - exists q2, trw, nd2. auto. }
  unfold release_log in Hfin.
  destruct (m_ref_count nd2 - 1 =? 0).
  - eapply wp_exact; [reflexivity|]. apply Hfin. reflexivity.
  - apply wp_ret. apply Hfin. reflexivity.
Qed.

(** * The statements of the specification *)

Ltac decide_wf := refine (bool_decide_unpack _ _); vm_compute; exact I.

(** ** Schedule runnable *)

Lemma appended_schedule_log t p o rc r :
  appended (schedule_log t p o rc r) = if o then [(p, t)] else [].
Proof. unfold schedule_log, release_log. destruct o, r, (rc - 1 =? 0); reflexivity. Qed.

(** C5.  In [schedule_runnable], for a task that declares a predecessor
    [p]: the predecessor is cleared from the task, then the memory fence
    is issued, then the append to the wait queue of [p] is attempted;
    when the respawn flag is set the reference count of [p] is released
    next, with the deallocation of [p] if it reaches zero, whether the
    append succeeded or not.  The flag is cleared after that and the
    task is enqueued if the append failed. *)
Theorem schedule_runnable_predecessor_order q t nd p r :
  wf q → tasks q !! t = Some nd → m_kind nd = RunnableTask (Some p) r →
  ∃ np q' nd' added,
    tasks q !! p = Some np ∧
    added = queue_is_open (m_wait_queue np) ∧
    schedule_runnable t q =
      Ok (tt, q',
          [EvClearPredecessor t; EvMemoryFence; EvTryAddWaiting p t added] ++
          (if r
           then EvDecrementRefCount p (m_ref_count np - 1 =? 0) ::
                (if m_ref_count np - 1 =? 0 then [EvDeallocate p] else [])
           else []) ++
          [EvSetRespawnFlag t false] ++
          (if added then [] else [EvIncrementReadyCount; EvPush t])) ∧
    tasks q' !! t = Some nd' ∧
    m_kind nd' = RunnableTask None false.
Proof.
  intros Hwf Hnd Hk.
  destruct (wf_predecessor_valid q t nd p r Hwf Hnd Hk) as [np Hnp].
  destruct (schedule_runnable_predecessor q t nd Hwf Hnd p r np Hk Hnp)
    as ([] & q' & tr & Hrun & -> & _ & _ & _ & nd' & Hnd' & Hk' & _).
  exists np, q', nd', (queue_is_open (m_wait_queue np)).
  repeat split; assumption.
Qed.

Lemma schedule_runnable_predecessor_order_witness :
  wf respawned_on_running ∧
  ∃ np q' nd' added,
    tasks respawned_on_running !! 0%nat = Some np ∧
    added = queue_is_open (m_wait_queue np) ∧
    schedule_runnable 1%nat respawned_on_running =
      Ok (tt, q',
          [EvClearPredecessor 1%nat; EvMemoryFence; EvTryAddWaiting 0%nat 1%nat added] ++
          (EvDecrementRefCount 0%nat (m_ref_count np - 1 =? 0) ::
           (if m_ref_count np - 1 =? 0 then [EvDeallocate 0%nat] else [])) ++
          [EvSetRespawnFlag 1%nat false] ++
          (if added then [] else [EvIncrementReadyCount; EvPush 1%nat])) ∧
    tasks q' !! 1%nat = Some nd' ∧
    m_kind nd' = RunnableTask None false.
Proof.
  assert (Hwf : wf respawned_on_running) by decide_wf.
  split; [exact Hwf|].
  exact (schedule_runnable_predecessor_order respawned_on_running 1%nat
           (runnable_node (Some 0%nat) true 1 (Open [])) 0%nat true
           Hwf eq_refl eq_refl).
Defined.

(** C6.  Every call to [schedule_runnable] clears the respawn flag of
    the task.  The task is ready iff it has no predecessor or the append
    to the predecessor's wait queue failed: the log holds a successful
    append exactly when the predecessor is pending.  When the task is
    ready the ready count is incremented and then the task is pushed,
    and these are the last two effects of the call; when it is not, the
    call neither increments nor pushes, and clearing the flag is the
    last thing it does to the task. *)
Theorem schedule_runnable_ready_iff q t nd p r :
  wf q → tasks q !! t = Some nd → m_kind nd = RunnableTask p r →
  ∃ q' tr nd' pre,
    schedule_runnable t q = Ok (tt, q', tr) ∧
    tasks q' !! t = Some nd' ∧
    m_kind nd' = RunnableTask None false ∧
    Forall (λ e, silent e = true) pre ∧
    appended tr =
      match p with
      | Some p' => if pending q p then [(p', t)] else []
      | None => []
      end ∧
    (if pending q p
     then tr = pre ++ [EvSetRespawnFlag t false] ∧
          ready_queue q' = ready_queue q ∧
          m_ready_count q' = m_ready_count q
     else tr = pre ++ [EvSetRespawnFlag t false; EvIncrementReadyCount; EvPush t] ∧
          ready_queue q' = ready_queue q ++ [t] ∧
          m_ready_count q' = wrap32 (m_ready_count q + 1)).
Proof.
  intros Hwf Hnd Hk. destruct p as [p|].
  - destruct (wf_predecessor_valid q t nd p r Hwf Hnd Hk) as [np Hnp].
    destruct (schedule_runnable_predecessor q t nd Hwf Hnd p r np Hk Hnp)
      as ([] & q' & tr & Hrun & -> & _ & Hc & Hr & nd' & Hnd' & Hk' & _).
    rewrite (pending_lookup q p np Hnp).
    exists q', (schedule_log t p (queue_is_open (m_wait_queue np)) (m_ref_count np) r),
      nd',
      ([EvClearPredecessor t; EvMemoryFence;
        EvTryAddWaiting p t (queue_is_open (m_wait_queue np))] ++
       (if r then release_log p (m_ref_count np) else [])).
    split; [exact Hrun|]. split; [exact Hnd'|]. split; [exact Hk'|].
    split.
    { apply Forall_app. split; [repeat constructor|].
      destruct r; [apply release_log_silent|constructor]. }
    split; [apply appended_schedule_log|].
    unfold schedule_log.
    destruct (queue_is_open (m_wait_queue np));
      rewrite ?app_nil_r in *; rewrite <- ?app_assoc; auto.
  - exists (enqueue (upd q t (node_set_respawn false nd)) t),
      [EvSetRespawnFlag t false; EvIncrementReadyCount; EvPush t],
      (node_set_respawn false nd), [].
    split; [exact (schedule_runnable_no_predecessor q t nd Hnd r Hk)|].
    split; [change (tasks (enqueue ?x _)) with (tasks x); solve_lookup|].
    split; [unfold node_set_respawn; rewrite Hk; reflexivity|].
    split; [constructor|]. simpl. auto.
Qed.

Lemma schedule_runnable_ready_iff_witness :
  wf respawned_on_done ∧
  ∃ q' tr nd' pre,
    schedule_runnable 1%nat respawned_on_done = Ok (tt, q', tr) ∧
    tasks q' !! 1%nat = Some nd' ∧
    m_kind nd' = RunnableTask None false ∧
    Forall (λ e, silent e = true) pre ∧
    appended tr = [] ∧
    tr = pre ++ [EvSetRespawnFlag 1%nat false; EvIncrementReadyCount; EvPush 1%nat] ∧
    ready_queue q' = [1%nat] ∧
    m_ready_count q' = 2.
Proof.
  assert (Hwf : wf respawned_on_done) by decide_wf.
  split; [exact Hwf|].
  exact (schedule_runnable_ready_iff respawned_on_done 1%nat
           (runnable_node (Some 0%nat) true 1 (Open [])) (Some 0%nat) true
           Hwf eq_refl eq_refl).
Defined.

(** ** Completion of a runnable task *)

Lemma complete_runnable_run fuel q t nd p r q1 tr1 :
  tasks q !! t = Some nd → m_kind nd = RunnableTask p r →
  (if r then schedule_runnable t else _complete_finished_task fuel t) q
    = Ok (tt, q1, tr1) →
  complete_runnable fuel t q = Ok (tt, count_down q1, tr1 ++ [EvDecrementReadyCount]).
Proof.
  intros Hnd Hk Hrun. unfold complete_runnable.
  rewrite (bind_Ok _ _ _ _ _ _ (run_get_respawn_flag q t nd Hnd p r Hk)).
  rewrite (bind_Ok _ _ _ _ _ _ Hrun). reflexivity.
Qed.

Lemma count_decrement_snoc tr :
  count_events is_decrement tr = 0%nat →
  count_events is_decrement (tr ++ [EvDecrementReadyCount]) = 1%nat.
Proof. intros H. rewrite count_events_app, H. reflexivity. Qed.

(** C2.  A call to [complete] on a runnable task: if the respawn flag
    is set it runs [schedule_runnable] on the task; otherwise it drains
    the wait queue of the task, visits the waiters, then decrements the
    reference count of the task and deallocates the task exactly when
    that decrement reaches zero.  In both branches the call decrements
    the ready count exactly once, as its last effect. *)
Theorem complete_runnable_branches fuel q t nd p r :
  wf q → tasks q !! t = Some nd → m_kind nd = RunnableTask p r →
  (open_count q < fuel)%nat →
  ∃ q1 tr1,
    complete_runnable fuel t q =
      Ok (tt, count_down q1, tr1 ++ [EvDecrementReadyCount]) ∧
    count_events is_decrement (tr1 ++ [EvDecrementReadyCount]) = 1%nat ∧
    (if r
     then schedule_runnable t q = Ok (tt, q1, tr1)
     else ∃ q2 trw nd2,
       visit_waiters (_complete_finished_task (pred fuel))
         (queue_waiters (m_wait_queue nd)) (upd q t (node_close nd)) = Ok (tt, q2, trw) ∧
       tasks q2 !! t = Some nd2 ∧
       q1 = upd q2 t (node_release nd2) ∧
       tr1 = [EvConsumeWaitQueue t (queue_waiters (m_wait_queue nd))] ++ trw ++
             EvDecrementRefCount t (m_ref_count nd2 - 1 =? 0) ::
             (if m_ref_count nd2 - 1 =? 0 then [EvDeallocate t] else [])).
Proof.
  intros Hwf Hnd Hk Hfuel.
  assert (Hsh : shape q !! t = Some None) by (apply shape_runnable; eauto).
  destruct r.
  - destruct (schedule_runnable_sound q t Hwf Hsh) as ([] & q1 & tr1 & Hrun & Hs).
    exists q1, tr1.
    split; [exact (complete_runnable_run fuel q t nd p true q1 tr1 Hnd Hk Hrun)|].
    split; [|exact Hrun].
    destruct Hs as (_ & Hw & _). apply count_decrement_snoc.
    apply (wakes_only_count _ _ Hw).
  - destruct (complete_finished_task_spec fuel q t nd Hwf Hnd Hfuel)
      as ([] & q1 & tr1 & Hrun & Hs & q2 & trw & nd2 & Hvisit & _ & Hnd2 & Hq1 & Htr1).
    exists q1, tr1.
    split; [exact (complete_runnable_run fuel q t nd p false q1 tr1 Hnd Hk Hrun)|].
    split.
    + destruct Hs as (_ & Hw & _). apply count_decrement_snoc.
      apply (wakes_only_count _ _ Hw).
    + exists q2, trw, nd2. auto.
Qed.

Lemma complete_runnable_branches_witness :
  wf finished_with_waiter ∧ (open_count finished_with_waiter < 3)%nat ∧
  ∃ q1 tr1,
    complete_runnable 3 0%nat finished_with_waiter =
      Ok (tt, count_down q1, tr1 ++ [EvDecrementReadyCount]) ∧
    count_events is_decrement (tr1 ++ [EvDecrementReadyCount]) = 1%nat.
Proof.
  assert (Hwf : wf finished_with_waiter) by decide_wf.
  assert (Hfuel : (open_count finished_with_waiter < 3)%nat) by (vm_compute; lia).
  split; [exact Hwf|]. split; [exact Hfuel|].
  destruct (complete_runnable_branches 3 finished_with_waiter 0%nat
              (runnable_node None false 1 (Open [1%nat])) None false
              Hwf eq_refl eq_refl Hfuel)
    as (q1 & tr1 & Hrun & Hcount & _).
  exists q1, tr1. split; [exact Hrun|exact Hcount].
Defined.

Lemma schedule_log_events t p o rc r e :
  e ∈ schedule_log t p o rc r →
  match e with
  | EvDecrementRefCount x _ => x = p
  | EvDeallocate x => x = p
  | EvConsumeWaitQueue _ _ => False
  | _ => True
  end.
Proof.
  unfold schedule_log, release_log. intros H.
  destruct o, r, (rc - 1 =? 0); simpl in H;
    repeat (apply elem_of_cons in H as [->|H]; [first [exact I | reflexivity]|]);
    apply elem_of_nil in H; contradiction.
Qed.

(** C10.  A call to [complete] on a runnable task whose respawn flag is
    set, the task not being its own predecessor: the call never drains
    the wait queue of the task, never decrements its reference count and
    never deallocates it, and the task is left with the reference count
    and the wait queue it had; any reference count the call decrements,
    and any task it deallocates, is the predecessor's. *)
Theorem complete_respawn_spares_task fuel q t nd p :
  wf q → tasks q !! t = Some nd → m_kind nd = RunnableTask p true →
  p ≠ Some t →
  ∃ q' tr nd',
    complete_runnable fuel t q = Ok (tt, q', tr) ∧
    (∀ ws, EvConsumeWaitQueue t ws ∉ tr) ∧
    (∀ z, EvDecrementRefCount t z ∉ tr) ∧
    (EvDeallocate t ∉ tr) ∧
    (∀ x z, EvDecrementRefCount x z ∈ tr → p = Some x) ∧
    (∀ x, EvDeallocate x ∈ tr → p = Some x) ∧
    tasks q' !! t = Some nd' ∧
    m_ref_count nd' = m_ref_count nd ∧
    m_wait_queue nd' = m_wait_queue nd.
Proof.
  intros Hwf Hnd Hk Hself.
  assert (Hev : ∃ q1 tr1 nd',
            schedule_runnable t q = Ok (tt, q1, tr1) ∧
            (∀ e, e ∈ tr1 →
               match e with
               | EvDecrementRefCount x _ => p = Some x
               | EvDeallocate x => p = Some x
               | EvConsumeWaitQueue _ _ => False
               | _ => True
               end) ∧
            tasks q1 !! t = Some nd' ∧
            m_ref_count nd' = m_ref_count nd ∧
            m_wait_queue nd' = m_wait_queue nd).
  { destruct p as [p|].
    - destruct (wf_predecessor_valid q t nd p true Hwf Hnd Hk) as [np Hnp].
      destruct (schedule_runnable_predecessor q t nd Hwf Hnd p true np Hk Hnp)
        as ([] & q1 & tr1 & Hrun & -> & _ & _ & _ & nd' & Hnd' & _ & Hsame).
      assert (Hpt : p ≠ t) by congruence.
      destruct (Hsame Hpt) as [Hrc Hwq].
      eexists q1, _, nd'. split; [exact Hrun|]. split; [|auto].
      intros e He. apply schedule_log_events in He.
      destruct e; try exact I; try exact He; congruence.
    - eexists (enqueue (upd q t (node_set_respawn false nd)) t), _,
        (node_set_respawn false nd).
      split; [exact (schedule_runnable_no_predecessor q t nd Hnd true Hk)|].
      split.
      { intros e He.
        repeat (apply elem_of_cons in He as [->|He]; [exact I|]).
        apply elem_of_nil in He. contradiction. }
      split; [change (tasks (enqueue ?x _)) with (tasks x); solve_lookup|].
      split; [apply m_ref_count_set_respawn|apply m_wait_queue_set_respawn]. }
  destruct Hev as (q1 & tr1 & nd' & Hrun & Hev & Hnd' & Hrc & Hwq).
  exists (count_down q1), (tr1 ++ [EvDecrementReadyCount]), nd'.
  split; [exact (complete_runnable_run fuel q t nd p true q1 tr1 Hnd Hk Hrun)|].
  assert (Hall : ∀ e, e ∈ tr1 ++ [EvDecrementReadyCount] →
            match e with
            | EvDecrementRefCount x _ => p = Some x
            | EvDeallocate x => p = Some x
            | EvConsumeWaitQueue _ _ => False
            | _ => True
            end).
  { intros e He. apply elem_of_app in He as [He|He]; [exact (Hev e He)|].
    apply list_elem_of_singleton in He as ->. exact I. }
  split; [intros ws Hin; exact (Hall _ Hin)|].
  split; [intros z Hin; exact (Hself (Hall _ Hin))|].
  split; [intros Hin; exact (Hself (Hall _ Hin))|].
  split; [intros x z Hin; exact (Hall _ Hin)|].
  split; [intros x Hin; exact (Hall _ Hin)|].
  auto.
Qed.

Lemma complete_respawn_spares_task_witness :
  wf respawned_on_done ∧
  ∃ q' tr nd',
    complete_runnable 0 1%nat respawned_on_done = Ok (tt, q', tr) ∧
    (∀ ws, EvConsumeWaitQueue 1%nat ws ∉ tr) ∧
    (∀ z, EvDecrementRefCount 1%nat z ∉ tr) ∧
    (EvDeallocate 1%nat ∉ tr) ∧
    (∀ x z, EvDecrementRefCount x z ∈ tr → Some 0%nat = Some x) ∧
    (∀ x, EvDeallocate x ∈ tr → Some 0%nat = Some x) ∧
    tasks q' !! 1%nat = Some nd' ∧
    m_ref_count nd' = 1 ∧
    m_wait_queue nd' = Open [].
Proof.
  assert (Hwf : wf respawned_on_done) by decide_wf.
  split; [exact Hwf|].
  exact (complete_respawn_spares_task 0 respawned_on_done 1%nat
           (runnable_node (Some 0%nat) true 1 (Open [])) (Some 0%nat)
           Hwf eq_refl eq_refl ltac:(discriminate)).
Defined.

(** C3, amended.  A call to [complete] on a runnable task whose respawn
    flag is set and which is ready again (it names no predecessor, or
    one that no longer accepts waiters): the ready count is incremented
    inside [schedule_runnable], right before the push, and the decrement
    made by [complete] comes after it, as the last effect of the call;
    nothing before the increment touches the ready count. *)
Theorem complete_respawn_increment_first fuel q t nd p :
  wf q → tasks q !! t = Some nd → m_kind nd = RunnableTask p true →
  pending q p = false →
  ∃ q' pre,
    complete_runnable fuel t q =
      Ok (tt, q', pre ++ [EvIncrementReadyCount; EvPush t; EvDecrementReadyCount]) ∧
    Forall (λ e, silent e = true) pre ∧
    m_ready_count q' = wrap32 (wrap32 (m_ready_count q + 1) - 1).
Proof.
  intros Hwf Hnd Hk Hp.
  assert (Hsched : ∃ q1 pre,
            schedule_runnable t q =
              Ok (tt, q1, pre ++ [EvIncrementReadyCount; EvPush t]) ∧
            Forall (λ e, silent e = true) pre ∧
            m_ready_count q1 = wrap32 (m_ready_count q + 1)).
  { destruct p as [p|].
    - destruct (wf_predecessor_valid q t nd p true Hwf Hnd Hk) as [np Hnp].
      destruct (schedule_runnable_predecessor q t nd Hwf Hnd p true np Hk Hnp)
        as ([] & q1 & tr1 & Hrun & -> & _ & Hc & _).
      rewrite (pending_lookup q p np Hnp) in Hp. rewrite Hp in Hc, Hrun.
      exists q1,
        ([EvClearPredecessor t; EvMemoryFence; EvTryAddWaiting p t false] ++
         release_log p (m_ref_count np) ++ [EvSetRespawnFlag t false]).
      split; [|split; [|exact Hc]].
      + unfold schedule_runnable. rewrite Hrun. unfold schedule_log.
        rewrite <- !app_assoc. reflexivity.
      + apply Forall_app. split; [repeat constructor|].
        apply Forall_app. split; [apply release_log_silent|repeat constructor].
    - exists (enqueue (upd q t (node_set_respawn false nd)) t),
        [EvSetRespawnFlag t false].
      split; [exact (schedule_runnable_no_predecessor q t nd Hnd true Hk)|].
      split; [repeat constructor|reflexivity]. }
  destruct Hsched as (q1 & pre & Hrun & Hpre & Hc).
  exists (count_down q1), pre.
  split.
  - rewrite (complete_runnable_run fuel q t nd p true q1 _ Hnd Hk Hrun).
    rewrite <- !app_assoc. reflexivity.
  - split; [exact Hpre|]. simpl. rewrite Hc. reflexivity.
Qed.

Lemma complete_respawn_increment_first_witness :
  wf respawned_alone ∧
  ∃ q' pre,
    complete_runnable 0 0%nat respawned_alone =
      Ok (tt, q', pre ++ [EvIncrementReadyCount; EvPush 0%nat; EvDecrementReadyCount]) ∧
    Forall (λ e, silent e = true) pre ∧
    m_ready_count q' = 1.
Proof.
  assert (Hwf : wf respawned_alone) by decide_wf.
  split; [exact Hwf|].
  exact (complete_respawn_increment_first 0 respawned_alone 0%nat
           (runnable_node None true 1 (Open [])) None
           Hwf eq_refl eq_refl eq_refl).
Defined.

(** C3 fails as stated: the respawn of a task without a dependence logs
    the increment, the push and only then the decrement. *)
Lemma complete_respawn_decrement_not_first :
  ∃ q' tr,
    complete_runnable 0 0%nat respawned_alone = Ok (tt, q', tr) ∧
    tr = [EvSetRespawnFlag 0%nat false; EvIncrementReadyCount;
          EvPush 0%nat; EvDecrementReadyCount] ∧
    ¬ decrement_precedes_increment tr.
Proof.
  eexists _, _. split; [reflexivity|]. split; [reflexivity|].
  intros (tr1 & tr2 & tr3 & H).
  destruct tr1 as [|e1 [|e2 [|e3 [|e4 tr1]]]]; simpl in H;
    try discriminate H.
  - (* the decrement is the last event: no increment can follow it *)
    injection H as _ _ _ H. destruct tr2; discriminate H.
  - (* the log has four events only *)
    injection H as _ _ _ _ H. destruct tr1; discriminate H.
Qed.

(** ** Completion of an aggregate *)

(** C7.  A call to [complete] on an aggregate finalises it whatever its
    state: it drains the wait queue, visits the waiters, decrements the
    reference count of the aggregate and deallocates it exactly when the
    count reaches zero.  No decrement of the ready count occurs, and no
    increment for the aggregate itself: every increment in the log sits
    right before the push of a woken runnable waiter, the aggregate is
    never pushed, the ready count is left as the visit of the waiters
    left it, and it is left as it was when no waiter is pushed. *)
Theorem complete_aggregate_finalizes fuel q t nd ds :
  wf q → tasks q !! t = Some nd → m_kind nd = AggregateTask ds →
  (open_count q < fuel)%nat →
  ∃ q' tr q2 trw nd2,
    complete_aggregate fuel t q = Ok (tt, q', tr) ∧
    visit_waiters (_complete_finished_task (pred fuel))
      (queue_waiters (m_wait_queue nd)) (upd q t (node_close nd)) = Ok (tt, q2, trw) ∧
    tasks q2 !! t = Some nd2 ∧
    q' = upd q2 t (node_release nd2) ∧
    tr = [EvConsumeWaitQueue t (queue_waiters (m_wait_queue nd))] ++ trw ++
         EvDecrementRefCount t (m_ref_count nd2 - 1 =? 0) ::
         (if m_ref_count nd2 - 1 =? 0 then [EvDeallocate t] else []) ∧
    wakes_only (shape q) tr ∧
    count_events is_decrement tr = 0%nat ∧
    count_events is_increment tr = count_events is_push tr ∧
    (t ∉ pushed tr) ∧
    m_ready_count q' = m_ready_count q2 ∧
    m_ready_count q' = replay_ready (m_ready_count q) trw ∧
    (pushed tr = [] → m_ready_count q' = m_ready_count q).
Proof.
  intros Hwf Hnd Hk Hfuel. unfold complete_aggregate.
  destruct (complete_finished_task_spec fuel q t nd Hwf Hnd Hfuel)
    as ([] & q' & tr & Hrun & Hs & q2 & trw & nd2 & Hvisit & Hsw & Hnd2 & Hq' & Htr).
  exists q', tr, q2, trw, nd2.
  destruct Hs as (_ & Hw & Hc & _).
  destruct (wakes_only_count _ _ Hw) as (Hdec & Hinc & Hpush).
  split; [exact Hrun|]. split; [exact Hvisit|]. split; [exact Hnd2|].
  split; [exact Hq'|]. split; [exact Htr|]. split; [exact Hw|].
  split; [exact Hdec|]. split; [exact Hinc|].
  split.
  { intros Hin. apply list_elem_of_In in Hin.
    rewrite Forall_forall in Hpush. specialize (Hpush t Hin).
    apply shape_lookup in Hpush as (nd0 & Hnd0 & Hs0).
    assert (nd0 = nd) as -> by congruence.
    unfold node_shape in Hs0. rewrite Hk in Hs0. discriminate Hs0. }
  split; [rewrite Hq'; reflexivity|].
  split.
  - rewrite Hq'. destruct Hsw as (_ & _ & Hcw & _). simpl. rewrite Hcw. reflexivity.
  - intros Hnone. rewrite Hc. exact (replay_ready_no_push _ _ _ Hw Hnone).
Qed.

Lemma complete_aggregate_finalizes_witness :
  wf aggregate_with_waiter ∧ (open_count aggregate_with_waiter < 3)%nat ∧
  ∃ q' tr,
    complete_aggregate 3 0%nat aggregate_with_waiter = Ok (tt, q', tr) ∧
    wakes_only (shape aggregate_with_waiter) tr ∧
    count_events is_decrement tr = 0%nat ∧
    count_events is_increment tr = count_events is_push tr ∧
    (0%nat ∉ pushed tr).
Proof.
  assert (Hwf : wf aggregate_with_waiter) by decide_wf.
  assert (Hfuel : (open_count aggregate_with_waiter < 3)%nat) by (vm_compute; lia).
  split; [exact Hwf|]. split; [exact Hfuel|].
  destruct (complete_aggregate_finalizes 3 aggregate_with_waiter 0%nat
              (aggregate_node [None; None] 1 (Open [1%nat])) [None; None]
              Hwf eq_refl eq_refl Hfuel)
    as (q' & tr & q2 & trw & nd2 & Hrun & _ & _ & _ & _ & Hw & Hdec & Hinc & Hpush & _).
  exists q', tr. auto.
Defined.

(** ** Schedule aggregate *)

(** C4.  [schedule_aggregate] walks the predecessor array from the last
    slot to the first: the slots it clears are [length ds - 1] down to
    some [j], in that order.  It stops at the first successful append:
    if an append succeeded, it is the only one, it is the append to
    the predecessor of slot [j], no slot above [j] held a pending
    predecessor, the slots below [j] are left as they were, and
    [complete] is not invoked.  Otherwise the scan has reached the
    front, no slot held a pending predecessor, and [complete] is invoked
    on the aggregate. *)
Theorem schedule_aggregate_scans_backwards fuel q t nd ds :
  wf q → tasks q !! t = Some nd → m_kind nd = AggregateTask ds →
  (open_count q < fuel)%nat →
  ∃ q' tr j found q1 tr1 nd1 ds1,
    schedule_aggregate fuel t q = Ok (tt, q', tr) ∧
    scan_dependences t (length ds) q = Ok (found, q1, tr1) ∧
    (j ≤ length ds)%nat ∧
    cleared_slots t tr1 = rev (seq j (length ds - j)) ∧
    (∀ i d, (j < i < length ds)%nat → ds !! i = Some d → pending q d = false) ∧
    tasks q1 !! t = Some nd1 ∧ m_kind nd1 = AggregateTask ds1 ∧
    (∀ i, (i < j)%nat → ds1 !! i = ds !! i) ∧
    (∀ i, (j ≤ i < length ds)%nat → ds1 !! i = Some None) ∧
    (if found
     then (j < length ds)%nat ∧
          (∃ p, ds !! j = Some (Some p) ∧ pending q (Some p) = true ∧
                appended tr1 = [(p, t)]) ∧
          q' = q1 ∧ tr = tr1 ∧
          (∀ x ws, EvConsumeWaitQueue x ws ∉ tr)
     else j = 0%nat ∧ appended tr1 = [] ∧
          (∀ i d, ds !! i = Some d → pending q d = false) ∧
          ∃ tr2, complete_aggregate fuel t q1 = Ok (tt, q', tr2) ∧
                 tr = tr1 ++ tr2).
Proof.
  intros Hwf Hnd Hk Hfuel.
  destruct (scan_dependences_spec t (length ds) q nd ds Hwf Hnd Hk (le_n _))
    as (found & q1 & tr1 & Hscan & j & Hj & Hd & Ho & Hc & Hr & Hs & Hnc & Hcl
        & Hmid & Hend & nd1 & ds1 & Hnd1 & Hk1 & Hl1 & Hout & Hin).
  assert (Hrun : ∀ r,
            (if negb found then complete_aggregate fuel t else mret tt) q1 = Ok r →
            schedule_aggregate fuel t q = Ok (r.1.1, r.1.2, tr1 ++ r.2)).
  { intros [[[] q'] tr2] Hr2. unfold schedule_aggregate, schedule_aggregate_with.
    rewrite (bind_Ok _ _ _ _ _ _ (run_dependence_count q t nd Hnd ds Hk)).
    rewrite (bind_Ok _ _ _ _ _ _ Hscan). rewrite Hr2. reflexivity. }
  destruct found.
  - exists q1, tr1, j, true, q1, tr1, nd1, ds1.
    split; [rewrite (Hrun (tt, q1, [])) by reflexivity; simpl; rewrite app_nil_r; reflexivity|].
    split; [exact Hscan|]. split; [exact Hj|]. split; [exact Hcl|].
    split; [exact Hmid|]. split; [exact Hnd1|]. split; [exact Hk1|].
    split; [intros i Hi; apply Hout; lia|]. split; [exact Hin|].
    destruct Hend as (Hlt & p & Hp & Hpp & Hap).
    split; [exact Hlt|]. split; [eauto|]. auto.
  - assert (Hwf1 : wf q1) by apply Hd.
    assert (Hfuel1 : (open_count q1 < fuel)%nat).
    { destruct Hd as (_ & _ & Hle). lia. }
    destruct (complete_finished_task_spec fuel q1 t nd1 Hwf1 Hnd1 Hfuel1)
      as ([] & q' & tr2 & Hrun2 & _).
    exists q', (tr1 ++ tr2), j, false, q1, tr1, nd1, ds1.
    split; [exact (Hrun (tt, q', tr2) Hrun2)|].
    split; [exact Hscan|]. split; [exact Hj|]. split; [exact Hcl|].
    split; [exact Hmid|]. split; [exact Hnd1|]. split; [exact Hk1|].
    split; [intros i Hi; apply Hout; lia|]. split; [exact Hin|].
    destruct Hend as (-> & Hap & Hz).
    split; [reflexivity|]. split; [exact Hap|].
    split.
    { intros i d Hi. pose proof (lookup_lt_Some _ _ _ Hi) as Hlt.
      destruct i as [|i].
      - apply Hz; [lia|exact Hi].
      - apply (Hmid (S i)); [lia|exact Hi]. }
    exists tr2. auto.
Qed.

Lemma schedule_aggregate_scans_backwards_witness :
  wf aggregate_of_three ∧ (open_count aggregate_of_three < 3)%nat ∧
  ∃ q' tr j found q1 tr1,
    schedule_aggregate 3 3%nat aggregate_of_three = Ok (tt, q', tr) ∧
    scan_dependences 3%nat 3 aggregate_of_three = Ok (found, q1, tr1) ∧
    (j ≤ 3)%nat ∧
    cleared_slots 3%nat tr1 = rev (seq j (3 - j)).
Proof.
  assert (Hwf : wf aggregate_of_three) by decide_wf.
  assert (Hfuel : (open_count aggregate_of_three < 3)%nat) by (vm_compute; lia).
  split; [exact Hwf|]. split; [exact Hfuel|].
  destruct (schedule_aggregate_scans_backwards 3 aggregate_of_three 3%nat
              (aggregate_node [Some 0%nat; Some 1%nat; Some 2%nat] 1 (Open []))
              [Some 0%nat; Some 1%nat; Some 2%nat]
              Hwf eq_refl eq_refl Hfuel)
    as (q' & tr & j & found & q1 & tr1 & nd1 & ds1 & Hrun & Hscan & Hj & Hcl & _).
  exists q', tr, j, found, q1, tr1. auto.
Defined.

(** C1 fails as stated: the append succeeds and the reference count of
    the predecessor drops from 2 to 1 all the same. *)
Lemma schedule_aggregate_releases_after_append :
  schedule_aggregate 1 1%nat aggregate_on_running =
    Ok (tt,
        mkTaskQueue [runnable_node None false 1 (Open [1%nat]);
                     aggregate_node [None] 1 (Open [])] 1 [],
        [EvClearSlot 1%nat 0%nat; EvTryAddWaiting 0%nat 1%nat true;
         EvDecrementRefCount 0%nat false]) ∧
  ¬ release_only_on_failed_append.
Proof.
  split; [reflexivity|].
  intros H.
  refine (H 1%nat aggregate_on_running 1%nat _ _ 0%nat eq_refl _ false _).
  - apply elem_of_cons. right. apply elem_of_cons. left. reflexivity.
  - apply elem_of_cons. right. apply elem_of_cons. right.
    apply elem_of_cons. left. reflexivity.
Qed.

(** C1, amended.  In [schedule_aggregate], for a slot that holds a
    predecessor [p]: the slot is cleared, the append to the wait queue
    of [p] is attempted, and then the reference count the slot held on
    [p] is released, with the deallocation of [p] if it reaches zero,
    whether the append failed or succeeded.  When the append succeeded
    the loop stops right after the release; when it failed the loop goes
    on with the next slot. *)
Theorem scan_slot_releases_always q t nd ds i p :
  wf q → tasks q !! t = Some nd → m_kind nd = AggregateTask ds →
  ds !! i = Some (Some p) →
  ∃ np q1 np1 added,
    tasks q !! p = Some np ∧
    added = queue_is_open (m_wait_queue np) ∧
    scan_slot t i q =
      Ok (added, q1,
          [EvClearSlot t i; EvTryAddWaiting p t added;
           EvDecrementRefCount p (m_ref_count np - 1 =? 0)] ++
          (if m_ref_count np - 1 =? 0 then [EvDeallocate p] else [])) ∧
    tasks q1 !! p = Some np1 ∧
    m_ref_count np1 = m_ref_count np - 1 ∧
    scan_dependences t (S i) q =
      (if added
       then Ok (true, q1,
                [EvClearSlot t i; EvTryAddWaiting p t true;
                 EvDecrementRefCount p (m_ref_count np - 1 =? 0)] ++
                (if m_ref_count np - 1 =? 0 then [EvDeallocate p] else []))
       else
         match scan_dependences t i q1 with
         | Ok (found, q2, tr2) =>
             Ok (found, q2,
                 ([EvClearSlot t i; EvTryAddWaiting p t false;
                   EvDecrementRefCount p (m_ref_count np - 1 =? 0)] ++
                  (if m_ref_count np - 1 =? 0 then [EvDeallocate p] else [])) ++ tr2)
         | OutOfFuel => OutOfFuel
         | Fault => Fault
         | ContractViolation => ContractViolation
         end).
Proof.
  intros Hwf Hnd Hk Hi.
  destruct (wf_slot_valid q t nd ds i p Hwf Hnd Hk Hi) as [np Hnp].
  destruct (scan_slot_predecessor q t nd ds Hwf Hnd Hk i p np Hi Hnp)
    as (found & q1 & tr1 & Hrun & -> & -> & _ & np1 & Hnp1 & Hrc & _).
  exists np, q1, np1, (queue_is_open (m_wait_queue np)).
  split; [exact Hnp|]. split; [reflexivity|]. split; [exact Hrun|].
  split; [exact Hnp1|]. split; [exact Hrc|].
  simpl. rewrite (bind_Ok _ _ _ _ _ _ Hrun).
  destruct (queue_is_open (m_wait_queue np)).
  - simpl. rewrite app_nil_r. reflexivity.
  - reflexivity.
Qed.

Lemma scan_slot_releases_always_witness :
  wf aggregate_on_running ∧
  ∃ np q1 np1 added,
    tasks aggregate_on_running !! 0%nat = Some np ∧
    added = queue_is_open (m_wait_queue np) ∧
    scan_slot 1%nat 0 aggregate_on_running =
      Ok (added, q1,
          [EvClearSlot 1%nat 0%nat; EvTryAddWaiting 0%nat 1%nat added;
           EvDecrementRefCount 0%nat (m_ref_count np - 1 =? 0)] ++
          (if m_ref_count np - 1 =? 0 then [EvDeallocate 0%nat] else [])) ∧
    tasks q1 !! 0%nat = Some np1 ∧
    m_ref_count np1 = m_ref_count np - 1.
Proof.
  assert (Hwf : wf aggregate_on_running) by decide_wf.
  split; [exact Hwf|].
  destruct (scan_slot_releases_always aggregate_on_running 1%nat
              (aggregate_node [Some 0%nat] 1 (Open [])) [Some 0%nat] 0%nat 0%nat
              Hwf eq_refl eq_refl eq_refl)
    as (np & q1 & np1 & added & Hnp & Hadd & Hslot & Hnp1 & Hrc & _).
  exists np, q1, np1, added. auto.
Defined.

(** ** The ready count at teardown *)

Lemma wrap32_in_range z : - 2 ^ 31 ≤ z < 2 ^ 31 → wrap32 z = z.
Proof. intros H. unfold wrap32. rewrite Z.mod_small; lia. Qed.

Lemma wrap32_wrap32_add a b : wrap32 (wrap32 a + b) = wrap32 (a + b).
Proof.
  unfold wrap32.
  replace ((a + 2 ^ 31) `mod` 2 ^ 32 - 2 ^ 31 + b + 2 ^ 31)
    with ((a + 2 ^ 31) `mod` 2 ^ 32 + b) by lia.
  rewrite Zplus_mod_idemp_l. f_equal. f_equal. lia.
Qed.

Lemma wrap32_range z : - 2 ^ 31 ≤ wrap32 z < 2 ^ 31.
Proof.
  unfold wrap32.
  pose proof (Z.mod_pos_bound (z + 2 ^ 31) (2 ^ 32) ltac:(lia)). lia.
Qed.

Lemma run_ready_op_count op q :
  ∃ q1 e,
    run_ready_op op q = Ok (tt, q1, [e]) ∧
    m_ready_count q1 =
      wrap32 (m_ready_count q + increments [op] - decrements [op]).
Proof.
  destruct op; eexists _, _; (split; [reflexivity|]); simpl; f_equal; lia.
Qed.

Lemma run_ready_ops_count ops :
  ∀ q, ∃ q' tr,
    run_ready_ops ops q = Ok (tt, q', tr) ∧
    wrap32 (m_ready_count q') =
      wrap32 (m_ready_count q + increments ops - decrements ops) ∧
    (ops ≠ [] → - 2 ^ 31 ≤ m_ready_count q' < 2 ^ 31).
Proof.
  induction ops as [|op ops IH]; intros q.
  - exists q, []. split; [reflexivity|]. split; [|congruence].
    simpl. f_equal. lia.
  - destruct (run_ready_op_count op q) as (q1 & e & Hop & Hc1).
    destruct (IH q1) as (q' & tr & Hrun & Hc & Hrange).
    exists q', ([e] ++ tr).
    split.
    { simpl run_ready_ops. rewrite (bind_Ok _ _ _ _ _ _ Hop), Hrun. reflexivity. }
    split.
    + rewrite Hc, Hc1, <- Z.add_sub_assoc, wrap32_wrap32_add. f_equal.
      destruct op; simpl; lia.
    + intros _. destruct ops as [|op' ops'].
      * simpl in Hrun. injection Hrun as <- _. rewrite Hc1. apply wrap32_range.
      * apply Hrange. discriminate.
Qed.

(** C8.  The destructor of the tracker checks that the ready count is
    zero: it returns when it is, and a count other than zero is a
    contract violation, which is fatal.  When the increments made on a
    fresh tracker have been paired with as many decrements, the count is
    zero and the check passes. *)
Theorem destroy_checks_ready_count pool ops q0 :
  increments ops = decrements ops →
  destroy_TaskQueueCommonMixin q0 =
    (if m_ready_count q0 =? 0 then Ok (tt, q0, []) else ContractViolation) ∧
  ∃ q tr,
    run_ready_ops ops (TaskQueueCommonMixin pool) = Ok (tt, q, tr) ∧
    is_done q = true ∧
    destroy_TaskQueueCommonMixin q = Ok (tt, q, []).
Proof.
  intros Hbal.
  assert (Hdestroy : ∀ q, destroy_TaskQueueCommonMixin q =
            (if m_ready_count q =? 0 then Ok (tt, q, []) else ContractViolation)).
  { intros q. unfold destroy_TaskQueueCommonMixin, KOKKOS_EXPECTS.
    destruct (m_ready_count q =? 0); reflexivity. }
  split; [apply Hdestroy|].
  destruct (run_ready_ops_count ops (TaskQueueCommonMixin pool))
    as (q & tr & Hrun & Hc & Hrange).
  assert (Hq : m_ready_count q = 0).
  { destruct ops as [|op ops].
    - simpl in Hrun. injection Hrun as <- _. reflexivity.
    - rewrite <- (wrap32_in_range (m_ready_count q)) by (apply Hrange; discriminate).
      rewrite Hc. simpl m_ready_count. rewrite Hbal.
      replace (0 + decrements (op :: ops) - decrements (op :: ops)) with 0 by lia.
      reflexivity. }
  exists q, tr. split; [exact Hrun|].
  split; [unfold is_done; rewrite Hq; reflexivity|].
  rewrite Hdestroy, Hq. reflexivity.
Qed.

Lemma destroy_checks_ready_count_witness :
  increments [Increment; Decrement; Increment; Increment; Decrement; Decrement] =
  decrements [Increment; Decrement; Increment; Increment; Decrement; Decrement] ∧
  destroy_TaskQueueCommonMixin leaked_task = ContractViolation ∧
  ∃ q tr,
    run_ready_ops [Increment; Decrement; Increment; Increment; Decrement; Decrement]
      (TaskQueueCommonMixin []) = Ok (tt, q, tr) ∧
    is_done q = true ∧
    destroy_TaskQueueCommonMixin q = Ok (tt, q, []).
Proof.
  split; [reflexivity|].
  exact (destroy_checks_ready_count []
           [Increment; Decrement; Increment; Increment; Decrement; Decrement]
           leaked_task eq_refl).
Defined.

(** ** The scenarios of the specification, run *)

(** Scenario A: a single task is pushed at once, the ready count goes
    to one; its completion brings the count back to zero and
    deallocates it. *)
Example scenario_single_task :
  ∃ q', (schedule_runnable 0%nat;; complete_runnable 1 0%nat) one_task =
          Ok (tt, q',
              [EvSetRespawnFlag 0%nat false; EvIncrementReadyCount; EvPush 0%nat;
               EvConsumeWaitQueue 0%nat []; EvDecrementRefCount 0%nat true;
               EvDeallocate 0%nat; EvDecrementReadyCount]) ∧
        is_done q' = true.
Proof. eexists. split; vm_compute; reflexivity. Qed.

(** Scenario B: task 1 waits on task 0 after its schedule call and is
    pushed when task 0 completes. *)
Example scenario_append_then_drain :
  ∃ q', (schedule_runnable 0%nat;; schedule_runnable 1%nat;;
         complete_runnable 2 0%nat) two_tasks =
          Ok (tt, q',
              [EvSetRespawnFlag 0%nat false; EvIncrementReadyCount; EvPush 0%nat;
               EvClearPredecessor 1%nat; EvMemoryFence;
               EvTryAddWaiting 0%nat 1%nat true; EvSetRespawnFlag 1%nat false;
               EvConsumeWaitQueue 0%nat [1%nat]; EvSetRespawnFlag 1%nat false;
               EvIncrementReadyCount; EvPush 1%nat;
               EvDecrementRefCount 0%nat true; EvDeallocate 0%nat;
               EvDecrementReadyCount]) ∧
        ready_queue q' = [0%nat; 1%nat] ∧ m_ready_count q' = 1.
Proof. eexists. split; [|split]; vm_compute; reflexivity. Qed.

(** The other order: task 0 completes before task 1 is scheduled; the
    append fails and task 1 is pushed at once, once again. *)
Example scenario_drain_then_append :
  ∃ q', (schedule_runnable 0%nat;; complete_runnable 2 0%nat;;
         schedule_runnable 1%nat) two_tasks =
          Ok (tt, q',
              [EvSetRespawnFlag 0%nat false; EvIncrementReadyCount; EvPush 0%nat;
               EvConsumeWaitQueue 0%nat []; EvDecrementRefCount 0%nat true;
               EvDeallocate 0%nat; EvDecrementReadyCount;
               EvClearPredecessor 1%nat; EvMemoryFence;
               EvTryAddWaiting 0%nat 1%nat false; EvSetRespawnFlag 1%nat false;
               EvIncrementReadyCount; EvPush 1%nat]) ∧
        ready_queue q' = [0%nat; 1%nat] ∧ m_ready_count q' = 1.
Proof. eexists. split; [|split]; vm_compute; reflexivity. Qed.

(** Scenario C: a task that respawns once: increment, increment again
    inside the respawn and then the decrement of the first run, and the
    decrement of the second run; deallocated by the second completion
    only. *)
Example scenario_respawn_once :
  ∃ q', (schedule_runnable 0%nat;; set_respawn_flag 0%nat true;;
         complete_runnable 1 0%nat;; complete_runnable 1 0%nat) one_task =
          Ok (tt, q',
              [EvSetRespawnFlag 0%nat false; EvIncrementReadyCount; EvPush 0%nat;
               EvSetRespawnFlag 0%nat true;
               EvSetRespawnFlag 0%nat false; EvIncrementReadyCount; EvPush 0%nat;
               EvDecrementReadyCount;
               EvConsumeWaitQueue 0%nat []; EvDecrementRefCount 0%nat true;
               EvDeallocate 0%nat; EvDecrementReadyCount]) ∧
        is_done q' = true.
Proof. eexists. split; vm_compute; reflexivity. Qed.

(** Scenario D: an aggregate over three tasks that complete in the order
    1, 2, 0.  The aggregate waits on task 2, then on task 0, and is
    completed inside the completion of task 0, the last one. *)
Example scenario_aggregate_of_three :
  ∃ q', (schedule_aggregate 4 3%nat;; complete_runnable 4 1%nat;;
         complete_runnable 4 2%nat;; complete_runnable 4 0%nat) three_and_aggregate =
          Ok (tt, q',
              [EvClearSlot 3%nat 2%nat; EvTryAddWaiting 2%nat 3%nat true;
               EvDecrementRefCount 2%nat false;
               EvConsumeWaitQueue 1%nat []; EvDecrementRefCount 1%nat false;
               EvDecrementReadyCount;
               EvConsumeWaitQueue 2%nat [3%nat];
               EvClearSlot 3%nat 2%nat; EvClearSlot 3%nat 1%nat;
               EvTryAddWaiting 1%nat 3%nat false;
               EvDecrementRefCount 1%nat true; EvDeallocate 1%nat;
               EvClearSlot 3%nat 0%nat; EvTryAddWaiting 0%nat 3%nat true;
               EvDecrementRefCount 0%nat false;
               EvDecrementRefCount 2%nat true; EvDeallocate 2%nat;
               EvDecrementReadyCount;
               EvConsumeWaitQueue 0%nat [3%nat];
               EvClearSlot 3%nat 2%nat; EvClearSlot 3%nat 1%nat;
               EvClearSlot 3%nat 0%nat;
               EvConsumeWaitQueue 3%nat []; EvDecrementRefCount 3%nat true;
               EvDeallocate 3%nat;
               EvDecrementRefCount 0%nat true; EvDeallocate 0%nat;
               EvDecrementReadyCount]) ∧
        is_done q' = true.
Proof. eexists. split; vm_compute; reflexivity. Qed.

(** * Further properties of the engine *)

(** ** Every call is a run of steps *)

Lemma bind_inv {A B} (m : M A) (f : A → M B) q b q2 tr :
  (m ≫= f) q = Ok (b, q2, tr) →
  ∃ a q1 tr1 tr2, m q = Ok (a, q1, tr1) ∧ f a q1 = Ok (b, q2, tr2) ∧ tr = tr1 ++ tr2.
Proof.
  unfold mbind, M_bind. intros H.
  destruct (m q) as [[[a q1] tr1]| | |]; try discriminate H.
  destruct (f a q1) as [[[b' q2'] tr2]| | |] eqn:Hf; try discriminate H.
  injection H as -> -> <-. eauto 8.
Qed.

Lemma steps_one q q' tr : atomic_step q q' tr → atomic_steps q q' tr.
Proof.
  intros H. rewrite <- (app_nil_r tr). eapply steps_cons; [exact H|apply steps_nil].
Qed.

Lemma steps_app q q1 q2 tr1 tr2 :
  atomic_steps q q1 tr1 → atomic_steps q1 q2 tr2 → atomic_steps q q2 (tr1 ++ tr2).
Proof.
  induction 1 as [|q qa qb tra trb Hs _ IH]; intros H2; [exact H2|].
  rewrite <- app_assoc. eapply steps_cons; [exact Hs|exact (IH H2)].
Qed.

Lemma atomic_step_eq q q1 q2 tr :
  atomic_step q q1 tr → q2 = q1 → atomic_step q q2 tr.
Proof. intros H ->. exact H. Qed.

Lemma pushed_release_log t rc : pushed (release_log t rc) = [].
Proof. unfold release_log. destruct (rc - 1 =? 0); reflexivity. Qed.

Lemma decrement_inv t q b q1 tr1 :
  decrement_and_check_reference_count t q = Ok (b, q1, tr1) →
  ∃ nd, tasks q !! t = Some nd ∧ b = (m_ref_count nd - 1 =? 0) ∧
        q1 = upd q t (node_release nd) ∧ tr1 = [EvDecrementRefCount t b].
Proof.
  unfold decrement_and_check_reference_count, mbind, M_bind, get_node.
  destruct (tasks q !! t) as [nd|] eqn:Hnd; [|discriminate].
  simpl. intros H. injection H as <- <- <-. exists nd. auto.
Qed.

(** A relation that holds of nothing done, of one thing done after
    another and of every step but the push holds of every call, as soon
    as it holds of the scheduling of a runnable task, where the pushes
    are. *)
Section Tracking.

Variable R : TaskQueue → TaskQueue → trace → Prop.
Hypothesis R_refl : ∀ q, R q q [].
Hypothesis R_trans :
  ∀ q1 q2 q3 tr1 tr2, R q1 q2 tr1 → R q2 q3 tr2 → R q1 q3 (tr1 ++ tr2).
Hypothesis R_step :
  ∀ q q' tr, atomic_step q q' tr → pushed tr = [] → R q q' tr.

Lemma tracks_ret {A} (a : A) : tracks R (mret a : M A).
Proof. intros q a' q' tr H. injection H as _ <- <-. apply R_refl. Qed.

Lemma tracks_bind {A B} (m : M A) (f : A → M B) :
  tracks R m → (∀ a, tracks R (f a)) → tracks R (m ≫= f).
Proof.
  intros Hm Hf q b q2 tr H.
  apply bind_inv in H as (a & q1 & tr1 & tr2 & H1 & H2 & ->).
  eapply R_trans; [exact (Hm _ _ _ _ H1)|exact (Hf _ _ _ _ _ H2)].
Qed.

(** Runs a node operation on a pool in which the node is known. *)
Ltac run_prim t :=
  let H := fresh "H" in
  intros q a q' tr H;
  unfold mbind, M_bind, get_node in H;
  destruct (tasks q !! t) as [nd|] eqn:Hnd; [|discriminate H];
  simpl in H;
  repeat (match type of H with
          | context [match m_kind ?n with _ => _ end] => destruct (m_kind n) eqn:Hk
          | context [match m_wait_queue ?n with _ => _ end] =>
              destruct (m_wait_queue n) eqn:Hq
          | context [match ?o with Some _ => _ | None => _ end] => destruct o eqn:?
          end; simpl in H);
  try discriminate H;
  injection H as _ <- <-.

Lemma tracks_is_runnable t : tracks R (is_runnable t).
Proof. unfold is_runnable. run_prim t; apply R_refl. Qed.

Lemma tracks_has_predecessor t : tracks R (has_predecessor t).
Proof. unfold has_predecessor. run_prim t; apply R_refl. Qed.

Lemma tracks_get_predecessor t : tracks R (get_predecessor t).
Proof. unfold get_predecessor. run_prim t; apply R_refl. Qed.

Lemma tracks_get_respawn_flag t : tracks R (get_respawn_flag t).
Proof. unfold get_respawn_flag. run_prim t; apply R_refl. Qed.

Lemma tracks_dependence_count t : tracks R (dependence_count t).
Proof. unfold dependence_count. run_prim t; apply R_refl. Qed.

Lemma tracks_get_dependence t i : tracks R (get_dependence t i).
Proof. unfold get_dependence. run_prim t; apply R_refl. Qed.

Lemma tracks_clear_predecessor t : tracks R (clear_predecessor t).
Proof.
  unfold clear_predecessor. run_prim t. apply R_step; [|reflexivity].
  eapply atomic_step_eq; [eapply step_clear_predecessor; eassumption|].
  unfold upd, node_clear_predecessor. rewrite Hk. reflexivity.
Qed.

Lemma tracks_clear_respawn_flag t : tracks R (set_respawn_flag t false).
Proof.
  unfold set_respawn_flag. run_prim t. apply R_step; [|reflexivity].
  eapply atomic_step_eq; [eapply step_clear_respawn; eassumption|].
  unfold upd, node_set_respawn. rewrite Hk. reflexivity.
Qed.

Lemma tracks_try_add_waiting p w : tracks R (try_add_waiting p w).
Proof.
  unfold try_add_waiting. run_prim p; (apply R_step; [|reflexivity]).
  - eapply atomic_step_eq; [eapply step_add_waiter; eassumption|].
    unfold upd, node_add_waiter. rewrite Hq. reflexivity.
  - eapply step_add_refused; eassumption.
Qed.

Lemma tracks_consume_wait_queue t : tracks R (consume_wait_queue t).
Proof.
  unfold consume_wait_queue. intros q a q' tr H.
  unfold mbind, M_bind, get_node in H.
  destruct (tasks q !! t) as [nd|] eqn:Hnd; [|discriminate H].
  simpl in H. injection H as _ <- <-.
  apply R_step; [exact (step_consume q t nd Hnd)|reflexivity].
Qed.

Lemma tracks_clear_dependence t i : tracks R (clear_dependence t i).
Proof.
  unfold clear_dependence. run_prim t. apply R_step; [|reflexivity].
  eapply atomic_step_eq; [eapply step_clear_slot; eassumption|].
  unfold upd, node_clear_slot. rewrite Hk. reflexivity.
Qed.

Lemma tracks_memory_fence : tracks R memory_fence.
Proof.
  intros q a q' tr H. injection H as _ <- <-.
  apply R_step; [apply step_memory_fence|reflexivity].
Qed.

Lemma tracks_increment : tracks R _increment_ready_count.
Proof.
  intros q a q' tr H. injection H as _ <- <-.
  apply R_step; [apply step_increment|reflexivity].
Qed.

Lemma tracks_decrement_ready : tracks R _decrement_ready_count.
Proof.
  intros q a q' tr H. injection H as _ <- <-.
  apply R_step; [apply step_decrement|reflexivity].
Qed.

(** The release of a reference, followed by the rest of the caller. *)
Lemma tracks_release_then {B} t (k : unit → M B) :
  (∀ u, tracks R (k u)) →
  tracks R (should_delete ← decrement_and_check_reference_count t;
            (if should_delete : bool then deallocate t else mret tt) ≫= k).
Proof.
  intros Hk q b q2 tr H.
  apply bind_inv in H as (sd & q1 & tr1 & tr2 & H1 & H2 & ->).
  apply decrement_inv in H1 as (nd & Hnd & Hsd & -> & ->).
  apply bind_inv in H2 as ([] & q1' & tra & trb & Ha & Hb & ->).
  rewrite app_assoc. eapply R_trans; [|exact (Hk _ _ _ _ _ Hb)].
  replace ([EvDecrementRefCount t sd] ++ tra) with (release_log t (m_ref_count nd)).
  - assert (q1' = upd q t (node_release nd)) as ->
        by (destruct sd; injection Ha as <- _; reflexivity).
    apply R_step; [exact (step_release q t nd Hnd)|apply pushed_release_log].
  - unfold release_log. rewrite <- Hsd.
    destruct sd; injection Ha as _ <-; reflexivity.
Qed.

Lemma tracks_release t :
  tracks R (should_delete ← decrement_and_check_reference_count t;
            if should_delete : bool then deallocate t else mret tt).
Proof.
  intros q b q2 tr H.
  apply (tracks_release_then t (λ u, mret u) (λ u, tracks_ret u) q b q2 tr).
  apply bind_inv in H as (sd & q1 & tr1 & tr2 & H1 & H2 & ->).
  rewrite (bind_Ok _ _ _ _ _ _ H1).
  unfold mbind at 1, M_bind at 1. rewrite H2. simpl. rewrite app_nil_r.
  destruct b. reflexivity.
Qed.

(** Decomposes a computation into the operations it is made of. *)
Ltac tracks_tac :=
  repeat first
    [ apply tracks_ret
    | apply tracks_is_runnable | apply tracks_has_predecessor
    | apply tracks_get_predecessor | apply tracks_get_respawn_flag
    | apply tracks_dependence_count | apply tracks_get_dependence
    | apply tracks_clear_predecessor | apply tracks_clear_respawn_flag
    | apply tracks_try_add_waiting | apply tracks_consume_wait_queue
    | apply tracks_clear_dependence | apply tracks_memory_fence
    | apply tracks_increment | apply tracks_decrement_ready
    | apply tracks_release
    | apply tracks_release_then; intros ?
    | assumption
    | apply tracks_bind; [|intros ?]
    | match goal with
      | |- tracks _ (if ?b then _ else _) => destruct b
      | |- tracks _ (match ?o with Some _ => _ | None => _ end) => destruct o
      end ].

(** What [_schedule_runnable_to_queue] does once it has cleared the
    predecessor [p] of the task, up to the test of readiness. *)
Lemma tracks_park_on_predecessor p t :
  tracks R (memory_fence;;
            predecessor_not_ready ← try_add_waiting p t;
            respawn ← get_respawn_flag t;
            (if respawn : bool then
               should_delete ← decrement_and_check_reference_count p;
               if should_delete : bool then deallocate p else mret tt
             else mret tt);;
            mret (negb predecessor_not_ready)).
Proof. tracks_tac. Qed.

Lemma tracks_scan_slot t i : tracks R (scan_slot t i).
Proof. unfold scan_slot. tracks_tac. Qed.

Lemma tracks_scan_dependences t k : tracks R (scan_dependences t k).
Proof.
  induction k as [|i IH]; simpl; [apply tracks_ret|].
  apply tracks_bind; [apply tracks_scan_slot|]. intros []; tracks_tac.
Qed.

Hypothesis R_wake : ∀ t, tracks R (schedule_runnable t).

Lemma tracks_schedule_aggregate_with complete t :
  (∀ x, tracks R (complete x)) →
  tracks R (schedule_aggregate_with complete t).
Proof.
  intros Hc. unfold schedule_aggregate_with.
  apply tracks_bind; [apply tracks_dependence_count|]. intros n.
  apply tracks_bind; [apply tracks_scan_dependences|].
  intros []; simpl; [apply tracks_ret|apply Hc].
Qed.

Lemma tracks_visit_waiters complete ws :
  (∀ x, tracks R (complete x)) →
  tracks R (visit_waiters complete ws).
Proof.
  intros Hc. induction ws as [|w ws IH]; simpl; [apply tracks_ret|].
  apply tracks_bind; [|intros _; exact IH].
  unfold _schedule_waiting_tasks_operation.
  apply tracks_bind; [apply tracks_is_runnable|].
  intros []; [apply R_wake|].
  apply tracks_schedule_aggregate_with, Hc.
Qed.

Lemma tracks_complete_finished_task fuel :
  ∀ t, tracks R (_complete_finished_task fuel t).
Proof.
  induction fuel as [|fuel IH]; intros t; simpl.
  - intros q a q' tr H. discriminate H.
  - apply tracks_bind; [apply tracks_consume_wait_queue|]. intros ws.
    apply tracks_bind; [apply tracks_visit_waiters, IH|]. intros _.
    apply tracks_release.
Qed.

Lemma tracks_run_call fuel c : tracks R (run_call fuel c).
Proof.
  destruct c as [t|t|t|t]; simpl.
  - unfold complete_runnable.
    apply tracks_bind; [apply tracks_get_respawn_flag|]. intros r.
    apply tracks_bind; [|intros _; apply tracks_decrement_ready].
    destruct r; [apply R_wake|].
    apply tracks_complete_finished_task.
  - apply tracks_complete_finished_task.
  - apply R_wake.
  - apply tracks_schedule_aggregate_with. intros x.
    apply tracks_complete_finished_task.
Qed.

Lemma tracks_run_calls fuel cs : tracks R (run_calls fuel cs).
Proof.
  induction cs as [|c cs IH]; simpl; [apply tracks_ret|].
  apply tracks_bind; [apply tracks_run_call|intros _; exact IH].
Qed.

End Tracking.

Lemma quiet_steps_refl q : quiet_steps q q [].
Proof. split; [apply steps_nil|reflexivity]. Qed.

Lemma quiet_steps_trans q1 q2 q3 tr1 tr2 :
  quiet_steps q1 q2 tr1 → quiet_steps q2 q3 tr2 → quiet_steps q1 q3 (tr1 ++ tr2).
Proof.
  intros [H1 P1] [H2 P2]. split; [eapply steps_app; eassumption|].
  rewrite pushed_app, P1, P2. reflexivity.
Qed.

Lemma quiet_steps_step q q' tr :
  atomic_step q q' tr → pushed tr = [] → quiet_steps q q' tr.
Proof. intros H P. split; [apply steps_one, H|exact P]. Qed.


(** ** What the steps do to a node *)

Section NodeInvariant.

Variable N : TaskNode → TaskNode → Prop.
Hypothesis N_refl : ∀ nd, N nd nd.
Hypothesis N_trans : ∀ n1 n2 n3, N n1 n2 → N n2 n3 → N n1 n3.
Hypothesis N_step : ∀ nd nd', node_step nd nd' → N nd nd'.

Lemma nodewise_refl q : nodewise N q q.
Proof. intros x nd H. eauto. Qed.

Lemma nodewise_trans q1 q2 q3 :
  nodewise N q1 q2 → nodewise N q2 q3 → nodewise N q1 q3.
Proof.
  intros H12 H23 x nd H.
  destruct (H12 x nd H) as (nd2 & H2 & Hn2).
  destruct (H23 x nd2 H2) as (nd3 & H3 & Hn3). eauto.
Qed.

Lemma nodewise_upd q t nd nd' :
  tasks q !! t = Some nd → node_step nd nd' → nodewise N q (upd q t nd').
Proof.
  intros Hnd Hstep x ndx Hx. destruct (decide (t = x)) as [->|Hne].
  - assert (ndx = nd) as -> by congruence.
    exists nd'. split; [|apply N_step, Hstep].
    apply tasks_upd_eq. eapply lookup_lt_Some, Hnd.
  - exists ndx. split; [|apply N_refl].
    rewrite tasks_upd_ne by exact Hne. exact Hx.
Qed.

Lemma nodewise_fields q c rq : nodewise N q (mkTaskQueue (tasks q) c rq).
Proof. intros x nd H. eauto. Qed.

Lemma atomic_step_nodewise q q' tr : atomic_step q q' tr → nodewise N q q'.
Proof.
  destruct 1; try apply nodewise_refl; try apply nodewise_fields;
    (eapply nodewise_upd; [eassumption|]); unfold node_step; eauto 10.
Qed.

Lemma atomic_steps_nodewise q q' tr : atomic_steps q q' tr → nodewise N q q'.
Proof.
  induction 1 as [|q q1 q2 tr1 tr2 Hs _ IH]; [apply nodewise_refl|].
  eapply nodewise_trans; [exact (atomic_step_nodewise _ _ _ Hs)|exact IH].
Qed.

End NodeInvariant.

Lemma links_le_refl nd : links_le nd nd.
Proof. unfold links_le. destruct (m_kind nd); auto. Qed.

Lemma links_le_trans n1 n2 n3 : links_le n1 n2 → links_le n2 n3 → links_le n1 n3.
Proof.
  unfold links_le.
  destruct (m_kind n1) as [p1 r1|ds1], (m_kind n2) as [p2 r2|ds2],
    (m_kind n3) as [p3 r3|ds3]; try done.
  - intros [[->| ->] [->| ->]] [[->| ->] [->| ->]]; auto.
  - intros [Hl1 H1] [Hl2 H2]. split; [congruence|].
    intros i. destruct (H2 i) as [H|H]; [auto|].
    rewrite H. apply H1.
Qed.

Lemma links_le_step nd nd' : node_step nd nd' → links_le nd nd'.
Proof.
  unfold links_le.
  intros [->|[->|[[w ->]|[->|[->|[i ->]]]]]].
  - unfold node_clear_predecessor. destruct (m_kind nd) eqn:E; simpl; rewrite ?E; auto.
  - unfold node_set_respawn. destruct (m_kind nd) eqn:E; simpl; rewrite ?E; auto.
  - rewrite m_kind_add_waiter. apply links_le_refl.
  - simpl. apply links_le_refl.
  - simpl. apply links_le_refl.
  - unfold node_clear_slot. destruct (m_kind nd) as [p r|ds] eqn:E; simpl; rewrite ?E; auto.
    split; [apply length_insert|]. intros j.
    destruct (decide (i = j)) as [->|Hne].
    + destruct (decide (j < length ds)%nat).
      * left. apply list_lookup_insert_eq. assumption.
      * right. rewrite list_insert_ge by lia. reflexivity.
    + right. apply list_lookup_insert_ne, Hne.
Qed.


(** What [_schedule_runnable_to_queue] has done when it returns: steps
    that push nothing, after which the task names no predecessor; then
    the respawn flag is cleared; then the task is pushed, or not. *)
Lemma schedule_runnable_inv t q q' tr :
  schedule_runnable t q = Ok (tt, q', tr) →
  ∃ q2 tr2 nd2 r2 (ready : bool),
    quiet_steps q q2 tr2 ∧
    tasks q2 !! t = Some nd2 ∧ m_kind nd2 = RunnableTask None r2 ∧
    q' = (if ready then enqueue (upd q2 t (node_set_respawn false nd2)) t
          else upd q2 t (node_set_respawn false nd2)) ∧
    tr = tr2 ++ EvSetRespawnFlag t false ::
         (if ready then [EvIncrementReadyCount; EvPush t] else []).
Proof.
  unfold schedule_runnable, _schedule_runnable_to_queue. intros H.
  apply bind_inv in H as (hp & q1 & tr1 & tr' & H1 & H & ->).
  apply bind_inv in H as (ready & q2 & tr2 & tr'' & H2 & H & ->).
  apply bind_inv in H as ([] & q3 & tr3 & tr4 & H3 & H4 & ->).
  unfold has_predecessor, mbind, M_bind, get_node in H1.
  destruct (tasks q !! t) as [nd|] eqn:Hnd; [|discriminate H1]. simpl in H1.
  destruct (m_kind nd) as [p r|] eqn:Hk; [|discriminate H1].
  injection H1 as <- <- <-.
  assert (Hpre : quiet_steps q q2 tr2 ∧
                 ∃ nd2 r2, tasks q2 !! t = Some nd2 ∧ m_kind nd2 = RunnableTask None r2).
  { destruct p as [p|].
    - apply bind_inv in H2 as (p' & qa & tra & trb & Ha & H2 & ->).
      rewrite (run_get_predecessor q t nd Hnd _ _ Hk) in Ha.
      injection Ha as <- <- <-.
      apply bind_inv in H2 as ([] & qb & trc & trd & Hb & H2 & ->).
      rewrite (run_clear_predecessor q t nd Hnd _ _ Hk) in Hb.
      injection Hb as <- <-.
      pose proof (tracks_park_on_predecessor quiet_steps quiet_steps_refl
                    quiet_steps_trans quiet_steps_step p t _ _ _ _ H2) as Hq.
      split.
      + simpl. eapply (quiet_steps_trans q _ q2 [EvClearPredecessor t] trd); [|exact Hq].
        apply quiet_steps_step; [|reflexivity].
        exact (step_clear_predecessor q t nd _ _ Hnd Hk).
      + assert (Hlt : (t < length (tasks q))%nat) by (eapply lookup_lt_Some, Hnd).
        destruct (atomic_steps_nodewise links_le links_le_refl links_le_trans
                    links_le_step _ _ _ (proj1 Hq) t (node_clear_predecessor nd)
                    (tasks_upd_eq q t _ Hlt)) as (nd2 & Hnd2 & Hl).
        unfold links_le, node_clear_predecessor in Hl. rewrite Hk in Hl. simpl in Hl.
        destruct (m_kind nd2) as [p2 r2|] eqn:Hk2; [|contradiction].
        exists nd2, r2. split; [exact Hnd2|].
        destruct Hl as [[->| ->] _]; exact Hk2.
    - injection H2 as <- <- <-. split; [apply quiet_steps_refl|eauto]. }
  destruct Hpre as (Hq & nd2 & r2 & Hnd2 & Hk2).
  rewrite (run_set_respawn_flag q2 t nd2 Hnd2 _ _ false Hk2) in H3.
  injection H3 as <- <-.
  exists q2, tr2, nd2, r2, ready. split; [exact Hq|]. split; [exact Hnd2|].
  split; [exact Hk2|].
  destruct ready.
  - rewrite run_increment_push in H4. injection H4 as <- <-.
    rewrite app_nil_l. auto.
  - injection H4 as <- <-. rewrite app_nil_l. auto.
Qed.

Lemma steps_schedule_runnable t : tracks atomic_steps (schedule_runnable t).
Proof.
  intros q [] q' tr H.
  apply schedule_runnable_inv in H
    as (q2 & tr2 & nd2 & r2 & ready & [Hq _] & Hnd2 & Hk2 & -> & ->).
  eapply steps_app; [exact Hq|].
  change (EvSetRespawnFlag t false ::
          (if ready then [EvIncrementReadyCount; EvPush t] else []))
    with ([EvSetRespawnFlag t false] ++
          (if ready then [EvIncrementReadyCount; EvPush t] else [])).
  eapply steps_cons; [exact (step_clear_respawn q2 t nd2 _ _ Hnd2 Hk2)|].
  destruct ready; [|apply steps_nil].
  change [EvIncrementReadyCount; EvPush t]
    with ([EvIncrementReadyCount] ++ [EvPush t] ++ []).
  eapply steps_cons; [apply step_increment|].
  eapply steps_cons; [apply step_push|apply steps_nil].
Qed.

Lemma steps_run_calls fuel cs : tracks atomic_steps (run_calls fuel cs).
Proof.
  apply tracks_run_calls.
  - exact steps_nil.
  - exact steps_app.
  - intros q q' tr H _. apply steps_one, H.
  - exact steps_schedule_runnable.
Qed.

(** ** Any sequence of calls returns *)

Lemma count_push_length tr : count_events is_push tr = length (pushed tr).
Proof.
  induction tr as [|e tr IH]; [reflexivity|].
  destruct e; simpl; rewrite ?IH; reflexivity.
Qed.

Lemma accounted_of_sound q q' tr :
  sound q q' tr → accounted (shape q) q q' tr 0.
Proof.
  intros (_ & Hw & Hc & Hr).
  destruct (wakes_only_count _ _ Hw) as (Hdec & Hinc & Hpush).
  repeat split; try assumption.
  rewrite Hinc. apply count_push_length.
Qed.

Lemma accounted_trans sh q q1 q2 tr1 tr2 n1 n2 :
  accounted sh q q1 tr1 n1 → accounted sh q1 q2 tr2 n2 →
  accounted sh q q2 (tr1 ++ tr2) (n1 + n2).
Proof.
  intros (Hc1 & Hr1 & Hi1 & Hd1 & Hp1) (Hc2 & Hr2 & Hi2 & Hd2 & Hp2).
  split; [rewrite replay_ready_app, <- Hc1; exact Hc2|].
  split; [rewrite pushed_app, app_assoc, <- Hr1; exact Hr2|].
  split; [rewrite count_events_app, pushed_app, length_app; lia|].
  split; [rewrite count_events_app; lia|].
  rewrite pushed_app. apply Forall_app. auto.
Qed.

Lemma descends_count_down q q' : descends q q' → descends q (count_down q').
Proof. intros (Hs & Hw & Ho). repeat split; assumption. Qed.

Lemma run_call_wp fuel c q :
  wf q → call_ok (shape q) c → (open_count q < fuel)%nat →
  wp (run_call fuel c) q (λ _ q' tr,
    descends q q' ∧ accounted (shape q) q q' tr (completions [c])).
Proof.
  intros Hwf Hok Hfuel. destruct c as [t|t|t|t]; simpl in *.
  - pose proof Hok as Hsh. apply shape_runnable in Hsh as (nd & p & r & Hnd & Hk).
    assert (Hin : wp (if r then schedule_runnable t else _complete_finished_task fuel t)
                    q (λ _ q1 tr1, sound q q1 tr1)).
    { destruct r; [apply schedule_runnable_sound; assumption|].
      eapply wp_mono; [exact (complete_finished_task_spec fuel q t nd Hwf Hnd Hfuel)|].
      cbv beta. intros _ q1 tr1 (Hs & _). exact Hs. }
    destruct Hin as ([] & q1 & tr1 & Hrun & Hs).
    eapply wp_exact; [exact (complete_runnable_run fuel q t nd p r q1 tr1 Hnd Hk Hrun)|].
    split; [apply descends_count_down, Hs|].
    change 1%nat with (0 + 1)%nat.
    eapply accounted_trans; [apply accounted_of_sound, Hs|].
    repeat split; try reflexivity; simpl; rewrite ?app_nil_r; auto.
  - destruct Hok as (n & Hsh). apply shape_aggregate in Hsh as (nd & ds & Hnd & _).
    eapply wp_mono; [exact (complete_finished_task_spec fuel q t nd Hwf Hnd Hfuel)|].
    cbv beta. intros _ q1 tr1 (Hs & _).
    split; [apply Hs|apply accounted_of_sound, Hs].
  - eapply wp_mono; [exact (schedule_runnable_sound q t Hwf Hok)|].
    cbv beta. intros _ q1 tr1 Hs.
    split; [apply Hs|apply accounted_of_sound, Hs].
  - destruct Hok as (n & Hsh).
    eapply wp_mono.
    + apply schedule_aggregate_with_sound with (bound := fuel) (n := n);
        try assumption.
      intros q1 t1 Hwf1 Ht1 Hb1.
      destruct (lookup_lt_is_Some_2 _ _ Ht1) as [nd1 Hnd1].
      eapply wp_mono; [exact (complete_finished_task_spec fuel q1 t1 nd1 Hwf1 Hnd1 Hb1)|].
      cbv beta. intros _ q2 tr2 (Hs & _). exact Hs.
    + cbv beta. intros _ q1 tr1 Hs.
      split; [apply Hs|apply accounted_of_sound, Hs].
Qed.

Lemma completions_cons c cs :
  completions (c :: cs) = (completions [c] + completions cs)%nat.
Proof. destruct c; reflexivity. Qed.

Lemma run_calls_wp fuel cs :
  ∀ q, wf q → Forall (call_ok (shape q)) cs → (open_count q < fuel)%nat →
       wp (run_calls fuel cs) q (λ _ q' tr,
         descends q q' ∧ accounted (shape q) q q' tr (completions cs)).
Proof.
  induction cs as [|c cs IH]; intros q Hwf Hok Hfuel.
  - apply wp_ret. split; [apply descends_refl, Hwf|].
    repeat split; simpl; rewrite ?app_nil_r; auto.
  - inversion Hok as [|? ? Hc Hcs]; subst. simpl run_calls.
    apply wp_bind.
    eapply wp_mono; [exact (run_call_wp fuel c q Hwf Hc Hfuel)|].
    cbv beta. intros _ q1 tr1 (Hd1 & Ha1).
    pose proof Hd1 as (Hs1 & Hwf1 & Ho1).
    eapply wp_mono.
    + apply IH; [exact Hwf1|rewrite Hs1; exact Hcs|lia].
    + cbv beta. intros _ q2 tr2 (Hd2 & Ha2).
      split; [eapply descends_trans; eassumption|].
      rewrite completions_cons. rewrite Hs1 in Ha2.
      eapply accounted_trans; eassumption.
Qed.

(** X1.  On a well-formed pool, any sequence of calls that name tasks of
    the right kind returns, given a recursion budget above the number of
    wait queues still open: no call faults and the wake-up recursion
    ends.  The pool is left well formed, with the same kinds of node at
    the same addresses and with no more open wait queues than before. *)
Theorem calls_return_and_keep_pool_well_formed fuel cs q :
  wf q → Forall (call_ok (shape q)) cs → (open_count q < fuel)%nat →
  ∃ q' tr,
    run_calls fuel cs q = Ok (tt, q', tr) ∧
    wf q' ∧
    shape q' = shape q ∧
    (open_count q' ≤ open_count q)%nat.
Proof.
  intros Hwf Hok Hfuel.
  destruct (run_calls_wp fuel cs q Hwf Hok Hfuel)
    as ([] & q' & tr & Hrun & (Hs & Hwf' & Ho) & _).
  exists q', tr. auto.
Qed.

Lemma calls_return_and_keep_pool_well_formed_witness :
  wf three_and_aggregate ∧
  Forall (call_ok (shape three_and_aggregate))
    [ScheduleAggregate 3%nat; CompleteRunnable 1%nat; CompleteRunnable 2%nat;
     CompleteRunnable 0%nat] ∧
  (open_count three_and_aggregate < 5)%nat ∧
  ∃ q' tr,
    run_calls 5 [ScheduleAggregate 3%nat; CompleteRunnable 1%nat;
                 CompleteRunnable 2%nat; CompleteRunnable 0%nat]
      three_and_aggregate = Ok (tt, q', tr) ∧
    wf q' ∧
    shape q' = shape three_and_aggregate ∧
    (open_count q' ≤ open_count three_and_aggregate)%nat.
Proof.
  assert (Hwf : wf three_and_aggregate) by decide_wf.
  assert (Hok : Forall (call_ok (shape three_and_aggregate))
                  [ScheduleAggregate 3%nat; CompleteRunnable 1%nat;
                   CompleteRunnable 2%nat; CompleteRunnable 0%nat]).
  { repeat constructor. exists 3%nat. reflexivity. }
  assert (Hfuel : (open_count three_and_aggregate < 5)%nat) by (vm_compute; lia).
  split; [exact Hwf|]. split; [exact Hok|]. split; [exact Hfuel|].
  exact (calls_return_and_keep_pool_well_formed 5 _ three_and_aggregate Hwf Hok Hfuel).
Defined.

(** ** What no call ever does to a task *)

Lemma calls_nodewise (N : TaskNode → TaskNode → Prop) fuel cs q :
  (∀ nd, N nd nd) →
  (∀ a b c, N a b → N b c → N a c) →
  (∀ nd nd', node_step nd nd' → N nd nd') →
  wf q → Forall (call_ok (shape q)) cs → (open_count q < fuel)%nat →
  ∃ q' tr, run_calls fuel cs q = Ok (tt, q', tr) ∧ nodewise N q q'.
Proof.
  intros Hrefl Htrans Hstep Hwf Hok Hfuel.
  destruct (run_calls_wp fuel cs q Hwf Hok Hfuel) as ([] & q' & tr & Hrun & _).
  exists q', tr. split; [exact Hrun|].
  exact (atomic_steps_nodewise N Hrefl Htrans Hstep q q' tr
           (steps_run_calls fuel cs q tt q' tr Hrun)).
Qed.

(** X2.  Dependences and respawn flags are only ever cleared: whatever
    sequence of calls runs, a runnable task is still a runnable task,
    whose predecessor is the one it had or none and whose respawn flag
    is the one it had or cleared, and an aggregate is still an aggregate
    over as many slots, each holding the task it held or nothing.  No
    call gives a task a dependence it did not have, and none asks for a
    respawn. *)
Theorem calls_only_clear_dependences fuel cs q :
  wf q → Forall (call_ok (shape q)) cs → (open_count q < fuel)%nat →
  ∃ q' tr,
    run_calls fuel cs q = Ok (tt, q', tr) ∧
    ∀ x nd, tasks q !! x = Some nd →
      ∃ nd', tasks q' !! x = Some nd' ∧
        match m_kind nd, m_kind nd' with
        | RunnableTask p r, RunnableTask p' r' =>
            (p' = None ∨ p' = p) ∧ (r' = false ∨ r' = r)
        | AggregateTask ds, AggregateTask ds' =>
            length ds' = length ds ∧
            ∀ i, ds' !! i = Some None ∨ ds' !! i = ds !! i
        | _, _ => False
        end.
Proof.
  intros Hwf Hok Hfuel.
  apply (calls_nodewise links_le); try assumption.
  - exact links_le_refl.
  - exact links_le_trans.
  - exact links_le_step.
Qed.

Lemma calls_only_clear_dependences_witness :
  ∃ q' tr,
    run_calls 3 [ScheduleAggregate 3%nat; CompleteRunnable 1%nat]
      aggregate_of_three = Ok (tt, q', tr) ∧
    ∀ x nd, tasks aggregate_of_three !! x = Some nd →
      ∃ nd', tasks q' !! x = Some nd' ∧
        match m_kind nd, m_kind nd' with
        | RunnableTask p r, RunnableTask p' r' =>
            (p' = None ∨ p' = p) ∧ (r' = false ∨ r' = r)
        | AggregateTask ds, AggregateTask ds' =>
            length ds' = length ds ∧
            ∀ i, ds' !! i = Some None ∨ ds' !! i = ds !! i
        | _, _ => False
        end.
Proof.
  apply (calls_only_clear_dependences 3 _ aggregate_of_three).
  - decide_wf.
  - repeat constructor. exists 3%nat. reflexivity.
  - vm_compute. lia.
Defined.

(** ** The ready count over a sequence of calls *)

Lemma replay_ready_wrap tr :
  ∀ c, int32_range c →
       replay_ready c tr =
         wrap32 (c + Z.of_nat (count_events is_increment tr)
                   - Z.of_nat (count_events is_decrement tr)).
Proof.
  unfold int32_range.
  induction tr as [|e tr IH]; intros c Hc.
  - simpl. rewrite wrap32_in_range by lia. lia.
  - destruct e; simpl replay_ready; simpl count_events;
      try (rewrite (IH c Hc); f_equal; lia).
    + rewrite (IH _ (wrap32_range _)), <- Z.add_sub_assoc, wrap32_wrap32_add.
      f_equal. lia.
    + rewrite (IH _ (wrap32_range _)), <- Z.add_sub_assoc, wrap32_wrap32_add.
      f_equal. lia.
Qed.

(** X3.  The ready count is the number of tasks in flight.  Over any
    sequence of calls, the count at the end is the count at the start,
    plus one for each task pushed on the ready queue, minus one for each
    completion of a runnable task, as a 32-bit integer; the ready queue
    is the old one followed by the tasks pushed, in the order of the
    log; and only runnable tasks are pushed, never an aggregate. *)
Theorem calls_ready_count_accounting fuel cs q :
  wf q → Forall (call_ok (shape q)) cs → (open_count q < fuel)%nat →
  int32_range (m_ready_count q) →
  ∃ q' tr,
    run_calls fuel cs q = Ok (tt, q', tr) ∧
    m_ready_count q' =
      wrap32 (m_ready_count q + Z.of_nat (length (pushed tr))
                - Z.of_nat (completions cs)) ∧
    ready_queue q' = ready_queue q ++ pushed tr ∧
    Forall (λ w, ∃ nd p r, tasks q !! w = Some nd ∧ m_kind nd = RunnableTask p r)
           (pushed tr).
Proof.
  intros Hwf Hok Hfuel Hrange.
  destruct (run_calls_wp fuel cs q Hwf Hok Hfuel)
    as ([] & q' & tr & Hrun & _ & Hc & Hr & Hi & Hd & Hp).
  exists q', tr. split; [exact Hrun|].
  split; [|split; [exact Hr|]].
  - rewrite Hc, (replay_ready_wrap tr _ Hrange), Hi, Hd. reflexivity.
  - eapply List.Forall_impl; [|exact Hp].
    intros w Hw. apply shape_runnable in Hw. exact Hw.
Qed.

Lemma calls_ready_count_accounting_witness :
  ∃ q' tr,
    run_calls 3 [ScheduleRunnable 1%nat; ScheduleRunnable 0%nat;
                 CompleteRunnable 0%nat; CompleteRunnable 1%nat]
      two_tasks = Ok (tt, q', tr) ∧
    m_ready_count q' =
      wrap32 (m_ready_count two_tasks + Z.of_nat (length (pushed tr))
                - Z.of_nat 2) ∧
    ready_queue q' = ready_queue two_tasks ++ pushed tr ∧
    Forall (λ w, ∃ nd p r,
              tasks two_tasks !! w = Some nd ∧ m_kind nd = RunnableTask p r)
           (pushed tr).
Proof.
  apply (calls_ready_count_accounting 3
           [ScheduleRunnable 1%nat; ScheduleRunnable 0%nat;
            CompleteRunnable 0%nat; CompleteRunnable 1%nat] two_tasks).
  - decide_wf.
  - repeat constructor.
  - vm_compute. lia.
  - unfold int32_range. change (m_ready_count two_tasks) with 0. lia.
Defined.

(** X4.  [is_done] tells when the work is over, and the destructor
    agrees.  On a tracker that starts at zero, after any sequence of
    calls that pushed fewer than 2^31 tasks and completed fewer than
    2^31, [is_done] answers true if and only if as many runnable tasks
    were completed as were pushed; and the destructor returns in exactly
    that case, and is a contract violation otherwise. *)
Theorem is_done_iff_pushes_completed fuel cs q q' tr :
  m_ready_count q = 0 →
  wf q → Forall (call_ok (shape q)) cs → (open_count q < fuel)%nat →
  run_calls fuel cs q = Ok (tt, q', tr) →
  Z.of_nat (length (pushed tr)) < 2 ^ 31 →
  Z.of_nat (completions cs) < 2 ^ 31 →
  (is_done q' = true ↔ length (pushed tr) = completions cs) ∧
  destroy_TaskQueueCommonMixin q' =
    (if bool_decide (length (pushed tr) = completions cs)
     then Ok (tt, q', []) else ContractViolation).
Proof.
  intros H0 Hwf Hok Hfuel Hrun HP HC.
  destruct (run_calls_wp fuel cs q Hwf Hok Hfuel)
    as ([] & q2 & tr2 & Hrun2 & _ & Hc & _ & Hi & Hd & _).
  rewrite Hrun in Hrun2. injection Hrun2 as <- <-.
  assert (Hcount : m_ready_count q' =
                   Z.of_nat (length (pushed tr)) - Z.of_nat (completions cs)).
  { rewrite Hc, (replay_ready_wrap tr), Hi, Hd, H0
      by (unfold int32_range; rewrite H0; lia).
    rewrite wrap32_in_range by lia. lia. }
  unfold destroy_TaskQueueCommonMixin, KOKKOS_EXPECTS, is_done.
  rewrite Hcount. split.
  - rewrite Z.eqb_eq. lia.
  - case_bool_decide as Heq.
    + rewrite Heq, Z.sub_diag. reflexivity.
    + destruct (Z.eqb_spec (Z.of_nat (length (pushed tr)) - Z.of_nat (completions cs)) 0)
        as [Hz|Hz]; [lia|reflexivity].
Qed.

Lemma is_done_iff_pushes_completed_witness :
  ∃ q' tr,
    run_calls 3 [ScheduleRunnable 1%nat; ScheduleRunnable 0%nat;
                 CompleteRunnable 0%nat; CompleteRunnable 1%nat]
      two_tasks = Ok (tt, q', tr) ∧
    (is_done q' = true ↔ length (pushed tr) = 2%nat) ∧
    destroy_TaskQueueCommonMixin q' =
      (if bool_decide (length (pushed tr) = 2%nat)
       then Ok (tt, q', []) else ContractViolation).
Proof.
  eexists _, _. split; [vm_compute; reflexivity|].
  apply (is_done_iff_pushes_completed 3
           [ScheduleRunnable 1%nat; ScheduleRunnable 0%nat;
            CompleteRunnable 0%nat; CompleteRunnable 1%nat] two_tasks).
  - reflexivity.
  - decide_wf.
  - repeat constructor.
  - vm_compute. lia.
  - vm_compute. reflexivity.
  - vm_compute. reflexivity.
  - vm_compute. reflexivity.
Defined.

(** ** Reference counts and the storage of tasks *)

Lemma atomic_step_frees q q' tr : atomic_step q q' tr → frees_at_zero tr.
Proof.
  destruct 1; try (apply faz_keep; [reflexivity|apply faz_nil]).
  unfold release_log. destruct (m_ref_count nd - 1 =? 0).
  - apply faz_free, faz_nil.
  - apply faz_keep; [reflexivity|apply faz_nil].
Qed.

Lemma frees_at_zero_app tr1 tr2 :
  frees_at_zero tr1 → frees_at_zero tr2 → frees_at_zero (tr1 ++ tr2).
Proof.
  induction 1; intros H2; simpl; [exact H2|apply faz_keep|apply faz_free]; auto.
Qed.

Lemma atomic_steps_frees q q' tr : atomic_steps q q' tr → frees_at_zero tr.
Proof.
  induction 1 as [|q q1 q2 tr1 tr2 Hs _ IH]; [apply faz_nil|].
  apply frees_at_zero_app; [exact (atomic_step_frees _ _ _ Hs)|exact IH].
Qed.

Lemma frees_at_zero_deallocate tr :
  frees_at_zero tr →
  ∀ tr1 t tr2, tr = tr1 ++ EvDeallocate t :: tr2 →
               ∃ tr0, tr1 = tr0 ++ [EvDecrementRefCount t true].
Proof.
  induction 1 as [|e tr He _ IH|t' tr _ IH]; intros tr1 t tr2 Heq.
  - destruct tr1; discriminate Heq.
  - destruct tr1 as [|e1 tr1]; simpl in Heq.
    + injection Heq as -> _. discriminate He.
    + injection Heq as <- Heq. destruct (IH _ _ _ Heq) as [tr0 ->].
      exists (e :: tr0). reflexivity.
  - destruct tr1 as [|e1 [|e2 tr1]]; simpl in Heq.
    + discriminate Heq.
    + injection Heq as <- <- _. exists []. reflexivity.
    + injection Heq as <- <- Heq. destruct (IH _ _ _ Heq) as [tr0 ->].
      exists (EvDecrementRefCount t' true :: EvDeallocate t' :: tr0). reflexivity.
Qed.

Lemma frees_at_zero_reaches_zero tr :
  frees_at_zero tr →
  ∀ tr1 t tr2, tr = tr1 ++ EvDecrementRefCount t true :: tr2 →
               ∃ tr3, tr2 = EvDeallocate t :: tr3.
Proof.
  induction 1 as [|e tr He _ IH|t' tr Htr IH]; intros tr1 t tr2 Heq.
  - destruct tr1; discriminate Heq.
  - destruct tr1 as [|e1 tr1]; simpl in Heq.
    + injection Heq as -> _. discriminate He.
    + injection Heq as <- Heq. exact (IH _ _ _ Heq).
  - destruct tr1 as [|e1 [|e2 tr1]]; simpl in Heq.
    + injection Heq as <- <-. eauto.
    + discriminate Heq.
    + injection Heq as <- <- Heq. exact (IH _ _ _ Heq).
Qed.

(** X5.  The storage of a task is returned exactly when a release has
    brought its reference count to zero, and at once.  In the log of any
    sequence of calls, every deallocation of a task comes right after a
    release of that task that reported zero, and every release that
    reports zero is followed at once by the deallocation of its task. *)
Theorem calls_deallocate_exactly_at_zero fuel cs q :
  wf q → Forall (call_ok (shape q)) cs → (open_count q < fuel)%nat →
  ∃ q' tr,
    run_calls fuel cs q = Ok (tt, q', tr) ∧
    (∀ tr1 t tr2, tr = tr1 ++ EvDeallocate t :: tr2 →
                  ∃ tr0, tr1 = tr0 ++ [EvDecrementRefCount t true]) ∧
    (∀ tr1 t tr2, tr = tr1 ++ EvDecrementRefCount t true :: tr2 →
                  ∃ tr3, tr2 = EvDeallocate t :: tr3).
Proof.
  intros Hwf Hok Hfuel.
  destruct (run_calls_wp fuel cs q Hwf Hok Hfuel) as ([] & q' & tr & Hrun & _).
  exists q', tr. split; [exact Hrun|].
  pose proof (atomic_steps_frees _ _ _ (steps_run_calls fuel cs q tt q' tr Hrun))
    as Hfaz.
  split; [exact (frees_at_zero_deallocate tr Hfaz)
         |exact (frees_at_zero_reaches_zero tr Hfaz)].
Qed.

Lemma calls_deallocate_exactly_at_zero_witness :
  ∃ q' tr,
    run_calls 3 [ScheduleRunnable 1%nat; CompleteRunnable 1%nat]
      respawned_on_done = Ok (tt, q', tr) ∧
    (∀ tr1 t tr2, tr = tr1 ++ EvDeallocate t :: tr2 →
                  ∃ tr0, tr1 = tr0 ++ [EvDecrementRefCount t true]) ∧
    (∀ tr1 t tr2, tr = tr1 ++ EvDecrementRefCount t true :: tr2 →
                  ∃ tr3, tr2 = EvDeallocate t :: tr3).
Proof.
  apply (calls_deallocate_exactly_at_zero 3 _ respawned_on_done).
  - decide_wf.
  - repeat constructor.
  - vm_compute. lia.
Defined.

Lemma releases_app x tr1 tr2 :
  releases x (tr1 ++ tr2) = (releases x tr1 + releases x tr2)%nat.
Proof.
  induction tr1 as [|e tr1 IH]; [reflexivity|].
  destruct e; simpl; rewrite ?IH; lia.
Qed.

Lemma deallocations_app x tr1 tr2 :
  deallocations x (tr1 ++ tr2) = (deallocations x tr1 + deallocations x tr2)%nat.
Proof.
  induction tr1 as [|e tr1 IH]; [reflexivity|].
  destruct e; simpl; rewrite ?IH; lia.
Qed.

(** What one step does to the count of [x]: nothing, or one release,
    with the deallocation when the count was one. *)
Lemma atomic_step_counts x q q1 tr1 nd :
  atomic_step q q1 tr1 → tasks q !! x = Some nd →
  ∃ nd1, tasks q1 !! x = Some nd1 ∧
    ((m_ref_count nd1 = m_ref_count nd ∧
      releases x tr1 = 0%nat ∧ deallocations x tr1 = 0%nat) ∨
     (m_ref_count nd1 = m_ref_count nd - 1 ∧
      releases x tr1 = 1%nat ∧
      deallocations x tr1 = if bool_decide (m_ref_count nd = 1) then 1%nat else 0%nat)).
Proof.
  intros Hs Hx.
  assert (Hother : ∀ t nd' tr,
             t ≠ x → releases x tr = 0%nat → deallocations x tr = 0%nat →
             ∃ nd1, tasks (upd q t nd') !! x = Some nd1 ∧
               ((m_ref_count nd1 = m_ref_count nd ∧
                 releases x tr = 0%nat ∧ deallocations x tr = 0%nat) ∨
                (m_ref_count nd1 = m_ref_count nd - 1 ∧
                 releases x tr = 1%nat ∧
                 deallocations x tr =
                   if bool_decide (m_ref_count nd = 1) then 1%nat else 0%nat))).
  { intros t nd' tr Hne Hr Hd. exists nd.
    rewrite tasks_upd_ne by exact Hne. auto. }
  assert (Hsame : ∀ nd', m_ref_count nd' = m_ref_count nd →
             ∃ nd1, tasks (upd q x nd') !! x = Some nd1 ∧
                    m_ref_count nd1 = m_ref_count nd).
  { intros nd' Hrc. exists nd'. split; [|exact Hrc].
    apply tasks_upd_eq. eapply lookup_lt_Some, Hx. }
  destruct Hs as [q t nd0 p r Hnd0 Hk| q | q p nd0 ws w Hnd0 Hq | q p nd0 w Hnd0 Hq
                 | q t nd0 Hnd0 | q t nd0 p r Hnd0 Hk | q | q | q t
                 | q t nd0 Hnd0 | q t nd0 ds i Hnd0 Hk];
    try (exists nd; split; [exact Hx|left; auto]).
  - destruct (decide (t = x)) as [->|Hne]; [|apply Hother; auto].
    assert (nd0 = nd) as -> by congruence.
    destruct (Hsame (node_clear_predecessor nd)) as (nd1 & H1 & H2);
      [apply m_ref_count_clear_predecessor|]. eauto 10.
  - destruct (decide (p = x)) as [->|Hne]; [|apply Hother; auto].
    assert (nd0 = nd) as -> by congruence.
    destruct (Hsame (node_add_waiter w nd)) as (nd1 & H1 & H2);
      [apply m_ref_count_add_waiter|]. eauto 10.
  - destruct (decide (t = x)) as [->|Hne].
    + assert (nd0 = nd) as -> by congruence.
      exists (node_release nd). split; [apply tasks_upd_eq; eapply lookup_lt_Some, Hx|].
      right. split; [reflexivity|].
      unfold release_log. simpl. rewrite bool_decide_eq_true_2 by reflexivity.
      destruct (m_ref_count nd - 1 =? 0) eqn:Hz; simpl.
      * rewrite !bool_decide_eq_true_2 by lia. auto.
      * rewrite bool_decide_eq_false_2 by lia. auto.
    + apply Hother; [exact Hne| |];
        unfold release_log; simpl;
        destruct (m_ref_count nd0 - 1 =? 0); simpl;
        rewrite ?bool_decide_eq_false_2 by exact Hne; reflexivity.
  - destruct (decide (t = x)) as [->|Hne]; [|apply Hother; auto].
    assert (nd0 = nd) as -> by congruence.
    destruct (Hsame (node_set_respawn false nd)) as (nd1 & H1 & H2);
      [apply m_ref_count_set_respawn|]. eauto 10.
  - destruct (decide (t = x)) as [->|Hne]; [|apply Hother; auto].
    assert (nd0 = nd) as -> by congruence.
    destruct (Hsame (node_close nd)) as (nd1 & H1 & H2); [reflexivity|]. eauto 10.
  - destruct (decide (t = x)) as [->|Hne]; [|apply Hother; auto].
    assert (nd0 = nd) as -> by congruence.
    destruct (Hsame (node_clear_slot i nd)) as (nd1 & H1 & H2);
      [apply m_ref_count_clear_slot|]. eauto 10.
Qed.

Lemma atomic_steps_counts x q q' tr :
  atomic_steps q q' tr →
  ∀ nd, tasks q !! x = Some nd →
    ∃ nd', tasks q' !! x = Some nd' ∧
      m_ref_count nd' = m_ref_count nd - Z.of_nat (releases x tr) ∧
      deallocations x tr =
        if bool_decide (0 < m_ref_count nd ≤ Z.of_nat (releases x tr))
        then 1%nat else 0%nat.
Proof.
  induction 1 as [q|q q1 q2 tr1 tr2 Hs _ IH]; intros nd Hx.
  - exists nd. split; [exact Hx|]. simpl.
    rewrite bool_decide_eq_false_2 by lia. split; [lia|reflexivity].
  - destruct (atomic_step_counts x q q1 tr1 nd Hs Hx) as (nd1 & H1 & Hc).
    destruct (IH nd1 H1) as (nd2 & H2 & Hrc & Hd).
    exists nd2. split; [exact H2|].
    rewrite releases_app, deallocations_app, Hd, Hrc.
    destruct Hc as [(Hr1 & -> & ->)|(Hr1 & -> & ->)]; rewrite Hr1.
    + split; [lia|].
      repeat case_bool_decide; lia.
    + split; [lia|].
      repeat case_bool_decide; lia.
Qed.

(** X6.  Reference counting over any sequence of calls: the count of a
    task at the end is its count at the start minus the number of
    releases of that task in the log, and the storage of the task is
    returned once if its count was positive and the releases reached it,
    and never otherwise.  No task is freed twice, and none is freed
    while it is still referenced. *)
Theorem calls_count_references fuel cs q :
  wf q → Forall (call_ok (shape q)) cs → (open_count q < fuel)%nat →
  ∃ q' tr,
    run_calls fuel cs q = Ok (tt, q', tr) ∧
    ∀ x nd, tasks q !! x = Some nd →
      ∃ nd', tasks q' !! x = Some nd' ∧
        m_ref_count nd' = m_ref_count nd - Z.of_nat (releases x tr) ∧
        deallocations x tr =
          if bool_decide (0 < m_ref_count nd ≤ Z.of_nat (releases x tr))
          then 1%nat else 0%nat.
Proof.
  intros Hwf Hok Hfuel.
  destruct (run_calls_wp fuel cs q Hwf Hok Hfuel) as ([] & q' & tr & Hrun & _).
  exists q', tr. split; [exact Hrun|].
  intros x nd Hx.
  exact (atomic_steps_counts x q q' tr
           (steps_run_calls fuel cs q tt q' tr Hrun) nd Hx).
Qed.

Lemma calls_count_references_witness :
  ∃ q' tr,
    run_calls 3 [ScheduleRunnable 1%nat; CompleteRunnable 1%nat]
      respawned_on_done = Ok (tt, q', tr) ∧
    ∀ x nd, tasks respawned_on_done !! x = Some nd →
      ∃ nd', tasks q' !! x = Some nd' ∧
        m_ref_count nd' = m_ref_count nd - Z.of_nat (releases x tr) ∧
        deallocations x tr =
          if bool_decide (0 < m_ref_count nd ≤ Z.of_nat (releases x tr))
          then 1%nat else 0%nat.
Proof.
  apply (calls_count_references 3 _ respawned_on_done).
  - decide_wf.
  - repeat constructor.
  - vm_compute. lia.
Defined.

(** ** Wait queues *)

Lemma appended_to_app p tr1 tr2 :
  appended_to p (tr1 ++ tr2) = appended_to p tr1 ++ appended_to p tr2.
Proof.
  induction tr1 as [|e tr1 IH]; [reflexivity|].
  destruct e as [| | ? ? []| | | | | | | |]; simpl; rewrite ?IH; try reflexivity.
  case_bool_decide; reflexivity.
Qed.

Lemma handed_out_app p tr1 tr2 :
  handed_out p (tr1 ++ tr2) = handed_out p tr1 ++ handed_out p tr2.
Proof.
  induction tr1 as [|e tr1 IH]; [reflexivity|].
  destruct e; simpl; rewrite ?IH; try reflexivity.
  case_bool_decide; [rewrite app_assoc|]; reflexivity.
Qed.

(** What one step does to the wait queue of [p]: nothing, or it appends
    one waiter at the head, or it closes the queue and hands out what it
    held. *)
Lemma atomic_step_wait_queue p q q1 tr1 nd :
  atomic_step q q1 tr1 → tasks q !! p = Some nd →
  ∃ nd1, tasks q1 !! p = Some nd1 ∧
    ((m_wait_queue nd1 = m_wait_queue nd ∧
      appended_to p tr1 = [] ∧ handed_out p tr1 = []) ∨
     (∃ ws w, m_wait_queue nd = Open ws ∧ m_wait_queue nd1 = Open (w :: ws) ∧
              appended_to p tr1 = [w] ∧ handed_out p tr1 = []) ∨
     (m_wait_queue nd1 = Closed ∧
      appended_to p tr1 = [] ∧ handed_out p tr1 = queue_waiters (m_wait_queue nd))).
Proof.
  intros Hs Hp.
  assert (Hlt : (p < length (tasks q))%nat) by (eapply lookup_lt_Some, Hp).
  destruct Hs as [q t nd0 p0 r Hnd0 Hk| q | q p0 nd0 ws w Hnd0 Hq | q p0 nd0 w Hnd0 Hq
                 | q t nd0 Hnd0 | q t nd0 p0 r Hnd0 Hk | q | q | q t
                 | q t nd0 Hnd0 | q t nd0 ds i Hnd0 Hk];
    try (exists nd; split; [exact Hp|left; auto]).
  - destruct (decide (t = p)) as [->|Hne].
    + assert (nd0 = nd) as -> by congruence.
      exists (node_clear_predecessor nd). split; [apply tasks_upd_eq, Hlt|].
      left. rewrite m_wait_queue_clear_predecessor. auto.
    + exists nd. rewrite tasks_upd_ne by exact Hne. auto.
  - destruct (decide (p0 = p)) as [->|Hne].
    + assert (nd0 = nd) as -> by congruence.
      exists (node_add_waiter w nd). split; [apply tasks_upd_eq, Hlt|].
      right. left. exists ws, w. unfold node_add_waiter. rewrite Hq. simpl.
      rewrite bool_decide_eq_true_2 by reflexivity. auto.
    + exists nd. rewrite tasks_upd_ne by exact Hne.
      split; [exact Hp|left]. simpl. rewrite bool_decide_eq_false_2 by exact Hne. auto.
  - destruct (decide (t = p)) as [->|Hne].
    + assert (nd0 = nd) as -> by congruence.
      exists (node_release nd). split; [apply tasks_upd_eq, Hlt|].
      left. unfold release_log. destruct (m_ref_count nd - 1 =? 0); auto.
    + exists nd. rewrite tasks_upd_ne by exact Hne.
      split; [exact Hp|left]. unfold release_log.
      destruct (m_ref_count nd0 - 1 =? 0); auto.
  - destruct (decide (t = p)) as [->|Hne].
    + assert (nd0 = nd) as -> by congruence.
      exists (node_set_respawn false nd). split; [apply tasks_upd_eq, Hlt|].
      left. rewrite m_wait_queue_set_respawn. auto.
    + exists nd. rewrite tasks_upd_ne by exact Hne. auto.
  - destruct (decide (t = p)) as [->|Hne].
    + assert (nd0 = nd) as -> by congruence.
      exists (node_close nd). split; [apply tasks_upd_eq, Hlt|].
      right. right. simpl. rewrite bool_decide_eq_true_2 by reflexivity.
      rewrite app_nil_r. auto.
    + exists nd. rewrite tasks_upd_ne by exact Hne.
      split; [exact Hp|left]. simpl. rewrite bool_decide_eq_false_2 by exact Hne. auto.
  - destruct (decide (t = p)) as [->|Hne].
    + assert (nd0 = nd) as -> by congruence.
      exists (node_clear_slot i nd). split; [apply tasks_upd_eq, Hlt|].
      left. rewrite m_wait_queue_clear_slot. auto.
    + exists nd. rewrite tasks_upd_ne by exact Hne. auto.
Qed.

Lemma atomic_steps_wait_queue p q q' tr :
  atomic_steps q q' tr →
  ∀ nd, tasks q !! p = Some nd →
    ∃ nd', tasks q' !! p = Some nd' ∧
      handed_out p tr ++ queue_waiters (m_wait_queue nd') =
        rev (appended_to p tr) ++ queue_waiters (m_wait_queue nd) ∧
      (queue_is_open (m_wait_queue nd') = true →
       queue_is_open (m_wait_queue nd) = true ∧ handed_out p tr = []) ∧
      (queue_is_open (m_wait_queue nd) = false → appended_to p tr = []).
Proof.
  induction 1 as [q|q q1 q2 tr1 tr2 Hs _ IH]; intros nd Hp.
  - exists nd. split; [exact Hp|]. simpl. auto.
  - destruct (atomic_step_wait_queue p q q1 tr1 nd Hs Hp) as (nd1 & H1 & Hc).
    destruct (IH nd1 H1) as (nd2 & H2 & Heq & Hopen & Hclosed).
    exists nd2. split; [exact H2|].
    rewrite appended_to_app, handed_out_app.
    destruct Hc as [(Hq & -> & ->)|[(ws & w & Hq & Hq1 & -> & ->)|(Hq1 & -> & ->)]];
      simpl.
    + rewrite <- Hq. auto.
    + rewrite Hq1 in *. rewrite Hq. simpl in *.
      split; [rewrite Heq, <- app_assoc; reflexivity|].
      split; [intros Ho; split; [reflexivity|apply Hopen, Ho]|discriminate].
    + rewrite Hq1 in *. simpl in *.
      rewrite (Hclosed eq_refl) in Heq. simpl in Heq.
      apply app_eq_nil in Heq as [-> Hrem]. rewrite Hrem, !app_nil_r.
      rewrite (Hclosed eq_refl). simpl.
      split; [reflexivity|].
      split; [|intros _; reflexivity].
      intros Ho. destruct (Hopen Ho) as [Hf _]. discriminate Hf.
Qed.

(** X7.  No waiter is lost.  Over any sequence of calls and for every
    task, the waiters handed out of its wait queue, followed by those
    still in the queue at the end, are the waiters appended to it in the
    log, newest first, followed by those the queue held at the start.  A
    queue still open at the end was open all along and has handed out
    nothing, and a queue closed at the start has taken no waiter. *)
Theorem calls_keep_every_waiter fuel cs q :
  wf q → Forall (call_ok (shape q)) cs → (open_count q < fuel)%nat →
  ∃ q' tr,
    run_calls fuel cs q = Ok (tt, q', tr) ∧
    ∀ p nd, tasks q !! p = Some nd →
      ∃ nd', tasks q' !! p = Some nd' ∧
        handed_out p tr ++ queue_waiters (m_wait_queue nd') =
          rev (appended_to p tr) ++ queue_waiters (m_wait_queue nd) ∧
        (queue_is_open (m_wait_queue nd') = true →
         queue_is_open (m_wait_queue nd) = true ∧ handed_out p tr = []) ∧
        (queue_is_open (m_wait_queue nd) = false → appended_to p tr = []).
Proof.
  intros Hwf Hok Hfuel.
  destruct (run_calls_wp fuel cs q Hwf Hok Hfuel) as ([] & q' & tr & Hrun & _).
  exists q', tr. split; [exact Hrun|].
  intros p nd Hp.
  exact (atomic_steps_wait_queue p q q' tr
           (steps_run_calls fuel cs q tt q' tr Hrun) nd Hp).
Qed.

Lemma calls_keep_every_waiter_witness :
  ∃ q' tr,
    run_calls 4 [ScheduleRunnable 1%nat; CompleteRunnable 0%nat]
      waiter_and_newcomer = Ok (tt, q', tr) ∧
    ∀ p nd, tasks waiter_and_newcomer !! p = Some nd →
      ∃ nd', tasks q' !! p = Some nd' ∧
        handed_out p tr ++ queue_waiters (m_wait_queue nd') =
          rev (appended_to p tr) ++ queue_waiters (m_wait_queue nd) ∧
        (queue_is_open (m_wait_queue nd') = true →
         queue_is_open (m_wait_queue nd) = true ∧ handed_out p tr = []) ∧
        (queue_is_open (m_wait_queue nd) = false → appended_to p tr = []).
Proof.
  apply (calls_keep_every_waiter 4 _ waiter_and_newcomer).
  - decide_wf.
  - repeat constructor.
  - vm_compute. lia.
Defined.

(** ** Tasks pushed on the ready queue *)

Lemma ready_to_run_steps q q' tr w :
  atomic_steps q q' tr → ready_to_run q w → ready_to_run q' w.
Proof.
  intros Hs (nd & Hnd & Hk).
  destruct (atomic_steps_nodewise links_le links_le_refl links_le_trans
              links_le_step q q' tr Hs w nd Hnd) as (nd' & Hnd' & Hl).
  exists nd'. split; [exact Hnd'|].
  unfold links_le in Hl. rewrite Hk in Hl.
  destruct (m_kind nd') as [p' r'|]; [|contradiction].
  destruct Hl as [[->| ->] [->| ->]]; reflexivity.
Qed.

Lemma pushes_ready_refl q : pushes_ready q q [].
Proof. split; [apply steps_nil|]. intros w Hw. inversion Hw. Qed.

Lemma pushes_ready_trans q1 q2 q3 tr1 tr2 :
  pushes_ready q1 q2 tr1 → pushes_ready q2 q3 tr2 →
  pushes_ready q1 q3 (tr1 ++ tr2).
Proof.
  intros [H1 P1] [H2 P2]. split; [eapply steps_app; eassumption|].
  intros w Hw. rewrite pushed_app in Hw. apply elem_of_app in Hw as [Hw|Hw].
  - eapply ready_to_run_steps; [exact H2|exact (P1 w Hw)].
  - exact (P2 w Hw).
Qed.

Lemma pushes_ready_step q q' tr :
  atomic_step q q' tr → pushed tr = [] → pushes_ready q q' tr.
Proof.
  intros H P. split; [apply steps_one, H|].
  intros w Hw. rewrite P in Hw. inversion Hw.
Qed.

Lemma pushes_ready_schedule_runnable t : tracks pushes_ready (schedule_runnable t).
Proof.
  intros q [] q' tr H.
  split; [exact (steps_schedule_runnable t q tt q' tr H)|].
  apply schedule_runnable_inv in H
    as (q2 & tr2 & nd2 & r2 & ready & [Hq Hp] & Hnd2 & Hk2 & -> & ->).
  intros w Hw. rewrite pushed_app, Hp in Hw.
  destruct ready; simpl in Hw; [|inversion Hw].
  apply list_elem_of_singleton in Hw as ->.
  exists (node_set_respawn false nd2). split.
  - change (tasks (enqueue ?x _)) with (tasks x).
    apply tasks_upd_eq. eapply lookup_lt_Some, Hnd2.
  - unfold node_set_respawn. rewrite Hk2. reflexivity.
Qed.

(** X8.  Only tasks that can run are handed to the ready queue.  After
    any sequence of calls, every task the calls pushed is a runnable
    task that names no predecessor and whose respawn flag is cleared. *)
Theorem calls_push_only_ready_tasks fuel cs q :
  wf q → Forall (call_ok (shape q)) cs → (open_count q < fuel)%nat →
  ∃ q' tr,
    run_calls fuel cs q = Ok (tt, q', tr) ∧
    ∀ w, w ∈ pushed tr →
         ∃ nd, tasks q' !! w = Some nd ∧ m_kind nd = RunnableTask None false.
Proof.
  intros Hwf Hok Hfuel.
  destruct (run_calls_wp fuel cs q Hwf Hok Hfuel) as ([] & q' & tr & Hrun & _).
  exists q', tr. split; [exact Hrun|].
  exact (proj2 (tracks_run_calls pushes_ready pushes_ready_refl pushes_ready_trans
                  pushes_ready_step pushes_ready_schedule_runnable
                  fuel cs q tt q' tr Hrun)).
Qed.

Lemma calls_push_only_ready_tasks_witness :
  ∃ q' tr,
    run_calls 3 [ScheduleRunnable 1%nat; CompleteRunnable 0%nat]
      respawned_on_running = Ok (tt, q', tr) ∧
    ∀ w, w ∈ pushed tr →
         ∃ nd, tasks q' !! w = Some nd ∧ m_kind nd = RunnableTask None false.
Proof.
  apply (calls_push_only_ready_tasks 3 _ respawned_on_running).
  - decide_wf.
  - repeat constructor.
  - vm_compute. lia.
Defined.

(** ** Waking the waiters of a finished task *)

Lemma node_set_respawn_idemp flag nd :
  node_set_respawn flag (node_set_respawn flag nd) = node_set_respawn flag nd.
Proof. unfold node_set_respawn. destruct (m_kind nd) eqn:E; simpl; rewrite ?E; reflexivity. Qed.

(** The visit of waiters that are all runnable tasks without a
    predecessor: each is pushed, in the order of the visit. *)
Lemma visit_free_runnables complete ws :
  ∀ q, (∀ w, w ∈ ws → free_runnable q w) →
    ∃ q', visit_waiters complete ws q = Ok (tt, q', concat (map wake_log ws)) ∧
      ready_queue q' = ready_queue q ++ ws ∧
      ∀ x, tasks q' !! x =
           (λ nd, if bool_decide (x ∈ ws) then node_set_respawn false nd else nd)
             <$> tasks q !! x.
Proof.
  induction ws as [|w ws IH]; intros q Hfree.
  - exists q. split; [reflexivity|]. split; [symmetry; apply app_nil_r|].
    intros x. destruct (tasks q !! x); reflexivity.
  - destruct (Hfree w) as (nd & r & Hnd & Hk); [left|].
    pose proof (schedule_runnable_no_predecessor q w nd Hnd r Hk) as Hrun.
    set (q1 := enqueue (upd q w (node_set_respawn false nd)) w) in *.
    assert (Hlt : (w < length (tasks q))%nat) by (eapply lookup_lt_Some, Hnd).
    assert (H1 : ∀ x, tasks q1 !! x =
                   (λ nd, if bool_decide (x = w) then node_set_respawn false nd else nd)
                     <$> tasks q !! x).
    { intros x. change (tasks q1) with (tasks (upd q w (node_set_respawn false nd))).
      case_bool_decide as Hx.
      - subst x. rewrite tasks_upd_eq, Hnd by exact Hlt. reflexivity.
      - rewrite tasks_upd_ne by congruence. destruct (tasks q !! x); reflexivity. }
    destruct (IH q1) as (q' & Hvisit & Hrq & Hnodes).
    { intros w' Hw'. destruct (Hfree w') as (nd' & r' & Hnd' & Hk'); [right; exact Hw'|].
      unfold free_runnable. rewrite H1, Hnd'. simpl.
      case_bool_decide; eexists _, _; (split; [reflexivity|]); [|exact Hk'].
      unfold node_set_respawn. rewrite Hk'. reflexivity. }
    exists q'. split; [|split].
    + assert (Hop : _schedule_waiting_tasks_operation complete w q =
                      Ok (tt, q1, wake_log w)).
      { unfold _schedule_waiting_tasks_operation.
        rewrite (bind_Ok _ _ _ _ _ _ (run_is_runnable q w nd Hnd)).
        unfold node_is_runnable. rewrite Hk. cbv iota.
        unfold schedule_runnable. rewrite Hrun. reflexivity. }
      simpl visit_waiters.
      rewrite (bind_Ok _ _ _ _ _ _ Hop), Hvisit. reflexivity.
    + rewrite Hrq. simpl. rewrite <- app_assoc. reflexivity.
    + intros x. rewrite Hnodes, H1. destruct (tasks q !! x) as [ndx|]; [|reflexivity].
      simpl. f_equal.
      destruct (decide (x = w)) as [Heq|Hne], (decide (x ∈ ws)) as [Hin|Hnin].
      * rewrite (bool_decide_eq_true_2 _ Hin), (bool_decide_eq_true_2 _ Heq).
        rewrite bool_decide_eq_true_2 by (right; exact Hin).
        apply node_set_respawn_idemp.
      * rewrite (bool_decide_eq_false_2 _ Hnin), (bool_decide_eq_true_2 _ Heq).
        rewrite bool_decide_eq_true_2 by (rewrite Heq; left). reflexivity.
      * rewrite (bool_decide_eq_true_2 _ Hin), (bool_decide_eq_false_2 _ Hne).
        rewrite bool_decide_eq_true_2 by (right; exact Hin). reflexivity.
      * rewrite (bool_decide_eq_false_2 _ Hnin), (bool_decide_eq_false_2 _ Hne).
        rewrite bool_decide_eq_false_2; [reflexivity|].
        intros [?|?]%elem_of_cons; contradiction.
Qed.

(** Finalising a task whose waiters are all runnable tasks without a
    predecessor. *)
Lemma complete_free_waiters fuel q t nd :
  tasks q !! t = Some nd →
  (∀ w, w ∈ queue_waiters (m_wait_queue nd) → free_runnable q w) →
  ∃ q1 nd1,
    _complete_finished_task (S fuel) t q =
      Ok (tt, upd q1 t (node_release nd1),
          [EvConsumeWaitQueue t (queue_waiters (m_wait_queue nd))] ++
          concat (map wake_log (queue_waiters (m_wait_queue nd))) ++
          release_log t (m_ref_count nd)) ∧
    ready_queue q1 = ready_queue q ++ queue_waiters (m_wait_queue nd) ∧
    m_ready_count (upd q1 t (node_release nd1)) = m_ready_count q1 ∧
    tasks q1 !! t = Some nd1 ∧
    m_ref_count nd1 = m_ref_count nd ∧ m_wait_queue nd1 = Closed ∧
    m_kind nd1 =
      (if bool_decide (t ∈ queue_waiters (m_wait_queue nd))
       then m_kind (node_set_respawn false nd) else m_kind nd) ∧
    ∀ x, x ≠ t →
         tasks q1 !! x =
           (λ ndx, if bool_decide (x ∈ queue_waiters (m_wait_queue nd))
                   then node_set_respawn false ndx else ndx) <$> tasks q !! x.
Proof.
  intros Hnd Hfree.
  set (ws := queue_waiters (m_wait_queue nd)) in *.
  assert (Hlt : (t < length (tasks q))%nat) by (eapply lookup_lt_Some, Hnd).
  assert (H0 : ∀ x, tasks (upd q t (node_close nd)) !! x =
                 (λ ndx, if bool_decide (x = t) then node_close ndx else ndx)
                   <$> tasks q !! x).
  { intros x. case_bool_decide as Hx.
    - subst x. rewrite tasks_upd_eq, Hnd by exact Hlt. reflexivity.
    - rewrite tasks_upd_ne by congruence. destruct (tasks q !! x); reflexivity. }
  destruct (visit_free_runnables (_complete_finished_task fuel) ws
              (upd q t (node_close nd))) as (q1 & Hvisit & Hrq & Hnodes).
  { intros w Hw. destruct (Hfree w Hw) as (ndw & r & Hndw & Hkw).
    unfold free_runnable. rewrite H0, Hndw. simpl.
    case_bool_decide; eexists _, _; (split; [reflexivity|]); exact Hkw. }
  set (nd1 := if bool_decide (t ∈ ws) then node_set_respawn false (node_close nd)
              else node_close nd).
  assert (Hnd1 : tasks q1 !! t = Some nd1).
  { rewrite Hnodes, H0, Hnd. simpl.
    rewrite (bool_decide_eq_true_2 (t = t)) by reflexivity. reflexivity. }
  assert (Hrc1 : m_ref_count nd1 = m_ref_count nd).
  { unfold nd1. case_bool_decide; [rewrite m_ref_count_set_respawn|]; reflexivity. }
  exists q1, nd1.
  split; [|split; [exact Hrq|split; [reflexivity|split; [exact Hnd1|
          split; [exact Hrc1|split; [|split]]]]]].
  - simpl _complete_finished_task.
    rewrite (bind_Ok _ _ _ _ _ _ (run_consume_wait_queue q t nd Hnd)).
    fold ws.
    rewrite (bind_Ok _ _ _ _ _ _ Hvisit).
    rewrite (bind_Ok _ _ _ _ _ _
               (run_decrement_and_check_reference_count q1 t nd1 Hnd1)).
    unfold release_log. rewrite Hrc1.
    destruct (m_ref_count nd - 1 =? 0); reflexivity.
  - unfold nd1. case_bool_decide; [rewrite m_wait_queue_set_respawn|]; reflexivity.
  - unfold nd1. case_bool_decide; [|reflexivity].
    unfold node_set_respawn. simpl. destruct (m_kind nd); reflexivity.
  - intros x Hx. rewrite Hnodes, H0.
    destruct (tasks q !! x) as [ndx|]; [|reflexivity]. simpl.
    rewrite (bool_decide_eq_false_2 _ Hx). reflexivity.
Qed.

(** X9.  Completion wakes every waiter once, in the order of the wait
    queue.  When the waiters of a task are runnable tasks without a
    predecessor, finalising the task closes its wait queue, then clears
    the respawn flag of each waiter, counts it as ready and pushes it,
    one waiter after the other from the head of the queue, then releases
    the reference of the task; one level of recursion is enough.  The
    ready queue gains exactly the waiters, each is left ready to run,
    and the task is left with a closed queue and one reference less. *)
Theorem complete_wakes_runnable_waiters fuel q t nd :
  tasks q !! t = Some nd →
  (∀ w, w ∈ queue_waiters (m_wait_queue nd) → free_runnable q w) →
  ∃ q',
    _complete_finished_task (S fuel) t q =
      Ok (tt, q',
          [EvConsumeWaitQueue t (queue_waiters (m_wait_queue nd))] ++
          concat (map wake_log (queue_waiters (m_wait_queue nd))) ++
          release_log t (m_ref_count nd)) ∧
    ready_queue q' = ready_queue q ++ queue_waiters (m_wait_queue nd) ∧
    (∀ w, w ∈ queue_waiters (m_wait_queue nd) → ready_to_run q' w) ∧
    ∃ nd', tasks q' !! t = Some nd' ∧ m_wait_queue nd' = Closed ∧
           m_ref_count nd' = m_ref_count nd - 1.
Proof.
  intros Hnd Hfree.
  destruct (complete_free_waiters fuel q t nd Hnd Hfree)
    as (q1 & nd1 & Hrun & Hrq & _ & Hnd1 & Hrc1 & Hq1 & Hk1 & Hnodes).
  assert (Hlt1 : (t < length (tasks q1))%nat) by (eapply lookup_lt_Some, Hnd1).
  exists (upd q1 t (node_release nd1)).
  split; [exact Hrun|]. split; [exact Hrq|]. split.
  - intros w Hw. destruct (Hfree w Hw) as (ndw & r & Hndw & Hkw).
    destruct (decide (w = t)) as [->|Hne].
    + exists (node_release nd1). split; [apply tasks_upd_eq, Hlt1|].
      assert (ndw = nd) as -> by congruence.
      simpl. rewrite Hk1, (bool_decide_eq_true_2 _ Hw).
      unfold node_set_respawn. rewrite Hkw. reflexivity.
    + exists (node_set_respawn false ndw). split.
      * rewrite tasks_upd_ne by congruence.
        rewrite (Hnodes w Hne), Hndw. simpl.
        rewrite (bool_decide_eq_true_2 _ Hw). reflexivity.
      * unfold node_set_respawn. rewrite Hkw. reflexivity.
  - exists (node_release nd1). split; [apply tasks_upd_eq, Hlt1|].
    split; [exact Hq1|]. simpl. rewrite Hrc1. reflexivity.
Qed.

Lemma complete_wakes_runnable_waiters_witness :
  ∃ q',
    _complete_finished_task 1 0%nat waiter_and_newcomer =
      Ok (tt, q',
          [EvConsumeWaitQueue 0%nat [2%nat]] ++
          concat (map wake_log [2%nat]) ++ release_log 0%nat 1) ∧
    ready_queue q' = ready_queue waiter_and_newcomer ++ [2%nat] ∧
    (∀ w, w ∈ [2%nat] → ready_to_run q' w) ∧
    ∃ nd', tasks q' !! 0%nat = Some nd' ∧ m_wait_queue nd' = Closed ∧
           m_ref_count nd' = 1 - 1.
Proof.
  apply (complete_wakes_runnable_waiters 0 waiter_and_newcomer 0%nat
           (runnable_node None false 1 (Open [2%nat]))).
  - reflexivity.
  - intros w Hw. apply list_elem_of_singleton in Hw as ->.
    exists (runnable_node None false 1 (Open [])), false. split; reflexivity.
Defined.

(** ** The append and the drain, in either order *)

Lemma pushed_wake_logs ws : pushed (concat (map wake_log ws)) = ws.
Proof. induction ws as [|w ws IH]; [reflexivity|]. simpl. rewrite IH. reflexivity. Qed.

Lemma appended_to_wake_logs p ws : appended_to p (concat (map wake_log ws)) = [].
Proof. induction ws as [|w ws IH]; [reflexivity|]. simpl. exact IH. Qed.

Lemma appended_to_release_log p t rc : appended_to p (release_log t rc) = [].
Proof. unfold release_log. destruct (rc - 1 =? 0); reflexivity. Qed.

Lemma free_runnable_steps q q' tr w :
  atomic_steps q q' tr → free_runnable q w → free_runnable q' w.
Proof.
  intros Hs (nd & r & Hnd & Hk).
  destruct (atomic_steps_nodewise links_le links_le_refl links_le_trans
              links_le_step q q' tr Hs w nd Hnd) as (nd' & Hnd' & Hl).
  unfold links_le in Hl. rewrite Hk in Hl.
  destruct (m_kind nd') as [p' r'|] eqn:Hk'; [|contradiction].
  exists nd', r'. split; [exact Hnd'|].
  destruct Hl as [[->| ->] _]; exact Hk'.
Qed.

Lemma schedule_log_open t p rc r :
  pushed (schedule_log t p true rc r) = [] ∧
  appended_to p (schedule_log t p true rc r) = [t] ∧
  handed_out p (schedule_log t p true rc r) = [].
Proof.
  unfold schedule_log, release_log.
  destruct r, (rc - 1 =? 0); simpl;
    rewrite ?bool_decide_eq_true_2 by reflexivity; auto.
Qed.

Lemma schedule_log_closed t p rc r :
  pushed (schedule_log t p false rc r) = [t] ∧
  appended_to p (schedule_log t p false rc r) = [].
Proof.
  unfold schedule_log, release_log.
  destruct r, (rc - 1 =? 0); simpl; auto.
Qed.

(** X10.  A task is woken once, whichever comes first of its scheduling
    and the completion of its predecessor.  Let [w] be a runnable task
    that depends on [p], a task other than itself whose wait queue is
    open and holds runnable tasks without a predecessor.  If [w] is
    scheduled and then [p] completes, [w] is appended to the wait queue
    of [p], and the completion pushes [w] and then the waiters that were
    there.  If [p] completes and then [w] is scheduled, the completion
    pushes the waiters, the append is refused, and the scheduling pushes
    [w] itself.  Either way [w] is pushed exactly once. *)
Theorem wake_once_either_order fuel q w ndw p np pp r ws :
  wf q →
  tasks q !! w = Some ndw → m_kind ndw = RunnableTask (Some p) r →
  tasks q !! p = Some np → m_kind np = RunnableTask pp false →
  m_wait_queue np = Open ws →
  (∀ w', w' ∈ ws → free_runnable q w') →
  p ≠ w → (open_count q < fuel)%nat →
  (∃ q1 tr1,
     run_calls fuel [ScheduleRunnable w; CompleteRunnable p] q = Ok (tt, q1, tr1) ∧
     pushed tr1 = w :: ws ∧ appended_to p tr1 = [w]) ∧
  (∃ q2 tr2,
     run_calls fuel [CompleteRunnable p; ScheduleRunnable w] q = Ok (tt, q2, tr2) ∧
     pushed tr2 = ws ++ [w] ∧ appended_to p tr2 = []) ∧
  w ∉ ws.
Proof.
  intros Hwf Hndw Hkw Hnp Hkp Hq Hfree Hne Hfuel.
  destruct fuel as [|fuel]; [lia|].
  assert (Hw : w ∉ ws).
  { intros Hin. destruct (Hfree w Hin) as (nd' & r' & Hnd' & Hk'). congruence. }
  split; [|split; [|exact Hw]].
  - destruct (schedule_runnable_predecessor q w ndw Hwf Hndw p r np Hkw Hnp)
      as ([] & q1 & tr1 & Hrun1 & Htr1 & _ & _ & _ & ndw1 & Hndw1 & Hkw1 & _).
    rewrite Hq in Htr1. simpl queue_is_open in Htr1.
    destruct (schedule_log_open w p (m_ref_count np) r) as (Hp1 & Ha1 & Hh1).
    rewrite <- Htr1 in Hp1, Ha1, Hh1.
    pose proof (steps_schedule_runnable w q tt q1 tr1 Hrun1) as Hs1.
    destruct (atomic_steps_wait_queue p q q1 tr1 Hs1 np Hnp)
      as (np1 & Hnp1 & Heq & _ & _).
    rewrite Ha1, Hh1, Hq in Heq. simpl in Heq.
    destruct (atomic_steps_nodewise links_le links_le_refl links_le_trans
                links_le_step q q1 tr1 Hs1 p np Hnp) as (np1' & Hnp1' & Hl).
    assert (np1' = np1) as -> by congruence.
    unfold links_le in Hl. rewrite Hkp in Hl.
    destruct (m_kind np1) as [pp1 r1|] eqn:Hkp1; [|contradiction].
    assert (r1 = false) as -> by (destruct Hl as [_ [?|?]]; assumption).
    assert (Hfree1 : ∀ w', w' ∈ queue_waiters (m_wait_queue np1) →
                           free_runnable q1 w').
    { rewrite Heq. intros w' [->|Hin]%elem_of_cons.
      - exists ndw1, false. auto.
      - eapply free_runnable_steps; [exact Hs1|exact (Hfree w' Hin)]. }
    destruct (complete_free_waiters fuel q1 p np1 Hnp1 Hfree1)
      as (q2 & nd2 & Hcft & _).
    pose proof (complete_runnable_run (S fuel) q1 p np1 pp1 false _ _ Hnp1 Hkp1 Hcft)
      as Hrun2.
    eexists _, _. split; [|split].
    + simpl run_calls. unfold run_call, schedule_runnable.
      rewrite (bind_Ok _ _ _ _ _ _ Hrun1), (bind_Ok _ _ _ _ _ _ Hrun2).
      reflexivity.
    + rewrite Heq, !pushed_app, Hp1, pushed_wake_logs, pushed_release_log.
      simpl. rewrite !app_nil_r. reflexivity.
    + rewrite Heq, !appended_to_app, Ha1, appended_to_wake_logs,
        appended_to_release_log. reflexivity.
  - assert (Hfree0 : ∀ w', w' ∈ queue_waiters (m_wait_queue np) → free_runnable q w')
      by (rewrite Hq; exact Hfree).
    destruct (complete_free_waiters fuel q p np Hnp Hfree0)
      as (q1 & nd1 & Hcft & _ & _ & Hnd1 & _ & Hq1 & _ & Hnodes).
    pose proof (complete_runnable_run (S fuel) q p np pp false _ _ Hnp Hkp Hcft)
      as Hrun1.
    assert (Hwfc : wf (count_down (upd q1 p (node_release nd1)))).
    { assert (Hok : call_ok (shape q) (CompleteRunnable p))
        by (apply shape_runnable; eauto).
      destruct (run_call_wp (S fuel) (CompleteRunnable p) q Hwf Hok Hfuel)
        as ([] & q' & tr' & Hrun' & (_ & Hwf' & _) & _).
      simpl run_call in Hrun'. rewrite Hrun1 in Hrun'.
      injection Hrun' as <- _. exact Hwf'. }
    assert (Hndwc : tasks (count_down (upd q1 p (node_release nd1))) !! w = Some ndw).
    { change (tasks (count_down ?x)) with (tasks x).
      rewrite tasks_upd_ne by exact Hne.
      rewrite (Hnodes w) by congruence. rewrite Hndw, Hq. simpl.
      rewrite (bool_decide_eq_false_2 _ Hw). reflexivity. }
    assert (Hnpc : tasks (count_down (upd q1 p (node_release nd1))) !! p
                   = Some (node_release nd1)).
    { change (tasks (count_down ?x)) with (tasks x).
      apply tasks_upd_eq. eapply lookup_lt_Some, Hnd1. }
    destruct (schedule_runnable_predecessor _ w ndw Hwfc Hndwc p r
                (node_release nd1) Hkw Hnpc)
      as ([] & q2 & tr2 & Hrun2 & Htr2 & _).
    simpl m_wait_queue in Htr2. rewrite Hq1 in Htr2. simpl queue_is_open in Htr2.
    destruct (schedule_log_closed w p (m_ref_count (node_release nd1)) r)
      as (Hp2 & Ha2).
    rewrite <- Htr2 in Hp2, Ha2.
    eexists _, _. split; [|split].
    + simpl run_calls. unfold run_call, schedule_runnable.
      rewrite (bind_Ok _ _ _ _ _ _ Hrun1), (bind_Ok _ _ _ _ _ _ Hrun2).
      reflexivity.
    + rewrite Hq, !pushed_app, Hp2, pushed_wake_logs, pushed_release_log.
      simpl. rewrite !app_nil_r. reflexivity.
    + rewrite Hq, !appended_to_app, Ha2, appended_to_wake_logs,
        appended_to_release_log. reflexivity.
Qed.

Lemma wake_once_either_order_witness :
  (∃ q1 tr1,
     run_calls 4 [ScheduleRunnable 1%nat; CompleteRunnable 0%nat]
       waiter_and_newcomer = Ok (tt, q1, tr1) ∧
     pushed tr1 = [1%nat; 2%nat] ∧ appended_to 0%nat tr1 = [1%nat]) ∧
  (∃ q2 tr2,
     run_calls 4 [CompleteRunnable 0%nat; ScheduleRunnable 1%nat]
       waiter_and_newcomer = Ok (tt, q2, tr2) ∧
     pushed tr2 = [2%nat] ++ [1%nat] ∧ appended_to 0%nat tr2 = []) ∧
  1%nat ∉ [2%nat].
Proof.
  apply (wake_once_either_order 4 waiter_and_newcomer 1%nat
           (runnable_node (Some 0%nat) false 1 (Open [])) 0%nat
           (runnable_node None false 1 (Open [2%nat])) None false [2%nat]).
  - decide_wf.
  - reflexivity.
  - reflexivity.
  - reflexivity.
  - reflexivity.
  - reflexivity.
  - intros w' Hw'. apply list_elem_of_singleton in Hw' as ->.
    exists (runnable_node None false 1 (Open [])), false. split; reflexivity.
  - discriminate.
  - vm_compute. lia.
Defined.

(** ** An aggregate joins its predecessors *)

Lemma appended_to_appended x tr :
  appended_to x tr =
    omap (λ pw : task_id * task_id,
            if bool_decide (pw.1 = x) then Some pw.2 else None) (appended tr).
Proof.
  induction tr as [|e tr IH]; [reflexivity|].
  destruct e as [| | p w []| | | | | | | |]; simpl; try exact IH.
  case_bool_decide; rewrite IH; reflexivity.
Qed.

Lemma handed_out_no_consume x tr :
  (∀ y ws, EvConsumeWaitQueue y ws ∉ tr) → handed_out x tr = [].
Proof.
  induction tr as [|e tr IH]; intros H; [reflexivity|].
  assert (Htl : ∀ y ws, EvConsumeWaitQueue y ws ∉ tr).
  { intros y ws Hin. apply (H y ws). right. exact Hin. }
  destruct e; simpl; try exact (IH Htl).
  exfalso. eapply H. left.
Qed.

Lemma opens_lookup q q' x nd nd' :
  opens q' = opens q → tasks q !! x = Some nd → tasks q' !! x = Some nd' →
  queue_is_open (m_wait_queue nd') = queue_is_open (m_wait_queue nd).
Proof.
  intros Ho Hnd Hnd'.
  assert (H : opens q' !! x = opens q !! x) by (rewrite Ho; reflexivity).
  unfold opens in H. rewrite !list_lookup_fmap, Hnd, Hnd' in H. simpl in H.
  injection H as H. unfold open_weight in H.
  destruct (queue_is_open (m_wait_queue nd')), (queue_is_open (m_wait_queue nd));
    congruence.
Qed.

(** The wait queue of a task after steps that consume no queue. *)
Lemma steps_wait_queue_open x q q' tr nd :
  atomic_steps q q' tr → opens q' = opens q → handed_out x tr = [] →
  tasks q !! x = Some nd →
  ∃ nd', tasks q' !! x = Some nd' ∧
    m_wait_queue nd' =
      match m_wait_queue nd with
      | Open ws => Open (rev (appended_to x tr) ++ ws)
      | Closed => Closed
      end.
Proof.
  intros Hs Ho Hh Hnd.
  destruct (atomic_steps_wait_queue x q q' tr Hs nd Hnd) as (nd' & Hnd' & Heq & _).
  exists nd'. split; [exact Hnd'|].
  pose proof (opens_lookup q q' x nd nd' Ho Hnd Hnd') as Hopen.
  rewrite Hh in Heq. simpl in Heq.
  destruct (m_wait_queue nd) as [ws|], (m_wait_queue nd') as [ws'|];
    simpl in *; try discriminate Hopen; [|reflexivity].
  rewrite Heq. reflexivity.
Qed.

Lemma steps_scan_dependences t k : tracks atomic_steps (scan_dependences t k).
Proof.
  apply tracks_scan_dependences.
  - exact steps_nil.
  - exact steps_app.
  - intros q q' tr H _. apply steps_one, H.
Qed.

(** A runnable task that does not respawn stays one. *)
Lemma steps_keep_runnable q q' tr x nd pp :
  atomic_steps q q' tr → tasks q !! x = Some nd →
  m_kind nd = RunnableTask pp false →
  ∃ nd' pp', tasks q' !! x = Some nd' ∧ m_kind nd' = RunnableTask pp' false.
Proof.
  intros Hs Hnd Hk.
  destruct (atomic_steps_nodewise links_le links_le_refl links_le_trans
              links_le_step q q' tr Hs x nd Hnd) as (nd' & Hnd' & Hl).
  unfold links_le in Hl. rewrite Hk in Hl.
  destruct (m_kind nd') as [p' r'|] eqn:Hk'; [|contradiction].
  exists nd', p'. split; [exact Hnd'|].
  destruct Hl as [_ [->| ->]]; exact Hk'.
Qed.

Lemma open_node_counts q x nd :
  tasks q !! x = Some nd → queue_is_open (m_wait_queue nd) = true →
  (0 < open_count q)%nat.
Proof.
  intros Hnd Ho.
  pose proof (open_count_upd q x nd (node_close nd) Hnd) as H.
  unfold open_weight in H at 1. rewrite Ho in H.
  unfold open_weight, node_close in H. simpl in H. lia.
Qed.

(** The scan of an aggregate whose slots below [m] hold their task,
    none of which has the aggregate in its wait queue: it parks the
    aggregate on the last predecessor that is not done, or finalises it
    when all are done. *)
Lemma join_rescan f q t ps wt done m :
  wf q → NoDup ps → t ∉ ps →
  (∀ w, w ∈ wt → free_runnable q w) →
  join_aggregate t ps wt m true q →
  join_predecessors t ps done None q →
  (∀ i p, ps !! i = Some p → (m ≤ i)%nat → p ∈ done) →
  (open_count q < f)%nat →
  ∃ q' tr live,
    schedule_aggregate_with (_complete_finished_task f) t q = Ok (tt, q', tr) ∧
    join_state t ps wt done live q' ∧
    pushed tr = (match live with O => wt | S _ => [] end).
Proof.
  intros Hwf Hnd Ht Hfree (nt & ds & Hnt & Hk & Hlen & Hq & Hds) Hpreds Hdone Hf.
  destruct (scan_dependences_spec t (length ds) q nt ds Hwf Hnt Hk (le_n _))
    as (found & q1 & tr1 & Hscan & j & Hj & Hd & Ho & _ & _ & Hsil & Hnc & _
        & Hmid & Hend & nt1 & ds1 & Hnt1 & Hk1 & Hlen1 & Hout & Hin).
  pose proof (steps_scan_dependences t (length ds) q found q1 tr1 Hscan) as Hs.
  assert (Hrun : ∀ r,
            (if negb found then _complete_finished_task f t else mret tt) q1 = Ok r →
            schedule_aggregate_with (_complete_finished_task f) t q
              = Ok (r.1.1, r.1.2, tr1 ++ r.2)).
  { intros [[[] q'] tr2] Hr2. unfold schedule_aggregate_with.
    rewrite (bind_Ok _ _ _ _ _ _ (run_dependence_count q t nt Hnt ds Hk)).
    rewrite (bind_Ok _ _ _ _ _ _ Hscan). rewrite Hr2. reflexivity. }
  assert (Hqueue : ∀ x nd, tasks q !! x = Some nd →
            ∃ nd', tasks q1 !! x = Some nd' ∧
              m_wait_queue nd' =
                match m_wait_queue nd with
                | Open ws => Open (rev (appended_to x tr1) ++ ws)
                | Closed => Closed
                end).
  { intros x nd Hx.
    exact (steps_wait_queue_open x q q1 tr1 nd Hs Ho
             (handed_out_no_consume x tr1 Hnc) Hx). }
  assert (Hpend : ∀ i p, ps !! i = Some p →
            pending q (Some p) = false → p ∈ done).
  { intros i p Hi. destruct (Hpreds i p Hi) as (np & pp & Hnp & _ & Hqp).
    simpl. rewrite Hnp, Hqp. destruct (decide (p ∈ done)); [auto|discriminate]. }
  assert (Hslot_done : ∀ i p, ps !! i = Some p →
            (∀ d, ds !! i = Some d → pending q d = false) → p ∈ done).
  { intros i p Hi Hp. pose proof (Hds i p Hi) as Hdi.
    destruct (decide (i < m)%nat) as [Hlt|Hge].
    - exact (Hpend i p Hi (Hp _ Hdi)).
    - apply (Hdone i p Hi). lia. }
  assert (Hindex : ∀ i p, ps !! i = Some p → (i < length ds)%nat).
  { intros i p Hi. rewrite Hlen. eapply lookup_lt_Some, Hi. }
  assert (Hpt : ∀ i p, ps !! i = Some p → p ≠ t).
  { intros i p Hi ->. apply Ht. eapply list_elem_of_lookup_2, Hi. }
  destruct found.
  - (* parked on the predecessor of slot [j] *)
    destruct Hend as (Hlt & p & Hp & Hpp & Happ).
    assert (Hpj : ps !! j = Some p ∧ (j < m)%nat).
    { destruct (lookup_lt_is_Some_2 ps j) as [p' Hp']; [lia|].
      pose proof (Hds j p' Hp') as Hdj. rewrite Hp in Hdj.
      destruct (decide (j < m)%nat); [|discriminate Hdj].
      injection Hdj as ->. auto. }
    destruct Hpj as [Hpj Hjm].
    assert (Hpnd : p ∉ done).
    { destruct (Hpreds j p Hpj) as (np & pp & Hnp & _ & Hqp).
      simpl in Hpp. rewrite Hnp, Hqp in Hpp.
      destruct (decide (p ∈ done)); [discriminate Hpp|assumption]. }
    exists q1, (tr1 ++ []), (S j).
    split; [exact (Hrun (tt, q1, []) eq_refl)|]. split; [split; [|split]|].
    + split.
      * intros i pi Hi Hle. apply (Hslot_done i pi Hi).
        intros d Hdi. apply (Hmid i d); [|exact Hdi].
        split; [lia|exact (Hindex i pi Hi)].
      * right. exists p. auto.
    + exists nt1, ds1. split; [exact Hnt1|]. split; [exact Hk1|].
      split; [congruence|]. split.
      * destruct (Hqueue t nt Hnt) as (nt1' & Hnt1' & Hq1).
        assert (nt1' = nt1) as -> by congruence.
        rewrite Hq1, Hq, appended_to_appended, Happ. simpl.
        rewrite bool_decide_eq_false_2 by exact (Hpt j p Hpj). reflexivity.
      * intros i pi Hi. simpl.
        destruct (decide (i < j)%nat) as [Hij|Hij].
        -- rewrite Hout by (left; exact Hij). rewrite (Hds i pi Hi).
           destruct (decide (i < m)%nat); [reflexivity|lia].
        -- apply Hin. split; [lia|exact (Hindex i pi Hi)].
    + intros i pi Hi. destruct (Hpreds i pi Hi) as (np & pp & Hnp & Hkp & Hqp).
      destruct (steps_keep_runnable q q1 tr1 pi np pp Hs Hnp Hkp)
        as (np1 & pp1 & Hnp1 & Hkp1).
      exists np1, pp1. split; [exact Hnp1|]. split; [exact Hkp1|].
      destruct (Hqueue pi np Hnp) as (np1' & Hnp1' & Hq1).
      assert (np1' = np1) as -> by congruence.
      rewrite Hq1, Hqp.
      destruct (decide (pi ∈ done)); [reflexivity|].
      rewrite appended_to_appended, Happ. simpl.
      destruct (decide (i = j)) as [->|Hij].
      * assert (pi = p) as -> by congruence.
        rewrite bool_decide_eq_true_2 by reflexivity.
        destruct (decide (Some j = Some j)); [reflexivity|congruence].
      * rewrite bool_decide_eq_false_2.
        -- destruct (decide (Some j = Some i)); [congruence|reflexivity].
        -- intros ->. apply Hij. eapply NoDup_lookup; eassumption.
    + rewrite app_nil_r. apply pushed_silent, Hsil.
  - (* all predecessors are done *)
    destruct Hend as (-> & Happ & Hzero).
    assert (Hall : ∀ i p, ps !! i = Some p → p ∈ done).
    { intros i p Hi. apply (Hslot_done i p Hi). intros d Hdi.
      destruct i as [|i].
      - apply Hzero; [exact (Hindex 0%nat p Hi)|exact Hdi].
      - apply (Hmid (S i) d); [|exact Hdi].
        split; [lia|exact (Hindex (S i) p Hi)]. }
    destruct (Hqueue t nt Hnt) as (nt1' & Hnt1' & Hq1).
    assert (nt1' = nt1) as -> by congruence.
    rewrite Hq, appended_to_appended, Happ in Hq1. simpl in Hq1.
    assert (Hopen1 : (0 < open_count q1)%nat).
    { apply (open_node_counts q1 t nt1 Hnt1). rewrite Hq1. reflexivity. }
    destruct Hd as (_ & _ & Hle).
    destruct f as [|f]; [lia|].
    assert (Hfree1 : ∀ w, w ∈ queue_waiters (m_wait_queue nt1) → free_runnable q1 w).
    { rewrite Hq1. intros w Hw.
      eapply free_runnable_steps; [exact Hs|exact (Hfree w Hw)]. }
    destruct (complete_free_waiters f q1 t nt1 Hnt1 Hfree1)
      as (q2 & nd2 & Hcft & _ & _ & Hnd2 & _ & Hq2 & Hk2 & Hnodes).
    rewrite Hq1 in Hcft, Hk2, Hnodes. simpl queue_waiters in Hcft, Hk2, Hnodes.
    eexists _, _, 0%nat.
    split; [exact (Hrun (tt, _, _) Hcft)|]. cbn [fst snd].
    split; [split; [|split]|].
    + split; [intros i p Hi _; exact (Hall i p Hi)|left; reflexivity].
    + exists (node_release nd2), ds1.
      split; [apply tasks_upd_eq; eapply lookup_lt_Some, Hnd2|].
      split.
      { simpl. rewrite Hk2. destruct (bool_decide (t ∈ wt)); [|exact Hk1].
        unfold node_set_respawn. rewrite Hk1. exact Hk1. }
      split; [congruence|]. split; [exact Hq2|].
      intros i p Hi. simpl.
      destruct (decide (i < 0)%nat); [lia|].
      apply Hin. split; [lia|exact (Hindex i p Hi)].
    + intros i p Hi. destruct (Hpreds i p Hi) as (np & pp & Hnp & Hkp & Hqp).
      destruct (steps_keep_runnable q q1 tr1 p np pp Hs Hnp Hkp)
        as (np1 & pp1 & Hnp1 & Hkp1).
      destruct (Hqueue p np Hnp) as (np1' & Hnp1' & Hqp1).
      assert (np1' = np1) as -> by congruence.
      rewrite Hqp in Hqp1.
      destruct (decide (p ∈ done)) as [Hin'|Hnin]; [|destruct (Hnin (Hall i p Hi))].
      exists (if bool_decide (p ∈ wt) then node_set_respawn false np1 else np1), pp1.
      split.
      { rewrite tasks_upd_ne by (intros Heq; exact (Hpt i p Hi (eq_sym Heq))).
        rewrite (Hnodes p (Hpt i p Hi)), Hnp1. reflexivity. }
      destruct (bool_decide (p ∈ wt)).
      * split; [unfold node_set_respawn; rewrite Hkp1; reflexivity|].
        rewrite m_wait_queue_set_respawn. exact Hqp1.
      * split; [exact Hkp1|exact Hqp1].
    + rewrite !pushed_app, (pushed_silent tr1 Hsil), pushed_wake_logs,
        pushed_release_log. simpl. apply app_nil_r.
Qed.

Lemma steps_run_call fuel c : tracks atomic_steps (run_call fuel c).
Proof.
  apply tracks_run_call.
  - exact steps_nil.
  - exact steps_app.
  - intros q q' tr H _. apply steps_one, H.
  - exact steps_schedule_runnable.
Qed.

(** The release of a predecessor and the decrement of the ready count
    leave the aggregate where it is. *)
Lemma join_state_release t ps wt done live q k nk :
  join_state t ps wt done live q → k ≠ t → tasks q !! k = Some nk →
  join_state t ps wt done live (count_down (upd q k (node_release nk))).
Proof.
  intros (Hlive & (nt & ds & Hnt & Hagg) & Hpreds) Hkt Hnk.
  split; [exact Hlive|]. split.
  - exists nt, ds. split; [|exact Hagg].
    change (tasks (count_down ?x)) with (tasks x).
    rewrite tasks_upd_ne by exact Hkt. exact Hnt.
  - intros i p Hi. destruct (Hpreds i p Hi) as (np & pp & Hnp & Hkp & Hqp).
    change (tasks (count_down ?x)) with (tasks x).
    destruct (decide (k = p)) as [->|Hne].
    + assert (np = nk) as -> by congruence.
      exists (node_release nk), pp.
      split; [apply tasks_upd_eq; eapply lookup_lt_Some, Hnk|].
      split; [exact Hkp|exact Hqp].
    + exists np, pp. rewrite tasks_upd_ne by exact Hne. auto.
Qed.

(** The completion of one more predecessor. *)
Lemma join_complete fuel q t ps wt done live k :
  wf q → NoDup ps → t ∉ ps →
  (∀ w, w ∈ wt → free_runnable q w) →
  join_state t ps wt done live q →
  k ∈ ps → k ∉ done →
  (open_count q < fuel)%nat →
  ∃ q' tr live',
    run_call fuel (CompleteRunnable k) q = Ok (tt, q', tr) ∧
    wf q' ∧ (open_count q' ≤ open_count q)%nat ∧
    (∀ w, w ∈ wt → free_runnable q' w) ∧
    join_state t ps wt (k :: done) live' q' ∧
    pushed tr = (match live' with O => wt | S _ => [] end).
Proof.
  intros Hwf Hnd Ht Hfree (Hlive & Hagg & Hpreds) Hk Hkd Hfuel.
  apply list_elem_of_lookup in Hk as [ik Hik].
  destruct (Hpreds ik k Hik) as (nk & pp & Hnk & Hkk & Hqk).
  destruct (decide (k ∈ done)) as [Hc|_]; [destruct (Hkd Hc)|].
  assert (Hkt : k ≠ t).
  { intros ->. apply Ht. eapply list_elem_of_lookup_2, Hik. }
  assert (Hok : call_ok (shape q) (CompleteRunnable k))
    by (apply shape_runnable; eauto).
  destruct (run_call_wp fuel _ q Hwf Hok Hfuel)
    as ([] & q' & tr & Hrun & (_ & Hwf' & Hle) & _).
  pose proof (steps_run_call fuel _ q tt q' tr Hrun) as Hsteps.
  assert (Hfree' : ∀ w, w ∈ wt → free_runnable q' w).
  { intros w Hw. eapply free_runnable_steps; [exact Hsteps|exact (Hfree w Hw)]. }
  exists q', tr.
  assert (Hgoal : ∃ live',
            join_state t ps wt (k :: done) live' q' ∧
            pushed tr = (match live' with O => wt | S _ => [] end));
    [|destruct Hgoal as (live' & H1 & H2); exists live'; auto 10].
  destruct fuel as [|f]; [lia|].
  destruct live as [|j].
  { exfalso. apply Hkd. apply (proj1 Hlive ik k Hik). lia. }
  simpl pred in Hagg.
  rewrite bool_decide_eq_true_2 in Hagg by discriminate.
  destruct (decide (ik = j)) as [->|Hne].
  - (* the aggregate is parked on [k] *)
    destruct (decide (Some j = Some j)) as [_|Hc]; [|destruct (Hc eq_refl)].
    set (qa := upd q k (node_close nk)).
    assert (Hwfa : wf qa).
    { apply wf_upd; [exact Hwf|]. apply wf_node_close, (wf_lookup q k nk Hwf Hnk). }
    assert (Hopa : (open_count qa + 1 = open_count q)%nat).
    { pose proof (open_count_upd q k nk (node_close nk) Hnk) as H.
      unfold open_weight in H. rewrite Hqk in H. simpl in H. fold qa in H. lia. }
    assert (Hsa : atomic_steps q qa [EvConsumeWaitQueue k [t]]).
    { apply steps_one. pose proof (step_consume q k nk Hnk) as H.
      rewrite Hqk in H. exact H. }
    assert (Hother : ∀ x, x ≠ k → tasks qa !! x = tasks q !! x).
    { intros x Hx. apply tasks_upd_ne. congruence. }
    assert (Hka : tasks qa !! k = Some (node_close nk)).
    { apply tasks_upd_eq. eapply lookup_lt_Some, Hnk. }
    destruct (join_rescan f qa t ps wt (k :: done) j) as (qb & trb & live' & Hresc & Hb & Hpb);
      try assumption.
    + intros w Hw. eapply free_runnable_steps; [exact Hsa|exact (Hfree w Hw)].
    + destruct Hagg as (nt & ds & Hnt & Hagg). exists nt, ds.
      split; [|exact Hagg]. rewrite Hother by congruence. exact Hnt.
    + intros i p Hi. destruct (Hpreds i p Hi) as (np & pp' & Hnp & Hkp & Hqp).
      destruct (decide (p = k)) as [->|Hpk].
      * exists (node_close nk), pp. split; [exact Hka|]. split; [exact Hkk|].
        destruct (decide (k ∈ k :: done)) as [_|Hc]; [reflexivity|].
        destruct Hc. left.
      * exists np, pp'. rewrite Hother by exact Hpk. split; [exact Hnp|].
        split; [exact Hkp|]. rewrite Hqp.
        assert (Hij : i ≠ j).
        { intros ->. apply Hpk. congruence. }
        destruct (decide (p ∈ done)) as [Hd|Hd].
        -- destruct (decide (p ∈ k :: done)) as [_|Hc]; [reflexivity|].
           destruct Hc. right. exact Hd.
        -- destruct (decide (p ∈ k :: done)) as [Hc|_].
           ++ apply elem_of_cons in Hc as [Hc|Hc]; [destruct (Hpk Hc)|destruct (Hd Hc)].
           ++ destruct (decide (Some j = Some i)) as [Hc|_]; [congruence|].
              destruct (decide (None = Some i)) as [Hc|_]; [discriminate Hc|reflexivity].
    + intros i p Hi Hle'. destruct (decide (i = j)) as [->|Hij].
      * assert (p = k) as -> by congruence. left.
      * right. apply (proj1 Hlive i p Hi). lia.
    + lia.
    + destruct Hb as (Hlive' & Hagg' & Hpreds').
      destruct (Hpreds' j k Hik) as (nkb & ppb & Hnkb & _).
      destruct Hagg as (nt & ds & Hnt & Hknt & _).
      assert (Hnta : tasks qa !! t = Some nt) by (rewrite Hother by congruence; exact Hnt).
      assert (Hvisit : visit_waiters (_complete_finished_task f) [t] qa
                       = Ok (tt, qb, trb ++ [])).
      { simpl visit_waiters. unfold _schedule_waiting_tasks_operation.
        assert (Hop : (r ← is_runnable t;
                       if r : bool then schedule_runnable t
                       else schedule_aggregate_with (_complete_finished_task f) t) qa
                      = Ok (tt, qb, trb)).
        { rewrite (bind_Ok _ _ _ _ _ _ (run_is_runnable qa t nt Hnta)).
          unfold node_is_runnable. rewrite Hknt. cbv iota.
          rewrite Hresc. reflexivity. }
        rewrite (bind_Ok _ _ _ _ _ _ Hop). reflexivity. }
      assert (Hcft : _complete_finished_task (S f) k q =
                Ok (tt, upd qb k (node_release nkb),
                    [EvConsumeWaitQueue k [t]] ++ (trb ++ []) ++
                    release_log k (m_ref_count nkb))).
      { simpl _complete_finished_task.
        rewrite (bind_Ok _ _ _ _ _ _ (run_consume_wait_queue q k nk Hnk)).
        rewrite Hqk. simpl queue_waiters. fold qa.
        rewrite (bind_Ok _ _ _ _ _ _ Hvisit).
        rewrite (bind_Ok _ _ _ _ _ _
                   (run_decrement_and_check_reference_count qb k nkb Hnkb)).
        unfold release_log.
        destruct (m_ref_count nkb - 1 =? 0); reflexivity. }
      pose proof (complete_runnable_run (S f) q k nk pp false _ _ Hnk Hkk Hcft) as Hrun'.
      simpl run_call in Hrun. rewrite Hrun' in Hrun. injection Hrun as <- <-.
      exists live'. split.
      * apply join_state_release; [|exact Hkt|exact Hnkb].
        split; [exact Hlive'|]. split; assumption.
      * change (pushed (EvConsumeWaitQueue ?a ?b :: ?x)) with (pushed x).
        rewrite !pushed_app, pushed_release_log, Hpb. simpl.
        rewrite !app_nil_r. reflexivity.
  - (* the wait queue of [k] is empty *)
    destruct (decide (Some j = Some ik)) as [Hc|_]; [congruence|].
    assert (Hfree0 : ∀ w, w ∈ queue_waiters (m_wait_queue nk) → free_runnable q w).
    { rewrite Hqk. intros w Hw. inversion Hw. }
    destruct (complete_free_waiters f q k nk Hnk Hfree0)
      as (q1 & nd1 & Hcft & _ & _ & Hnd1 & _ & Hq1 & Hk1 & Hnodes).
    rewrite Hqk in Hcft, Hk1, Hnodes. simpl queue_waiters in Hcft, Hk1, Hnodes.
    pose proof (complete_runnable_run (S f) q k nk pp false _ _ Hnk Hkk Hcft) as Hrun'.
    simpl run_call in Hrun. rewrite Hrun' in Hrun. injection Hrun as <- <-.
    assert (Hsame : ∀ x, x ≠ k → tasks q1 !! x = tasks q !! x).
    { intros x Hx. rewrite (Hnodes x Hx).
      destruct (tasks q !! x); reflexivity. }
    exists (S j). split.
    + apply join_state_release; [|exact Hkt|exact Hnd1].
      split; [|split].
      * split.
        -- intros i p Hi Hle'. right. exact (proj1 Hlive i p Hi Hle').
        -- right. destruct (proj2 Hlive) as [Hc|(p & Hp & Hpd)]; [discriminate Hc|].
           exists p. split; [exact Hp|].
           intros [->|Hc]%elem_of_cons; [|exact (Hpd Hc)].
           apply Hne. eapply NoDup_lookup; eassumption.
      * destruct Hagg as (nt & ds & Hnt & Hagg). exists nt, ds.
        split; [rewrite Hsame by congruence; exact Hnt|].
        simpl pred. rewrite bool_decide_eq_true_2 by discriminate. exact Hagg.
      * intros i p Hi. destruct (Hpreds i p Hi) as (np & pp' & Hnp & Hkp & Hqp).
        destruct (decide (p = k)) as [->|Hpk].
        -- exists nd1, pp. split; [exact Hnd1|].
           split; [rewrite Hk1; exact Hkk|].
           destruct (decide (k ∈ k :: done)) as [_|Hc]; [exact Hq1|].
           destruct Hc. left.
        -- exists np, pp'. rewrite Hsame by exact Hpk. split; [exact Hnp|].
           split; [exact Hkp|]. rewrite Hqp.
           destruct (decide (p ∈ done)) as [Hd|Hd].
           ++ destruct (decide (p ∈ k :: done)) as [_|Hc]; [reflexivity|].
              destruct Hc. right. exact Hd.
           ++ destruct (decide (p ∈ k :: done)) as [Hc|_]; [|reflexivity].
              apply elem_of_cons in Hc as [Hc|Hc]; [destruct (Hpk Hc)|destruct (Hd Hc)].
    + simpl. destruct (m_ref_count nk - 1 =? 0); reflexivity.
Qed.

Lemma join_live_zero ps done : join_live ps done 0 → ∀ p, p ∈ ps → p ∈ done.
Proof.
  intros [H _] p [i Hi]%list_elem_of_lookup. apply (H i p Hi). lia.
Qed.

Lemma join_live_pos ps done j : join_live ps done (S j) → ¬ ∀ p, p ∈ ps → p ∈ done.
Proof.
  intros [_ [Hc|(p & Hp & Hpd)]] Hall; [discriminate Hc|].
  apply Hpd, Hall. eapply list_elem_of_lookup_2, Hp.
Qed.

(** The completions of some of the predecessors, one after the other. *)
Lemma join_completions fuel t ps wt cs :
  NoDup ps → t ∉ ps →
  ∀ q done live,
    wf q → (∀ w, w ∈ wt → free_runnable q w) →
    join_state t ps wt done live q →
    NoDup cs → (∀ k, k ∈ cs → k ∈ ps ∧ k ∉ done) →
    (open_count q < fuel)%nat →
    ∃ q' tr done' live',
      run_calls fuel (CompleteRunnable <$> cs) q = Ok (tt, q', tr) ∧
      (∀ p, p ∈ done' ↔ p ∈ cs ∨ p ∈ done) ∧
      join_state t ps wt done' live' q' ∧
      pushed tr = (match live, live' with S _, O => wt | _, _ => [] end).
Proof.
  intros Hnd Ht. induction cs as [|k cs IH];
    intros q done live Hwf Hfree Hst Hcs Hin Hfuel.
  - exists q, [], done, live. split; [reflexivity|]. split.
    { intros p. split; [auto|]. intros [H|H]; [inversion H|exact H]. }
    split; [exact Hst|]. destruct live; reflexivity.
  - inversion Hcs as [|? ? Hk Hcs']; subst.
    destruct (Hin k) as [Hkps Hkd]; [left|].
    destruct (join_complete fuel q t ps wt done live k Hwf Hnd Ht Hfree Hst
                Hkps Hkd Hfuel)
      as (q1 & tr1 & live1 & Hrun1 & Hwf1 & Hle1 & Hfree1 & Hst1 & Hp1).
    destruct (IH q1 (k :: done) live1 Hwf1 Hfree1 Hst1 Hcs')
      as (q' & tr2 & done' & live' & Hrun2 & Hd' & Hst' & Hp2).
    { intros k' Hk'. destruct (Hin k') as [Hps' Hd']; [right; exact Hk'|].
      split; [exact Hps'|].
      intros [->|Hc]%elem_of_cons; [exact (Hk Hk')|exact (Hd' Hc)]. }
    { lia. }
    exists q', (tr1 ++ tr2), done', live'. split.
    { rewrite fmap_cons.
      change (run_calls fuel (?c :: ?l)) with (run_call fuel c;; run_calls fuel l).
      rewrite (bind_Ok _ _ _ _ _ _ Hrun1), Hrun2. reflexivity. }
    split.
    { intros p. rewrite Hd', !elem_of_cons. tauto. }
    split; [exact Hst'|].
    rewrite pushed_app, Hp1, Hp2.
    destruct live as [|j].
    { exfalso. apply Hkd. exact (join_live_zero ps done (proj1 Hst) k Hkps). }
    destruct live1 as [|j1], live' as [|j']; rewrite ?app_nil_r; try reflexivity.
    exfalso. apply (join_live_pos ps done' j' (proj1 Hst')).
    intros p Hp. apply Hd'. right.
    exact (join_live_zero ps (k :: done) (proj1 Hst1) p Hp).
Qed.

(** X11.  An aggregate joins its predecessors.  Let [t] be an aggregate
    over running tasks [ps], all different, whose own waiters [wt] are
    runnable tasks without a predecessor.  Schedule [t], then let some
    of its predecessors complete, in any order.  As long as one of the
    predecessors has not completed, [t] is not finalised: its wait queue
    is still open, with its waiters, and nothing has been pushed.  Once
    all have completed, [t] has been finalised: its wait queue is closed
    and its waiters have been pushed, each once, in the order of the
    queue. *)
Theorem aggregate_joins_predecessors fuel q t nt ps wt cs :
  wf q →
  tasks q !! t = Some nt →
  m_kind nt = AggregateTask (Some <$> ps) →
  m_wait_queue nt = Open wt →
  NoDup ps → t ∉ ps →
  (∀ p, p ∈ ps →
        ∃ np pp, tasks q !! p = Some np ∧ m_kind np = RunnableTask pp false ∧
                 m_wait_queue np = Open []) →
  (∀ w, w ∈ wt → free_runnable q w) →
  NoDup cs → (∀ k, k ∈ cs → k ∈ ps) →
  (open_count q < fuel)%nat →
  ∃ q' tr nt',
    run_calls fuel (ScheduleAggregate t :: (CompleteRunnable <$> cs)) q
      = Ok (tt, q', tr) ∧
    tasks q' !! t = Some nt' ∧
    ((∀ p, p ∈ ps → p ∈ cs) → pushed tr = wt ∧ m_wait_queue nt' = Closed) ∧
    (¬ (∀ p, p ∈ ps → p ∈ cs) → pushed tr = [] ∧ m_wait_queue nt' = Open wt).
Proof.
  intros Hwf Hnt Hk Hq Hnd Ht Hpreds Hfree Hcs Hin Hfuel.
  destruct (join_rescan fuel q t ps wt [] (length ps))
    as (q0 & tr0 & live0 & Hrun0 & Hst0 & Hp0); try assumption.
  { exists nt, (Some <$> ps). split; [exact Hnt|]. split; [exact Hk|].
    split; [apply length_fmap|]. split; [exact Hq|].
    intros i p Hi. rewrite list_lookup_fmap, Hi. simpl.
    destruct (decide (i < length ps)%nat) as [_|Hc]; [reflexivity|].
    destruct Hc. eapply lookup_lt_Some, Hi. }
  { intros i p Hi.
    destruct (Hpreds p) as (np & pp & Hnp & Hkp & Hqp);
      [eapply list_elem_of_lookup_2, Hi|].
    exists np, pp. split; [exact Hnp|]. split; [exact Hkp|].
    destruct (decide (p ∈ [])) as [Hc|_]; [inversion Hc|].
    destruct (decide (None = Some i)) as [Hc|_]; [discriminate Hc|exact Hqp]. }
  { intros i p Hi Hle. apply lookup_lt_Some in Hi. lia. }
  assert (Hrun0' : run_call fuel (ScheduleAggregate t) q = Ok (tt, q0, tr0))
    by exact Hrun0.
  assert (Hok : call_ok (shape q) (ScheduleAggregate t)).
  { exists (length (Some <$> ps)). apply shape_aggregate. eauto. }
  destruct (run_call_wp fuel _ q Hwf Hok Hfuel)
    as ([] & q0' & tr0' & Hrun0'' & (_ & Hwf0 & Hle0) & _).
  rewrite Hrun0' in Hrun0''. injection Hrun0'' as <- <-.
  assert (Hfree0 : ∀ w, w ∈ wt → free_runnable q0 w).
  { intros w Hw. eapply free_runnable_steps; [|exact (Hfree w Hw)].
    exact (steps_run_call fuel _ q tt q0 tr0 Hrun0'). }
  destruct (join_completions fuel t ps wt cs Hnd Ht q0 [] live0 Hwf0 Hfree0 Hst0 Hcs)
    as (q' & tr & done' & live' & Hrun & Hd' & Hst' & Hp); [|lia|].
  { intros k Hk'. split; [exact (Hin k Hk')|]. intros Hc. inversion Hc. }
  destruct Hst' as (Hlive' & (nt' & ds' & Hnt' & _ & _ & Hq' & _) & _).
  exists q', (tr0 ++ tr), nt'. split.
  { change (run_calls fuel (?c :: ?l)) with (run_call fuel c;; run_calls fuel l).
    rewrite (bind_Ok _ _ _ _ _ _ Hrun0'), Hrun. reflexivity. }
  split; [exact Hnt'|].
  assert (Hdone : ∀ p, p ∈ done' ↔ p ∈ cs).
  { intros p. rewrite Hd'. split; [intros [H|H]; [exact H|inversion H]|auto]. }
  rewrite pushed_app, Hp0, Hp.
  destruct live' as [|j'].
  - split; [|intros Hc; destruct Hc; intros p Hp';
             apply Hdone, (join_live_zero ps done' Hlive' p Hp')].
    intros _. rewrite bool_decide_eq_false_2 in Hq' by (intros Hc; apply Hc; reflexivity).
    split; [|exact Hq'].
    destruct live0; [apply app_nil_r|reflexivity].
  - split; [intros Hall; destruct (join_live_pos ps done' j' Hlive');
            intros p Hp'; apply Hdone, Hall, Hp'|].
    intros _. rewrite bool_decide_eq_true_2 in Hq' by discriminate.
    split; [|exact Hq'].
    destruct live0 as [|j0]; [|reflexivity].
    exfalso. apply (join_live_pos ps done' j' Hlive').
    intros p Hp'. pose proof (join_live_zero ps [] (proj1 Hst0) p Hp') as Hc.
    inversion Hc.
Qed.

Lemma aggregate_joins_predecessors_witness :
  ∃ q' tr nt',
    run_calls 5 (ScheduleAggregate 2%nat :: (CompleteRunnable <$> [0%nat; 1%nat]))
      two_and_join = Ok (tt, q', tr) ∧
    tasks q' !! 2%nat = Some nt' ∧
    ((∀ p, p ∈ [0%nat; 1%nat] → p ∈ [0%nat; 1%nat]) →
     pushed tr = [3%nat] ∧ m_wait_queue nt' = Closed) ∧
    (¬ (∀ p, p ∈ [0%nat; 1%nat] → p ∈ [0%nat; 1%nat]) →
     pushed tr = [] ∧ m_wait_queue nt' = Open [3%nat]).
Proof.
  apply (aggregate_joins_predecessors 5 two_and_join 2%nat
           (aggregate_node [Some 0%nat; Some 1%nat] 1 (Open [3%nat]))
           [0%nat; 1%nat] [3%nat] [0%nat; 1%nat]).
  - decide_wf.
  - reflexivity.
  - reflexivity.
  - reflexivity.
  - decide_wf.
  - decide_wf.
  - intros p Hp. exists (runnable_node None false 2 (Open [])), None.
    repeat (apply elem_of_cons in Hp as [->|Hp]; [auto|]). inversion Hp.
  - intros w Hw. apply list_elem_of_singleton in Hw as ->.
    exists (runnable_node None false 1 (Open [])), false. split; reflexivity.
  - decide_wf.
  - intros k Hk. exact Hk.
  - vm_compute. lia.
Defined.
